(** * RapidDocCpp: reading order, layout types and the page pipeline

    A shallow embedding of the reading-order recovery code of RapidDocCpp
    ([xycut.cpp] / [xycut.h]) and of the code around it: the layout types
    ([types.h], [types.cpp]), the pipeline configuration ([config.h],
    [config.cpp]), the page pipeline that calls the reading order
    ([doc_pipeline.cpp]) and the base64 decoder of the server
    ([server.cpp]); and the properties its specification states about it.

    Conventions of the embedding.
    - C++ [int] values are [Z].  Every loop counter of the embedded code is
      bounded by the size of a vector, so no wrap-around is reachable and
      none is written out; the one exception is the accumulator of
      [base64Decode], whose wrap-around is written out ([Server.wrap]).
    - C++ [float] values are rationals [Q].  The geometry of the cuts (the
      centers of the boxes and the thresholds of the leaf comparators) is
      exact: rounding, overflow and NaN are outside the model there.  In
      [detectTextDirection] and in the gap width, where one rounding
      decides the result, the binary32 arithmetic is written out
      ([Float32.round]).
    - [static_cast<int>] of a float is truncation toward zero ([truncQ]).
      C++ defines the conversion when the truncation is an [int];
      [cvttss2si] is what the x86-64 build computes outside this range too.
      The gap width is converted with it; the bounds of a box and
      [minValueRatio] are converted with [truncQ], and the theorem on the
      histogram states the range.
    - [std::vector<int>] is [list Z]; a vector of box indices is [list nat];
      [std::string] is [String.string], a sequence of bytes.
    - A call that would subscript a vector out of range, or build a vector of
      negative size, ends in [Fault]; a recursion that exhausts its fuel ends
      in [NoFuel]; everything else ends in [Done]. *)

From Stdlib Require Import ZArith QArith Qround Qabs Qminmax Qpower.
From Stdlib Require Import Lia Lqa Bool List.
From Stdlib Require Import Permutation Sorted.
From Stdlib Require String Ascii DecimalString DecimalZ.
Import ListNotations.

Open Scope Z_scope.

(** Boolean comparisons on [Z] in the hypotheses, as propositions. *)
Ltac zbool :=
  repeat match goal with
    | H : (_ <=? _) = true |- _ => apply Z.leb_le in H
    | H : (_ <=? _) = false |- _ => apply Z.leb_gt in H
    | H : (_ <? _) = true |- _ => apply Z.ltb_lt in H
    | H : (_ <? _) = false |- _ => apply Z.ltb_ge in H
    | H : (_ =? _) = true |- _ => apply Z.eqb_eq in H
    | H : (_ =? _) = false |- _ => apply Z.eqb_neq in H
    end.

(** * The program *)

(** ** Profile segmentation: [detail::splitProjectionProfile] *)

Module Profile.

(** The local variables of the scan loop. *)
Record SplitState : Type := mkSplitState {
  segments : list (Z * Z);
  inSegment : bool;
  segStart : Z;
  gapCount : Z
}.

Definition initState : SplitState := mkSplitState [] false 0 0.

(** One iteration of the [for] loop, at index [i] with [values[i] = v]. *)
Definition split_step (minValue minGap : Z) (st : SplitState) (i v : Z)
  : SplitState :=
  if minValue <? v then
    mkSplitState (segments st) true
                 (if inSegment st then segStart st else i) 0
  else if inSegment st then
    let g := gapCount st + 1 in
    if minGap <=? g then
      mkSplitState (segments st ++ [(segStart st, i - g + 1)]) false
                   (segStart st) 0
    else mkSplitState (segments st) true (segStart st) g
  else st.

(** The loop over the remaining values [vs], the next index being [i]. *)
Fixpoint split_loop (minValue minGap : Z) (vs : list Z) (i : Z)
         (st : SplitState) : SplitState :=
  match vs with
  | [] => st
  | v :: vs' =>
      split_loop minValue minGap vs' (i + 1) (split_step minValue minGap st i v)
  end.

(** "Close last segment". *)
Definition flush (st : SplitState) (size : Z) : list (Z * Z) :=
  if inSegment st then segments st ++ [(segStart st, size)] else segments st.

Definition splitProjectionProfile (values : list Z) (minValue minGap : Z)
  : list (Z * Z) :=
  flush (split_loop minValue minGap values 0 initState)
        (Z.of_nat (length values)).

End Profile.

(** ** Outcomes of a call *)

Inductive outcome (A : Type) : Type :=
| Done (a : A)   (* the call returns [a] *)
| Fault          (* a vector subscript out of range, or a negative size *)
| NoFuel.        (* the recursion budget of the model is exhausted *)

Arguments Done {A} a.
Arguments Fault {A}.
Arguments NoFuel {A}.

Definition bind {A B : Type} (o : outcome A) (k : A -> outcome B) : outcome B :=
  match o with
  | Done a => k a
  | Fault => Fault
  | NoFuel => NoFuel
  end.

(** The call comes back (with a value or a fault) within its budget. *)
Definition terminates {A : Type} (o : outcome A) : Prop :=
  match o with
  | NoFuel => False
  | _ => True
  end.

Notation "x <- e ;; k" := (bind e (fun x => k))
  (at level 61, e at next level, right associativity).

(** A range-based [for] loop whose body updates a state by reference. *)
Fixpoint for_each {A S : Type} (l : list A) (body : A -> S -> outcome S)
         (st : S) : outcome S :=
  match l with
  | [] => Done st
  | a :: l' => st' <- body a st ;; for_each l' body st'
  end.

(** ** Floats as rationals *)

Definition Qltb (x y : Q) : bool := negb (Qle_bool y x).

(** [static_cast<int>(q)]: truncation toward zero. *)
Definition truncQ (q : Q) : Z := Z.quot (Qnum q) (Zpos (Qden q)).

(** C++ defines the conversion only when the truncation is an [int].
    Outside this range the conversion instruction of the x86-64 build
    ([cvttss2si]) gives [INT_MIN]. *)
Definition INT_MIN : Z := - 2 ^ 31.
Definition INT_MAX : Z := 2 ^ 31 - 1.

Definition cvttss2si (q : Q) : Z :=
  let z := truncQ q in
  if (INT_MIN <=? z) && (z <=? INT_MAX) then z else INT_MIN.

(** ** Binary32 arithmetic

    Where a comparison of the code is decided by one rounding, the rounding
    is written out: [round q] is the binary32 number nearest to the
    rational [q], a tie going to the even significand (24 bits of
    significand, exponents from -149 for the unit in the last place of a
    subnormal number up to 127).  A result of magnitude [2^128] or more is
    an infinity; [infinity] stands for it, and compares with every
    binary32 number as the infinity does. *)

Module Float32.

Definition pow2 (e : Z) : Q := (2 ^ e)%Q.

(** The exponent of the binade of a positive rational: the [e] with
    [2^e <= q < 2^(e+1)]. *)
Definition ilog2 (q : Q) : Z :=
  if Qle_bool 1 q then Z.log2 (Qfloor q)
  else - Z.log2_up (Qceiling (/ q)).

(** The nearest integer, a tie going to the even one. *)
Definition nearest_even (t : Q) : Z :=
  let f := Qfloor t in
  match (t - inject_Z f ?= 1 # 2)%Q with
  | Lt => f
  | Gt => f + 1
  | Eq => if Z.even f then f else f + 1
  end.

(** The exponent of the unit in the last place of the binary32 numbers
    around [q]. *)
Definition ulp_exp (q : Q) : Z := Z.max (-149) (ilog2 (Qabs q) - 23).

Definition infinity : Q := pow2 128.

Definition round (q : Q) : Q :=
  if Qeq_bool q 0 then 0%Q
  else
    let e := ulp_exp q in
    let r := (inject_Z (nearest_even (q / pow2 e)) * pow2 e)%Q in
    if Qle_bool infinity (Qabs r)
    then (if Qle_bool 0 q then infinity else - infinity)%Q
    else Qred r.

End Float32.

(** ** Data model: [types.h] and [xycut.h] *)

Inductive LayoutCategory : Type :=
| TEXT | TITLE | FIGURE | FIGURE_CAPTION | TABLE | TABLE_CAPTION
| TABLE_FOOTNOTE | HEADER | FOOTER | REFERENCE | EQUATION
| INTERLINE_EQUATION | STAMP | CODE | TOC | ABSTRACT | CONTENT | LIST
| INDEX | SEPARATOR | UNKNOWN.

Record LayoutBox : Type := mkLayoutBox {
  x0 : Q; y0 : Q; x1 : Q; y1 : Q;
  category : LayoutCategory;
  confidence : Q;
  index : Z
}.

Definition width (b : LayoutBox) : Q := (x1 b - x0 b)%Q.
Definition height (b : LayoutBox) : Q := (y1 b - y0 b)%Q.
Definition center_x (b : LayoutBox) : Q := ((x0 b + x1 b) / 2)%Q.
Definition center_y (b : LayoutBox) : Q := ((y0 b + y1 b) / 2)%Q.

Inductive TextDirection : Type := HORIZONTAL | VERTICAL | AUTO.

Record XYCutConfig : Type := mkXYCutConfig {
  direction : TextDirection;
  minGapRatio : Q;
  minValueRatio : Q
}.

Definition defaultConfig : XYCutConfig := mkXYCutConfig AUTO (1 # 20) 0.

(** ** The reading-order code: [xycut.cpp] *)

Module XYCut.

Import Profile.

(** [float w = box.width()], [h * 1.5f] and the ratio of the counts are
    binary32 values: each is the exact result, rounded. *)
Definition detectTextDirection (boxes : list LayoutBox) : TextDirection :=
  match boxes with
  | [] => HORIZONTAL
  | _ =>
      let '(horizontalCount, totalCount) :=
        fold_left
          (fun (c : Z * Z) (box : LayoutBox) =>
             let w := Float32.round (width box) in
             let h := Float32.round (height box) in
             if Qltb 0 w && Qltb 0 h then
               ((if Qle_bool (Float32.round (h * (3 # 2))) w
                 then fst c + 1 else fst c),
                snd c + 1)
             else c)
          boxes (0, 0) in
      if totalCount =? 0 then HORIZONTAL
      else
        let ratio :=
          Float32.round (Float32.round (inject_Z horizontalCount) /
                         Float32.round (inject_Z totalCount)) in
        if Qle_bool (1 # 2) ratio then HORIZONTAL else VERTICAL
  end.

(** [projection[i]++] on a vector. *)
Fixpoint incr_at (i : nat) (p : list Z) : list Z :=
  match p, i with
  | [], _ => []
  | v :: p', O => (v + 1) :: p'
  | v :: p', S j => v :: incr_at j p'
  end.

Definition vector_incr (p : list Z) (i : Z) : outcome (list Z) :=
  if (0 <=? i) && (i <? Z.of_nat (length p))
  then Done (incr_at (Z.to_nat i) p)
  else Fault.

(** [for (int i = start; ...; i++) projection[i]++], with [n] iterations
    left. *)
Fixpoint incr_loop (n : nat) (i : Z) (p : list Z) : outcome (list Z) :=
  match n with
  | O => Done p
  | S n' => p' <- vector_incr p i ;; incr_loop n' (i + 1) p'
  end.

(** The clipped pixel range [start, end) of a box on an axis. *)
Definition span (axis size : Z) (box : LayoutBox) : Z * Z :=
  if axis =? 0 then
    (Z.max 0 (truncQ (x0 box)), Z.min size (truncQ (x1 box)))
  else
    (Z.max 0 (truncQ (y0 box)), Z.min size (truncQ (y1 box))).

Definition project_box (axis size : Z) (box : LayoutBox) (p : list Z)
  : outcome (list Z) :=
  let '(start, end_) := span axis size box in
  incr_loop (Z.to_nat (end_ - start)) start p.

Definition projectionByBboxes (boxes : list LayoutBox) (axis size : Z)
  : outcome (list Z) :=
  if size <? 0 then Fault
  else for_each boxes (project_box axis size) (repeat 0 (Z.to_nat size)).

(** [subBoxes.push_back(boxes[idx])] for every index. *)
Fixpoint gather (boxes : list LayoutBox) (indices : list nat)
  : outcome (list LayoutBox) :=
  match indices with
  | [] => Done []
  | idx :: rest =>
      match nth_error boxes idx with
      | Some b => sub <- gather boxes rest ;; Done (b :: sub)
      | None => Fault
      end
  end.

(** The indices whose box has its center inside a segment. *)
Definition in_segment (c : Q) (seg : Z * Z) : bool :=
  Qle_bool (inject_Z (fst seg)) c && Qltb c (inject_Z (snd seg)).

Definition group (center : LayoutBox -> Q) (seg : Z * Z)
           (indices : list nat) (subBoxes : list LayoutBox) : list nat :=
  map fst (filter (fun ib => in_segment (center (snd ib)) seg)
                  (combine indices subBoxes)).

(** [pageWidth * config.minGapRatio]: the page extent converted to binary32,
    and the binary32 product. *)
Definition gapProduct (page : Z) (cfg : XYCutConfig) : Q :=
  Float32.round (Float32.round (inject_Z page) * minGapRatio cfg).

Definition minGapOf (page : Z) (cfg : XYCutConfig) : Z :=
  Z.max 1 (cvttss2si (gapProduct page cfg)).

Definition minValOf (cfg : XYCutConfig) : Z := truncQ (minValueRatio cfg).

Definition defaultBox : LayoutBox := mkLayoutBox 0 0 0 0 UNKNOWN 0 0.

(** [boxes[a]] inside the comparators; the indices compared there were all
    subscripted by [gather] before. *)
Definition boxAt (boxes : list LayoutBox) (a : nat) : LayoutBox :=
  nth a boxes defaultBox.

(** The comparator of the leaf sort of [recursiveXYCut]. *)
Definition leafLessXY (boxes : list LayoutBox) (a b : nat) : bool :=
  let ya := center_y (boxAt boxes a) in
  let yb := center_y (boxAt boxes b) in
  let threshold :=
    (Qmin (height (boxAt boxes a)) (height (boxAt boxes b)) * (1 # 2))%Q in
  if Qltb (Qabs (ya - yb)) threshold then
    Qltb (center_x (boxAt boxes a)) (center_x (boxAt boxes b))
  else Qltb ya yb.

(** The comparator of the leaf sort of [recursiveYXCut]. *)
Definition leafLessYX (boxes : list LayoutBox) (a b : nat) : bool :=
  let xa := center_x (boxAt boxes a) in
  let xb := center_x (boxAt boxes b) in
  let threshold :=
    (Qmin (width (boxAt boxes a)) (width (boxAt boxes b)) * (1 # 2))%Q in
  if Qltb (Qabs (xa - xb)) threshold then
    Qltb (center_y (boxAt boxes a)) (center_y (boxAt boxes b))
  else Qltb xb xa.

Section Cut.

(** [std::sort] with a comparator: library code, taken as a parameter. *)
Variable sort : (nat -> nat -> bool) -> list nat -> list nat.

Fixpoint recursiveXYCut (fuel : nat) (boxes : list LayoutBox)
         (indices : list nat) (pageWidth pageHeight : Z)
         (config : XYCutConfig) (result : list nat) {struct fuel}
  : outcome (list nat) :=
  match indices with
  | [] => Done result
  | [i] => Done (result ++ [i])
  | _ =>
      match fuel with
      | O => NoFuel
      | S fuel' =>
          subBoxes <- gather boxes indices ;;
          let minGapX := minGapOf pageWidth config in
          let minGapY := minGapOf pageHeight config in
          let minVal := minValOf config in
          xProj <- projectionByBboxes subBoxes 0 pageWidth ;;
          let xSegments := splitProjectionProfile xProj minVal minGapX in
          if (1 <? length xSegments)%nat then
            for_each xSegments
              (fun seg res =>
                 recursiveXYCut fuel' boxes
                   (group center_x seg indices subBoxes)
                   pageWidth pageHeight config res)
              result
          else
            yProj <- projectionByBboxes subBoxes 1 pageHeight ;;
            let ySegments := splitProjectionProfile yProj minVal minGapY in
            if (1 <? length ySegments)%nat then
              for_each ySegments
                (fun seg res =>
                   recursiveXYCut fuel' boxes
                     (group center_y seg indices subBoxes)
                     pageWidth pageHeight config res)
                result
            else Done (result ++ sort (leafLessXY boxes) indices)
      end
  end.

Fixpoint recursiveYXCut (fuel : nat) (boxes : list LayoutBox)
         (indices : list nat) (pageWidth pageHeight : Z)
         (config : XYCutConfig) (result : list nat) {struct fuel}
  : outcome (list nat) :=
  match indices with
  | [] => Done result
  | [i] => Done (result ++ [i])
  | _ =>
      match fuel with
      | O => NoFuel
      | S fuel' =>
          subBoxes <- gather boxes indices ;;
          let minGapX := minGapOf pageWidth config in
          let minGapY := minGapOf pageHeight config in
          let minVal := minValOf config in
          yProj <- projectionByBboxes subBoxes 1 pageHeight ;;
          let ySegments := splitProjectionProfile yProj minVal minGapY in
          if (1 <? length ySegments)%nat then
            for_each ySegments
              (fun seg res =>
                 recursiveYXCut fuel' boxes
                   (group center_y seg indices subBoxes)
                   pageWidth pageHeight config res)
              result
          else
            xProj <- projectionByBboxes subBoxes 0 pageWidth ;;
            let xSegments := splitProjectionProfile xProj minVal minGapX in
            if (1 <? length xSegments)%nat then
              for_each xSegments
                (fun seg res =>
                   recursiveYXCut fuel' boxes
                     (group center_x seg indices subBoxes)
                     pageWidth pageHeight config res)
                result
            else Done (result ++ sort (leafLessYX boxes) indices)
      end
  end.

(** The recursion budget is the number of boxes: [C8] shows that it is never
    exhausted. *)
Definition xycutPlusSort (boxes : list LayoutBox) (pageWidth pageHeight : Z)
           (config : XYCutConfig) : outcome (list nat) :=
  match boxes with
  | [] => Done []
  | _ =>
      let indices := seq 0 (length boxes) in
      let dir :=
        match direction config with
        | AUTO => detectTextDirection boxes
        | d => d
        end in
      match dir with
      | HORIZONTAL =>
          recursiveXYCut (length boxes) boxes indices pageWidth pageHeight
                         config []
      | _ =>
          recursiveYXCut (length boxes) boxes indices pageWidth pageHeight
                         config []
      end
  end.

End Cut.

(** The insertion sort that libstdc++'s [std::sort] runs on a range of at
    most 16 elements ([__insertion_sort]): an element that compares less
    than the first one moves to the front; any other element moves left
    past the elements it compares less than.  [rev_sorted] is the sorted
    prefix, last element first. *)
Fixpoint linear_insert (comp : nat -> nat -> bool) (val : nat)
         (rev_sorted : list nat) : list nat :=
  match rev_sorted with
  | [] => [val]
  | next :: rest =>
      if comp val next then next :: linear_insert comp val rest
      else val :: rev_sorted
  end.

Definition insert_step (comp : nat -> nat -> bool) (rev_sorted : list nat)
           (val : nat) : list nat :=
  match rev rev_sorted with
  | [] => [val]
  | first :: _ =>
      if comp val first then rev_sorted ++ [val]
      else linear_insert comp val rev_sorted
  end.

Definition insertion_sort (comp : nat -> nat -> bool) (l : list nat)
  : list nat :=
  rev (fold_left (insert_step comp) l []).

End XYCut.

(** ** Categories, boxes and elements: [types.h], [types.cpp] *)

(** [cv::Rect]: an integer rectangle, by its top-left corner and extent. *)
Module cv.

Record Rect : Type := mkRect { x : Z; y : Z; width : Z; height : Z }.

End cv.

(** [ContentElement].  [layoutBox] has no default member initializer: every
    place that creates an element assigns it, and so does [make]. *)
Module ContentElement.

Inductive Type_ : Type :=
| TEXT | TITLE | IMAGE | TABLE | EQUATION | CODE | LIST | HEADER | FOOTER
| REFERENCE | UNKNOWN.

Record t : Type := mk {
  type : Type_;
  text : String.string;
  imagePath : String.string;
  html : String.string;
  layoutBox : LayoutBox;
  pageIndex : Z;
  readingOrder : Z;
  confidence : Q;
  skipped : bool
}.

(** [ContentElement elem; elem.layoutBox = box;] *)
Definition make (box : LayoutBox) : t :=
  mk UNKNOWN String.EmptyString String.EmptyString String.EmptyString box
     0 0 0 false.

Module NormalizedBBox.

Record t : Type := mk { x0 : Z; y0 : Z; x1 : Z; y1 : Z }.

End NormalizedBBox.

End ContentElement.

Module Types.

Import String.StringSyntax.
Local Open Scope string_scope.

(** The enumerators' values, [enum class LayoutCategory : int]. *)
Definition categoryValue (cat : LayoutCategory) : Z :=
  match cat with
  | TEXT => 0
  | TITLE => 1
  | FIGURE => 2
  | FIGURE_CAPTION => 3
  | TABLE => 4
  | TABLE_CAPTION => 5
  | TABLE_FOOTNOTE => 6
  | HEADER => 7
  | FOOTER => 8
  | REFERENCE => 9
  | EQUATION => 10
  | INTERLINE_EQUATION => 11
  | STAMP => 12
  | CODE => 13
  | TOC => 14
  | ABSTRACT => 15
  | CONTENT => 16
  | LIST => 17
  | INDEX => 18
  | SEPARATOR => 19
  | UNKNOWN => -1
  end.

(** [a == b] on categories. *)
Definition categoryEq (a b : LayoutCategory) : bool :=
  categoryValue a =? categoryValue b.

Definition layoutCategoryToString (cat : LayoutCategory) : String.string :=
  match cat with
  | TEXT => "text"
  | TITLE => "title"
  | FIGURE => "figure"
  | FIGURE_CAPTION => "figure_caption"
  | TABLE => "table"
  | TABLE_CAPTION => "table_caption"
  | TABLE_FOOTNOTE => "table_footnote"
  | HEADER => "header"
  | FOOTER => "footer"
  | REFERENCE => "reference"
  | EQUATION => "equation"
  | INTERLINE_EQUATION => "interline_equation"
  | STAMP => "stamp"
  | CODE => "code"
  | TOC => "toc"
  | ABSTRACT => "abstract"
  | CONTENT => "content"
  | LIST => "list"
  | INDEX => "index"
  | SEPARATOR => "separator"
  | UNKNOWN => "unknown"
  end.

Definition isCategorySupported (cat : LayoutCategory) : bool :=
  match cat with
  | EQUATION | INTERLINE_EQUATION => false
  | _ => true
  end.

Definition area (b : LayoutBox) : Q := (width b * height b)%Q.

Definition toRect (b : LayoutBox) : cv.Rect :=
  cv.mkRect (truncQ (x0 b)) (truncQ (y0 b))
            (truncQ (width b)) (truncQ (height b)).

(** [LayoutResult]; its [inferenceTimeMs] is a clock reading and is left
    out, as are the other timing fields of the result types. *)
Record LayoutResult : Type := mkLayoutResult { boxes : list LayoutBox }.

Definition getBoxesByCategory (r : LayoutResult) (cat : LayoutCategory)
  : list LayoutBox :=
  filter (fun b => categoryEq (category b) cat) (boxes r).

Definition getTextBoxes (r : LayoutResult) : list LayoutBox :=
  filter (fun b =>
            categoryEq (category b) TEXT ||
            categoryEq (category b) TITLE ||
            categoryEq (category b) CONTENT ||
            categoryEq (category b) LIST ||
            categoryEq (category b) CODE ||
            categoryEq (category b) ABSTRACT ||
            categoryEq (category b) REFERENCE ||
            categoryEq (category b) INDEX ||
            categoryEq (category b) HEADER ||
            categoryEq (category b) FOOTER)
         (boxes r).

Definition getTableBoxes (r : LayoutResult) : list LayoutBox :=
  getBoxesByCategory r TABLE.

Definition getSupportedBoxes (r : LayoutResult) : list LayoutBox :=
  filter (fun b => isCategorySupported (category b)) (boxes r).

Definition getUnsupportedBoxes (r : LayoutResult) : list LayoutBox :=
  filter (fun b => negb (isCategorySupported (category b))) (boxes r).

(** [static_cast<int>(coordinate / page * 1000)].  With a page extent of 0
    the quotient is not a finite number and its conversion to [int] is
    undefined: [Fault]. *)
Definition getNormalizedBBox (e : ContentElement.t)
           (pageWidth pageHeight : Z)
  : outcome ContentElement.NormalizedBBox.t :=
  if (pageWidth =? 0) || (pageHeight =? 0) then Fault
  else
    let b := ContentElement.layoutBox e in
    Done (ContentElement.NormalizedBBox.mk
            (truncQ (x0 b / inject_Z pageWidth * 1000))
            (truncQ (y0 b / inject_Z pageHeight * 1000))
            (truncQ (x1 b / inject_Z pageWidth * 1000))
            (truncQ (y1 b / inject_Z pageHeight * 1000))).

End Types.

(** ** Pipeline configuration: [config.h], [config.cpp] *)

Module Config.

Import String.StringSyntax.
Local Open Scope string_scope.

Record ModelPaths : Type := mkModelPaths {
  layoutDxnnModel : String.string;
  layoutOnnxSubModel : String.string;
  tableUnetDxnnModel : String.string;
  ocrModelDir : String.string;
  ocrDictPath : String.string
}.

Record PipelineStages : Type := mkPipelineStages {
  enablePdfRender : bool;
  enableLayout : bool;
  enableOcr : bool;
  enableWiredTable : bool;
  enableReadingOrder : bool;
  enableMarkdownOutput : bool;
  enableFormula : bool;
  enableWirelessTable : bool;
  enableTableClassify : bool
}.

Record RuntimeConfig : Type := mkRuntimeConfig {
  pdfDpi : Z;
  maxPages : Z;
  maxConcurrentPages : Z;
  layoutConfThreshold : Q;
  layoutInputSize : Z;
  tableConfThreshold : Q;
  outputDir : String.string;
  saveImages : bool;
  saveVisualization : bool
}.

Record PipelineConfig : Type := mkPipelineConfig {
  models : ModelPaths;
  stages : PipelineStages;
  runtime : RuntimeConfig
}.

(** The default member initializers. *)
Definition defaultStages : PipelineStages :=
  mkPipelineStages true true true true true true false false false.

Definition defaultRuntime : RuntimeConfig :=
  mkRuntimeConfig 200 0 4 (1 # 2) 800 (1 # 2) "./output" true false.

(** [PipelineConfig::Default] *)
Definition Default (projectRoot : String.string) : PipelineConfig :=
  let ocrModelDir :=
    String.append projectRoot
      "/3rd-party/DXNN-OCR-cpp/engine/model_files/server" in
  mkPipelineConfig
    (mkModelPaths
       (String.append projectRoot
          "/engine/model_files/layout/pp_doclayout_plus_l.dxnn")
       (String.append projectRoot
          "/engine/model_files/layout/pp_doclayout_plus_l_post.onnx")
       (String.append projectRoot "/engine/model_files/table/unet.dxnn")
       ocrModelDir
       (String.append ocrModelDir "/ppocrv5_dict.txt"))
    defaultStages defaultRuntime.

Section FileSystem.

(** [std::filesystem::exists] on the file system the call runs on. *)
Variable fs_exists : String.string -> bool.

(** [PipelineConfig::validate]: the first failing check returns. *)
Definition validate (cfg : PipelineConfig) : String.string :=
  if enableLayout (stages cfg)
     && negb (fs_exists (layoutDxnnModel (models cfg))) then
    String.append "Layout DXNN model not found: "
                  (layoutDxnnModel (models cfg))
  else if enableLayout (stages cfg)
          && negb (fs_exists (layoutOnnxSubModel (models cfg))) then
    String.append "Layout ONNX sub-model not found: "
                  (layoutOnnxSubModel (models cfg))
  else if enableWiredTable (stages cfg)
          && negb (fs_exists (tableUnetDxnnModel (models cfg))) then
    String.append "Table UNET model not found: "
                  (tableUnetDxnnModel (models cfg))
  else if enableOcr (stages cfg)
          && negb (fs_exists (ocrModelDir (models cfg))) then
    String.append "OCR model directory not found: "
                  (ocrModelDir (models cfg))
  else if enableOcr (stages cfg)
          && negb (fs_exists (ocrDictPath (models cfg))) then
    String.append "OCR dictionary not found: " (ocrDictPath (models cfg))
  else String.EmptyString.

End FileSystem.

End Config.

(** ** The page pipeline: [doc_pipeline.h], [doc_pipeline.cpp]

    The pipeline calls code that is not part of the embedding: OpenCV, the
    layout model, the PDF renderer, the OCR pipeline of DXNN-OCR-cpp and
    the output writers.  These are parameters of the section below, so
    that every statement holds whatever they return; they are taken to
    return (an exception thrown inside them is outside the model).  Log
    output, progress callbacks and clock readings are left out. *)

Module TableType.

Inductive t : Type := WIRED | WIRELESS | UNKNOWN.

End TableType.

Module TableCell.

Record t : Type := mk {
  row : Z; col : Z;
  rowSpan : Z; colSpan : Z;
  x0 : Q; y0 : Q; x1 : Q; y1 : Q;
  content : String.string
}.

End TableCell.

Module TableResult.

Record t : Type := mk {
  type : TableType.t;
  html : String.string;
  cells : list TableCell.t;
  supported : bool
}.

End TableResult.

(** [TableRecognizer] ([table_recognizer.cpp]): the state that
    [recognize] reads. *)
Module TableRecognizer.

Import String.StringSyntax.
Local Open Scope string_scope.

Record t : Type := mk { initialized_ : bool }.

Definition recognize {Mat : Type} (r : t) (tableImage : Mat)
  : TableResult.t :=
  if negb (initialized_ r) then
    TableResult.mk TableType.WIRED "" [] false
  else TableResult.mk TableType.WIRED "" [] true.

End TableRecognizer.

Module PageImage.

Record t (Mat : Type) : Type := mk {
  image : Mat;
  pageIndex : Z;
  dpi : Z;
  scaleFactor : Q;
  pdfWidth : Z;
  pdfHeight : Z
}.

Arguments mk {Mat}.
Arguments image {Mat}.
Arguments pageIndex {Mat}.
Arguments dpi {Mat}.
Arguments scaleFactor {Mat}.
Arguments pdfWidth {Mat}.
Arguments pdfHeight {Mat}.

End PageImage.

Module PageResult.

Record t : Type := mk {
  pageIndex : Z;
  layoutResult : Types.LayoutResult;
  elements : list ContentElement.t;
  tableResults : list TableResult.t
}.

End PageResult.

Module DocumentResult.

Record t : Type := mk {
  pages : list PageResult.t;
  markdown : String.string;
  contentListJson : String.string;
  totalPages : Z;
  processedPages : Z;
  skippedElements : Z
}.

Definition default : t :=
  mk [] String.EmptyString String.EmptyString 0 0 0.

End DocumentResult.

(** [DocPipeline]: a [std::unique_ptr] member is [true] (or [Some]) when
    it holds an object. *)
Module DocPipeline.

Record t : Type := mk {
  config_ : Config.PipelineConfig;
  initialized_ : bool;
  pdfRenderer_ : bool;
  layoutDetector_ : bool;
  tableRecognizer_ : option TableRecognizer.t;
  ocrPipeline_ : bool
}.

End DocPipeline.

Module Pipeline.

Import Types Config.
Import String.StringSyntax.
Local Open Scope string_scope.

(** [std::to_string] of an integer: decimal digits, with a minus sign
    for a negative number. *)
Definition to_string (z : Z) : String.string :=
  DecimalString.NilEmpty.string_of_int (Z.to_int z).

(** [std::string::empty] *)
Definition empty (s : String.string) : bool :=
  match s with
  | String.EmptyString => true
  | _ => false
  end.

(** [elements[idx].readingOrder = i] *)
Definition setReadingOrder (i : Z) (e : ContentElement.t)
  : ContentElement.t :=
  ContentElement.mk
    (ContentElement.type e) (ContentElement.text e)
    (ContentElement.imagePath e) (ContentElement.html e)
    (ContentElement.layoutBox e) (ContentElement.pageIndex e)
    i (ContentElement.confidence e) (ContentElement.skipped e).

(** [v[idx] = e] on a vector, for [idx] in range. *)
Fixpoint assign {A : Type} (v : list A) (idx : nat) (e : A) : list A :=
  match v, idx with
  | [], _ => []
  | _ :: v', O => e :: v'
  | a :: v', S idx' => a :: assign v' idx' e
  end.

(** The loop that rebuilds the elements from the sorted indices
    ([processPage], step 3): it writes the reading order into the element
    of the page result and appends a copy of it. *)
Fixpoint reorder (sortedIndices : list nat) (i : Z)
         (elements sortedElements : list ContentElement.t)
  : outcome (list ContentElement.t) :=
  match sortedIndices with
  | [] => Done sortedElements
  | idx :: rest =>
      match nth_error elements idx with
      | None => Fault
      | Some e =>
          let e' := setReadingOrder i e in
          reorder rest (i + 1) (assign elements idx e')
                  (sortedElements ++ [e'])
      end
  end.

(** The name of the file that [saveExtractedImages] writes figure [i] of
    a page to. *)
Definition figureFilename (pageIndex i : Z) : String.string :=
  String.append "page"
    (String.append (to_string pageIndex)
       (String.append "_fig" (String.append (to_string i) ".png"))).

(** The path of that file, under the output directory. *)
Definition figureFilepath (config : PipelineConfig)
           (filename : String.string) : String.string :=
  String.append (outputDir (runtime config)) (String.append "/" filename).

Definition handleUnsupportedElements (unsupportedBoxes : list LayoutBox)
  : list ContentElement.t :=
  map (fun box =>
         if categoryEq (category box) EQUATION
            || categoryEq (category box) INTERLINE_EQUATION then
           ContentElement.mk
             ContentElement.EQUATION
             "[Formula: DEEPX NPU does not support formula recognition]"
             "" "" box 0 0 0 true
         else
           ContentElement.mk
             ContentElement.UNKNOWN "[Unsupported element type]"
             "" "" box 0 0 0 true)
      unsupportedBoxes.

Section Externals.

(** [cv::Mat] with its [cols] and [rows]. *)
Variable Mat : Type.
Variables cols rows : Mat -> Z.

(** [cv::Rect::operator&] and [cv::Mat::operator()(cv::Rect)]. *)
Variable rectAnd : cv.Rect -> cv.Rect -> cv.Rect.
Variable crop : Mat -> cv.Rect -> Mat.

(** [LayoutDetector::detect] and [TableRecognizer::estimateTableType]. *)
Variable detect : Mat -> LayoutResult.
Variable estimateTableType : Mat -> TableType.t.

(** [OCRPipeline::initialize], [PdfRenderer::renderFile] and
    [PdfRenderer::renderFromMemory]. *)
Variable ocrInitialize : bool.
Variable renderFile : String.string -> list (PageImage.t Mat).
Variable renderFromMemory : list Z -> list (PageImage.t Mat).

(** [MarkdownWriter::generate] and [ContentListWriter::generate]. *)
Variable markdownGenerate : DocumentResult.t -> String.string.
Variable contentListGenerate : DocumentResult.t -> String.string.

(** [std::filesystem::exists] and [std::sort]. *)
Variable fs_exists : String.string -> bool.
Variable sort : (nat -> nat -> bool) -> list nat -> list nat.

(** [DocPipeline::DocPipeline] *)
Definition construct (config : PipelineConfig) : DocPipeline.t :=
  DocPipeline.mk config false false false None false.

(** [DocPipeline::initialize]: the pipeline after the call and the value
    returned.  [LayoutDetector::initialize] and
    [TableRecognizer::initialize] set their [initialized_] and return
    [true]. *)
Definition initialize (p : DocPipeline.t) : DocPipeline.t * bool :=
  let cfg := DocPipeline.config_ p in
  if negb (empty (validate fs_exists cfg)) then (p, false)
  else
    let pdf :=
      if enablePdfRender (stages cfg) then true
      else DocPipeline.pdfRenderer_ p in
    let layout :=
      if enableLayout (stages cfg) then true
      else DocPipeline.layoutDetector_ p in
    let table :=
      if enableWiredTable (stages cfg) then Some (TableRecognizer.mk true)
      else DocPipeline.tableRecognizer_ p in
    if enableOcr (stages cfg) then
      if negb ocrInitialize then
        (DocPipeline.mk cfg (DocPipeline.initialized_ p) pdf layout table
                        true,
         false)
      else (DocPipeline.mk cfg true pdf layout table true, true)
    else
      (DocPipeline.mk cfg true pdf layout table (DocPipeline.ocrPipeline_ p),
       true).

Definition runOcrOnRegions (image : Mat) (textBoxes : list LayoutBox)
  : list ContentElement.t :=
  map (fun box =>
         ContentElement.mk
           (if categoryEq (category box) TITLE then ContentElement.TITLE
            else ContentElement.TEXT)
           "[OCR placeholder — integration pending]"
           "" "" box 0 0 (confidence box) false)
      textBoxes.

Definition pageRect (image : Mat) : cv.Rect :=
  cv.mkRect 0 0 (cols image) (rows image).

Definition runTableRecognition (p : DocPipeline.t) (image : Mat)
           (tableBoxes : list LayoutBox) : list ContentElement.t :=
  map (fun box =>
         let roi := rectAnd (toRect box) (pageRect image) in
         let tableCrop := crop image roi in
         match estimateTableType tableCrop with
         | TableType.WIRELESS =>
             ContentElement.mk
               ContentElement.TABLE ""
               "" "<!-- Wireless table: NPU not supported -->" box 0 0 0
               true
         | _ =>
             match DocPipeline.tableRecognizer_ p with
             | Some recognizer =>
                 let tableResult :=
                   TableRecognizer.recognize recognizer tableCrop in
                 ContentElement.mk
                   ContentElement.TABLE ""
                   "" (TableResult.html tableResult) box 0 0 0
                   (negb (TableResult.supported tableResult))
             | None =>
                 ContentElement.mk ContentElement.TABLE "" "" "" box 0 0 0
                                   false
             end
         end)
      tableBoxes.

(** [saveExtractedImages]: the elements after the call and the files
    written by [cv::imwrite], oldest first. *)
Fixpoint saveLoop (p : DocPipeline.t) (image : Mat)
         (figureBoxes : list LayoutBox) (i : Z) (pageIndex : Z)
         (elements : list ContentElement.t)
         (written : list (String.string * Mat))
  : list ContentElement.t * list (String.string * Mat) :=
  match figureBoxes with
  | [] => (elements, written)
  | box :: rest =>
      let roi := rectAnd (toRect box) (pageRect image) in
      if (cv.width roi <=? 0) || (cv.height roi <=? 0) then
        saveLoop p image rest (i + 1) pageIndex elements written
      else
        let figureCrop := crop image roi in
        let filename := figureFilename pageIndex i in
        let filepath := figureFilepath (DocPipeline.config_ p) filename in
        saveLoop p image rest (i + 1) pageIndex
          (elements ++
           [ContentElement.mk ContentElement.IMAGE "" filename "" box
                              pageIndex 0 0 false])
          (written ++ [(filepath, figureCrop)])
  end.

Definition saveExtractedImages (p : DocPipeline.t) (image : Mat)
           (figureBoxes : list LayoutBox) (pageIndex : Z)
           (elements : list ContentElement.t)
  : list ContentElement.t * list (String.string * Mat) :=
  saveLoop p image figureBoxes 0 pageIndex elements [].

(** [processPage], step 1: layout detection. *)
Definition detectLayout (p : DocPipeline.t) (image : Mat) : LayoutResult :=
  if DocPipeline.layoutDetector_ p
     && enableLayout (stages (DocPipeline.config_ p)) then
    detect image
  else mkLayoutResult [].

(** [processPage], step 2: one stage per selection of boxes; the elements
    found and the image files written. *)
Definition processCategories (p : DocPipeline.t) (image : Mat)
           (pageIndex : Z) (layoutResult : LayoutResult)
  : list ContentElement.t * list (String.string * Mat) :=
  let cfg := DocPipeline.config_ p in
  let textBoxes := getTextBoxes layoutResult in
  let tableBoxes := getTableBoxes layoutResult in
  let figureBoxes := getBoxesByCategory layoutResult FIGURE in
  let unsupportedBoxes := getUnsupportedBoxes layoutResult in
  let elements1 :=
    if DocPipeline.ocrPipeline_ p && enableOcr (stages cfg) then
      runOcrOnRegions image textBoxes
    else [] in
  let elements2 :=
    match DocPipeline.tableRecognizer_ p with
    | Some _ =>
        if enableWiredTable (stages cfg) then
          elements1 ++ runTableRecognition p image tableBoxes
        else elements1
    | None => elements1
    end in
  let saved :=
    if saveImages (runtime cfg) then
      saveExtractedImages p image figureBoxes pageIndex elements2
    else (elements2, []) in
  (fst saved ++ handleUnsupportedElements unsupportedBoxes, snd saved).

(** [processPage], step 3: the reading-order sort of the elements. *)
Definition readingOrderSort (p : DocPipeline.t) (image : Mat)
           (elements : list ContentElement.t)
  : outcome (list ContentElement.t) :=
  if enableReadingOrder (stages (DocPipeline.config_ p))
     && negb (match elements with [] => true | _ => false end) then
    let sortBoxes := map ContentElement.layoutBox elements in
    sortedIndices <-
      XYCut.xycutPlusSort sort sortBoxes (cols image) (rows image)
                          defaultConfig ;;
    reorder sortedIndices 0 elements []
  else Done elements.

(** [processPage]: the page result and the image files written. *)
Definition processPage (p : DocPipeline.t) (pageImage : PageImage.t Mat)
  : outcome (PageResult.t * list (String.string * Mat)) :=
  let image := PageImage.image pageImage in
  let layoutResult := detectLayout p image in
  let found :=
    processCategories p image (PageImage.pageIndex pageImage)
                      layoutResult in
  elements <- readingOrderSort p image (fst found) ;;
  Done (PageResult.mk (PageImage.pageIndex pageImage) layoutResult
                      elements [],
        snd found).

(** [processImage] *)
Definition processImage (p : DocPipeline.t) (image : Mat) (pageIndex : Z)
  : outcome (PageResult.t * list (String.string * Mat)) :=
  processPage p
    (PageImage.mk image pageIndex (pdfDpi (runtime (DocPipeline.config_ p)))
                  1 (cols image) (rows image)).

(** The loop over the rendered pages of [processPdf] and
    [processPdfFromMemory]. *)
Fixpoint processPages (p : DocPipeline.t)
         (pageImages : list (PageImage.t Mat))
         (result : DocumentResult.t)
         (written : list (String.string * Mat))
  : outcome (DocumentResult.t * list (String.string * Mat)) :=
  match pageImages with
  | [] => Done (result, written)
  | pageImage :: rest =>
      pw <- processPage p pageImage ;;
      processPages p rest
        (DocumentResult.mk
           (DocumentResult.pages result ++ [fst pw])
           (DocumentResult.markdown result)
           (DocumentResult.contentListJson result)
           (DocumentResult.totalPages result)
           (DocumentResult.processedPages result + 1)
           (DocumentResult.skippedElements result))
        (written ++ snd pw)
  end.

(** The output step of both entry points. *)
Definition generateOutput (p : DocPipeline.t) (result : DocumentResult.t)
  : DocumentResult.t :=
  let result1 :=
    if enableMarkdownOutput (stages (DocPipeline.config_ p)) then
      DocumentResult.mk
        (DocumentResult.pages result) (markdownGenerate result)
        (DocumentResult.contentListJson result)
        (DocumentResult.totalPages result)
        (DocumentResult.processedPages result)
        (DocumentResult.skippedElements result)
    else result in
  DocumentResult.mk
    (DocumentResult.pages result1) (DocumentResult.markdown result1)
    (contentListGenerate result1)
    (DocumentResult.totalPages result1)
    (DocumentResult.processedPages result1)
    (DocumentResult.skippedElements result1).

(** [if (elem.skipped) result.skippedElements++] over every element of
    every page. *)
Definition countSkipped (pages : list PageResult.t) (count : Z) : Z :=
  fold_left
    (fun n page =>
       fold_left
         (fun m elem => if ContentElement.skipped elem then m + 1 else m)
         (PageResult.elements page) n)
    pages count.

Definition withTotalPages (n : Z) (result : DocumentResult.t)
  : DocumentResult.t :=
  DocumentResult.mk
    (DocumentResult.pages result) (DocumentResult.markdown result)
    (DocumentResult.contentListJson result) n
    (DocumentResult.processedPages result)
    (DocumentResult.skippedElements result).

(** [processPdf] *)
Definition processPdf (p : DocPipeline.t) (pdfPath : String.string)
  : outcome (DocumentResult.t * list (String.string * Mat)) :=
  let result := DocumentResult.default in
  if negb (DocPipeline.initialized_ p) then Done (result, [])
  else
    let pageImages :=
      if DocPipeline.pdfRenderer_ p then renderFile pdfPath else [] in
    let result := withTotalPages (Z.of_nat (length pageImages)) result in
    match pageImages with
    | [] => Done (result, [])
    | _ =>
        rw <- processPages p pageImages result [] ;;
        let result := generateOutput p (fst rw) in
        Done (DocumentResult.mk
                (DocumentResult.pages result)
                (DocumentResult.markdown result)
                (DocumentResult.contentListJson result)
                (DocumentResult.totalPages result)
                (DocumentResult.processedPages result)
                (countSkipped (DocumentResult.pages result)
                              (DocumentResult.skippedElements result)),
              snd rw)
    end.

(** [processPdfFromMemory] *)
Definition processPdfFromMemory (p : DocPipeline.t) (data : list Z)
  : outcome (DocumentResult.t * list (String.string * Mat)) :=
  let result := DocumentResult.default in
  if negb (DocPipeline.initialized_ p) then Done (result, [])
  else
    let pageImages :=
      if DocPipeline.pdfRenderer_ p then renderFromMemory data else [] in
    let result := withTotalPages (Z.of_nat (length pageImages)) result in
    rw <- processPages p pageImages result [] ;;
    Done (generateOutput p (fst rw), snd rw).

End Externals.

End Pipeline.

(** ** Base64 decoding: [server.cpp]

    [int] is 32 bits wide here and its arithmetic wraps around in two's
    complement (as C++20 defines the shift, and as the compilers of the
    project compute it); [>>] on a negative [int] is the arithmetic
    shift. *)

Module Server.

Import String.StringSyntax.
Local Open Scope string_scope.

Definition base64Chars : String.string :=
  "ABCDEFGHIJKLMNOPQRSTUVWXYZabcdefghijklmnopqrstuvwxyz0123456789+/".

(** The character ['='], by its code. *)
Definition padChar : Ascii.ascii := Ascii.ascii_of_nat 61.

(** [std::string::find(char)]: the position of the first occurrence,
    [None] for [npos]. *)
Fixpoint find (c : Ascii.ascii) (s : String.string) : option nat :=
  match s with
  | String.EmptyString => None
  | String.String a s' =>
      if Ascii.eqb a c then Some O else option_map S (find c s')
  end.

(** The value of an [int] expression after wrap-around. *)
Definition wrap (z : Z) : Z := (z + 2 ^ 31) mod 2 ^ 32 - 2 ^ 31.

Record DecodeState : Type := mkDecodeState {
  decoded : list Z;
  val : Z;
  bits : Z
}.

(** The loop of [base64Decode]: [break] at the first ['='], [continue] on
    a character outside the alphabet. *)
Fixpoint decodeLoop (encoded : String.string) (st : DecodeState)
  : DecodeState :=
  match encoded with
  | String.EmptyString => st
  | String.String c rest =>
      if Ascii.eqb c padChar then st
      else
        match find c base64Chars with
        | None => decodeLoop rest st
        | Some pos =>
            let val := wrap (wrap (Z.shiftl (val st) 6) + Z.of_nat pos) in
            let bits := bits st + 6 in
            if 0 <=? bits then
              decodeLoop rest
                (mkDecodeState
                   (decoded st ++ [Z.land (Z.shiftr val bits) 255])
                   val (bits - 8))
            else decodeLoop rest (mkDecodeState (decoded st) val bits)
        end
  end.

Definition base64Decode (encoded : String.string) : list Z :=
  decoded (decodeLoop encoded (mkDecodeState [] 0 (-8))).

End Server.

(** * Properties of the program *)

(** ** The scan of [splitProjectionProfile] *)

Module ProfileFacts.

Import Profile.

(** The segments still to be produced from a loop state: what the loop and
    the final flush append to [segments]. *)
Fixpoint emit (minValue minGap : Z) (vs : list Z) (i : Z)
         (inSeg : bool) (s g : Z) : list (Z * Z) :=
  match vs with
  | [] => if inSeg then [(s, i)] else []
  | v :: vs' =>
      if minValue <? v then
        emit minValue minGap vs' (i + 1) true (if inSeg then s else i) 0
      else if inSeg then
        if minGap <=? g + 1 then
          (s, i - (g + 1) + 1) :: emit minValue minGap vs' (i + 1) false s 0
        else emit minValue minGap vs' (i + 1) true s (g + 1)
      else emit minValue minGap vs' (i + 1) false s g
  end.

Lemma flush_loop_emit (minValue minGap : Z) (vs : list Z) :
  forall i st,
    flush (split_loop minValue minGap vs i st) (i + Z.of_nat (length vs)) =
    segments st ++
      emit minValue minGap vs i (inSegment st) (segStart st) (gapCount st).
Proof.
  induction vs as [|v vs IH]; intros i st.
  - cbn [split_loop length emit]. unfold flush.
    replace (i + Z.of_nat 0) with i by lia.
    destruct (inSegment st); [reflexivity|now rewrite app_nil_r].
  - cbn [split_loop length emit].
    replace (i + Z.of_nat (S (length vs))) with (i + 1 + Z.of_nat (length vs))
      by lia.
    rewrite IH. unfold split_step.
    destruct (minValue <? v); cbn.
    + reflexivity.
    + destruct (inSegment st) eqn:E; cbn; [|now rewrite E].
      destruct (minGap <=? gapCount st + 1); cbn; [|reflexivity].
      now rewrite <- app_assoc.
Qed.

Lemma split_emit (values : list Z) (minValue minGap : Z) :
  splitProjectionProfile values minValue minGap =
  emit minValue minGap values 0 false 0 0.
Proof.
  unfold splitProjectionProfile.
  exact (flush_loop_emit minValue minGap values 0 initState).
Qed.

(** *** The scan invariant

    The histogram is seen as a function [pix] of the absolute position; the
    values still to be scanned agree with it from position [i] on. *)

Section Scan.

Variables (minValue minGap : Z) (pix : Z -> Z).

Definition occ (k : Z) : Prop := minValue < pix k.

(** The gap width that closes a segment: [gapCount] is at least 1 when it is
    compared with [minGap], so a [minGap] below 1 acts as 1. *)
Definition gapWidth : Z := Z.max 1 minGap.

Definition agrees (vs : list Z) (i : Z) : Prop :=
  forall k : nat, (k < length vs)%nat -> nth k vs 0 = pix (i + Z.of_nat k).

(** While a segment is open, [gapCount] is the number of unoccupied pixels
    scanned since the last occupied one, and stays below the closing width. *)
Definition open_inv (i s g : Z) : Prop :=
  0 <= s /\ s <= i - g - 1 /\ 0 <= g < gapWidth /\ occ s /\ occ (i - g - 1) /\
  forall k, i - g <= k < i -> ~ occ k.

Definition state_inv (i : Z) (inSeg : bool) (s g : Z) : Prop :=
  0 <= i /\ (inSeg = true -> open_inv i s g).

(** What holds of a returned segment, [n] being the size of the histogram. *)
Definition good (n : Z) (seg : Z * Z) : Prop :=
  0 <= fst seg < snd seg /\ snd seg <= n /\ occ (fst seg) /\
  (snd seg = n \/
   (occ (snd seg - 1) /\
    forall k, snd seg <= k < snd seg + gapWidth -> k < n /\ ~ occ k)).

Definition before (a b : Z * Z) : Prop := snd a < fst b.

Lemma agrees_cons v vs i :
  agrees (v :: vs) i -> v = pix i /\ agrees vs (i + 1).
Proof.
  intros H. split.
  - specialize (H 0%nat). cbn in H. rewrite Z.add_0_r in H. apply H. lia.
  - intros k Hk. specialize (H (S k)). cbn [nth length] in H.
    rewrite H by lia. f_equal. lia.
Qed.

Lemma inv_occupied i inSeg s g :
  state_inv i inSeg s g -> occ i ->
  state_inv (i + 1) true (if inSeg then s else i) 0.
Proof.
  intros [Hi Hopen] Hocc. split; [lia|]. intros _.
  unfold open_inv, gapWidth in *.
  replace (i + 1 - 0 - 1) with i by lia.
  destruct inSeg.
  - destruct (Hopen eq_refl) as (H0 & H1 & H2 & H3 & _).
    repeat split; try lia; try assumption.
  - repeat split; try lia; try assumption.
Qed.

Lemma inv_continue i s g :
  state_inv i true s g -> ~ occ i -> g + 1 < minGap ->
  state_inv (i + 1) true s (g + 1).
Proof.
  intros [Hi Hopen] Hocc Hlt. split; [lia|]. intros _.
  destruct (Hopen eq_refl) as (H0 & H1 & H2 & H3 & H4 & H5).
  unfold open_inv, gapWidth in *.
  replace (i + 1 - (g + 1) - 1) with (i - g - 1) by lia.
  repeat split; try lia; try assumption.
  intros k Hk. destruct (Z.eq_dec k i) as [->|Hne]; [assumption|].
  apply H5. lia.
Qed.

Lemma inv_closed i inSeg s g s' g' :
  state_inv i inSeg s g -> state_inv (i + 1) false s' g'.
Proof. intros [Hi _]. split; [lia|discriminate]. Qed.

Lemma emit_lower vs :
  forall i inSeg s g,
    (inSeg = true -> s <= i) ->
    Forall (fun seg => (if inSeg then s else i) <= fst seg)
           (emit minValue minGap vs i inSeg s g).
Proof.
  induction vs as [|v vs IH]; intros i inSeg s g Hs; cbn [emit].
  - destruct inSeg; constructor; cbn; [lia|constructor].
  - destruct (minValue <? v).
    + specialize (IH (i + 1) true (if inSeg then s else i) 0).
      cbn in IH. apply IH. intros _.
      destruct inSeg; [specialize (Hs eq_refl)|]; lia.
    + destruct inSeg.
      * specialize (Hs eq_refl). destruct (minGap <=? g + 1).
        -- constructor; [cbn; lia|].
           eapply Forall_impl; [|apply (IH (i + 1) false s 0); discriminate].
           cbn. intros; lia.
        -- apply (IH (i + 1) true s (g + 1)). intros _; lia.
      * eapply Forall_impl; [|apply (IH (i + 1) false s g); discriminate].
        cbn. intros; lia.
Qed.

Lemma emit_good vs :
  forall i inSeg s g,
    agrees vs i -> state_inv i inSeg s g ->
    Forall (good (i + Z.of_nat (length vs)))
           (emit minValue minGap vs i inSeg s g).
Proof.
  induction vs as [|v vs IH]; intros i inSeg s g Hag Hinv; cbn [emit length].
  - rewrite Z.add_0_r. destruct inSeg; constructor; [|constructor].
    destruct Hinv as [Hi Hopen].
    destruct (Hopen eq_refl) as (H0 & H1 & H2 & H3 & _).
    unfold good; cbn. repeat split; try lia; try assumption.
  - replace (i + Z.of_nat (S (length vs))) with (i + 1 + Z.of_nat (length vs))
      by lia.
    destruct (agrees_cons _ _ _ Hag) as [Hv Hag'].
    destruct (minValue <? v) eqn:Ev.
    + apply IH; [assumption|]. eapply inv_occupied; [eassumption|].
      unfold occ. rewrite <- Hv. lia.
    + assert (Hno : ~ occ i) by (unfold occ; rewrite <- Hv; lia).
      destruct inSeg.
      * destruct (minGap <=? g + 1) eqn:Eg.
        -- constructor.
           ++ destruct Hinv as [Hi Hopen].
              destruct (Hopen eq_refl) as (H0 & H1 & H2 & H3 & H4 & H5).
              unfold good, gapWidth in *; cbn.
              replace (i - (g + 1) + 1 - 1) with (i - g - 1) by lia.
              repeat split; try lia; try assumption.
              right. split; [assumption|]. intros k Hk. split; [lia|].
              destruct (Z.eq_dec k i) as [->|Hne]; [assumption|].
              apply H5. lia.
           ++ apply IH; [assumption|]. eapply inv_closed; eassumption.
        -- apply IH; [assumption|]. apply inv_continue; [assumption..|lia].
      * apply IH; [assumption|]. eapply inv_closed; eassumption.
Qed.

Lemma emit_sorted vs :
  forall i inSeg s g,
    agrees vs i -> state_inv i inSeg s g ->
    StronglySorted before (emit minValue minGap vs i inSeg s g).
Proof.
  induction vs as [|v vs IH]; intros i inSeg s g Hag Hinv; cbn [emit].
  - destruct inSeg; repeat constructor.
  - destruct (agrees_cons _ _ _ Hag) as [Hv Hag'].
    destruct (minValue <? v) eqn:Ev.
    + apply IH; [assumption|]. eapply inv_occupied; [eassumption|].
      unfold occ. rewrite <- Hv. lia.
    + assert (Hno : ~ occ i) by (unfold occ; rewrite <- Hv; lia).
      destruct inSeg.
      * destruct (minGap <=? g + 1) eqn:Eg.
        -- constructor.
           ++ apply IH; [assumption|]. eapply inv_closed; eassumption.
           ++ destruct Hinv as [Hi Hopen].
              destruct (Hopen eq_refl) as (H0 & H1 & H2 & _).
              eapply Forall_impl;
                [|apply (emit_lower vs (i + 1) false s 0); discriminate].
              unfold before; cbn. intros; lia.
        -- apply IH; [assumption|]. apply inv_continue; [assumption..|lia].
      * apply IH; [assumption|]. eapply inv_closed; eassumption.
Qed.

(** The segment that is open at position [i] is returned, and it ends past
    the last occupied pixel scanned so far. *)
Lemma emit_open vs :
  forall i s g,
    0 <= g ->
    exists e, In (s, e) (emit minValue minGap vs i true s g) /\ i - g <= e.
Proof.
  induction vs as [|v vs IH]; intros i s g Hg; cbn [emit].
  - exists i. split; [now left|lia].
  - destruct (minValue <? v).
    + destruct (IH (i + 1) s 0) as (e & Hin & He); [lia|].
      exists e. split; [assumption|lia].
    + destruct (minGap <=? g + 1).
      * exists (i - (g + 1) + 1). split; [now left|lia].
      * destruct (IH (i + 1) s (g + 1)) as (e & Hin & He); [lia|].
        exists e. split; [assumption|lia].
Qed.

Lemma emit_cover vs :
  forall i inSeg s g,
    agrees vs i -> state_inv i inSeg s g ->
    forall k, i <= k < i + Z.of_nat (length vs) -> occ k ->
    exists seg, In seg (emit minValue minGap vs i inSeg s g) /\
                fst seg <= k < snd seg.
Proof.
  induction vs as [|v vs IH]; intros i inSeg s g Hag Hinv k Hk Hocc;
    cbn [emit length] in *; [lia|].
  destruct (agrees_cons _ _ _ Hag) as [Hv Hag'].
  destruct (Z.eq_dec k i) as [->|Hne].
  - assert (Ev : (minValue <? v) = true) by (unfold occ in Hocc; lia).
    rewrite Ev.
    destruct (emit_open vs (i + 1) (if inSeg then s else i) 0)
      as (e & Hin & He); [lia|].
    exists ((if inSeg then s else i), e). split; [assumption|]. cbn.
    destruct Hinv as [Hi Hopen]. destruct inSeg; [|lia].
    destruct (Hopen eq_refl) as (H0 & H1 & H2 & _). lia.
  - assert (Hk' : i + 1 <= k < i + 1 + Z.of_nat (length vs)) by lia.
    destruct (minValue <? v) eqn:Ev.
    + apply IH; try assumption. eapply inv_occupied; [eassumption|].
      unfold occ. rewrite <- Hv. lia.
    + assert (Hno : ~ occ i) by (unfold occ; rewrite <- Hv; lia).
      destruct inSeg.
      * destruct (minGap <=? g + 1) eqn:Eg.
        -- destruct (IH (i + 1) false s 0 Hag'
                        (inv_closed _ _ _ _ s 0 Hinv) k Hk' Hocc)
             as (seg & Hin & Hseg).
           exists seg. split; [now right|assumption].
        -- apply IH; try assumption.
           apply inv_continue; [assumption..|lia].
      * apply IH; try assumption. eapply inv_closed; eassumption.
Qed.

(** A stretch of pixels none of whose windows of the closing width is
    free of occupied pixels. *)
Definition dense (s e : Z) : Prop :=
  forall k, s <= k -> k + gapWidth <= e ->
    exists j, k <= j < k + gapWidth /\ occ j.

Lemma dense_occupied i s : occ i -> dense s i -> dense s (i + 1).
Proof.
  intros Hocc Hd k Hs Hk. unfold gapWidth in *.
  destruct (Z_le_gt_dec (k + Z.max 1 minGap) i) as [Hle|Hgt].
  - now apply Hd.
  - exists i. split; [lia|assumption].
Qed.

Lemma dense_start i : occ i -> dense i (i + 1).
Proof.
  intros Hocc k Hs Hk. unfold gapWidth in *.
  exists i. split; [lia|assumption].
Qed.

(** While a segment is open, the pixels scanned since its start are dense:
    a window free of occupied pixels would have closed it. *)
Lemma emit_dense vs :
  forall i inSeg s g,
    agrees vs i -> state_inv i inSeg s g -> (inSeg = true -> dense s i) ->
    Forall (fun seg => dense (fst seg) (snd seg))
           (emit minValue minGap vs i inSeg s g).
Proof.
  induction vs as [|v vs IH]; intros i inSeg s g Hag Hinv Hd; cbn [emit].
  - destruct inSeg; constructor; [|constructor]. cbn. now apply Hd.
  - destruct (agrees_cons _ _ _ Hag) as [Hv Hag'].
    destruct (minValue <? v) eqn:Ev.
    + assert (Hocc : occ i) by (unfold occ; rewrite <- Hv; lia).
      apply IH; [assumption| |].
      * eapply inv_occupied; eassumption.
      * intros _. destruct inSeg.
        -- apply dense_occupied; auto.
        -- now apply dense_start.
    + assert (Hno : ~ occ i) by (unfold occ; rewrite <- Hv; lia).
      destruct inSeg.
      * specialize (Hd eq_refl).
        destruct Hinv as [Hi Hopen].
        destruct (Hopen eq_refl) as (H0 & H1 & H2 & H3 & H4 & H5).
        destruct (minGap <=? g + 1) eqn:Eg.
        -- constructor.
           ++ cbn. intros k Hs Hk. apply Hd; [assumption|lia].
           ++ apply IH; [assumption| |discriminate].
              split; [lia|discriminate].
        -- apply IH; [assumption| |].
           ++ apply inv_continue; [split; assumption|assumption|lia].
           ++ intros _ k Hs Hk. unfold gapWidth in *.
              destruct (Z_le_gt_dec (k + Z.max 1 minGap) i) as [Hle|Hgt].
              ** now apply Hd.
              ** exists (i - g - 1). split; [lia|assumption].
      * apply IH; [assumption| |discriminate].
        eapply inv_closed; eassumption.
Qed.

End Scan.

Lemma sorted_pairwise (l : list (Z * Z)) :
  StronglySorted before l ->
  forall a b, In a l -> In b l -> a = b \/ before a b \/ before b a.
Proof.
  induction 1 as [|x l Hs IH Hall]; intros a b Ha Hb; [contradiction|].
  rewrite Forall_forall in Hall.
  destruct Ha as [<-|Ha], Hb as [<-|Hb]; auto.
Qed.

Lemma sorted_nth (l : list (Z * Z)) :
  StronglySorted before l ->
  forall (i j : nat) d, (i < j < length l)%nat ->
    before (nth i l d) (nth j l d).
Proof.
  induction 1 as [|x l Hs IH Hall]; intros i j d Hij; cbn in Hij; [lia|].
  rewrite Forall_forall in Hall.
  destruct j as [|j]; [lia|]. destruct i as [|i]; cbn [nth].
  - apply Hall, nth_In. lia.
  - apply IH. lia.
Qed.

(** The histogram read at an absolute position. *)
Definition pixel (values : list Z) (k : Z) : Z := nth (Z.to_nat k) values 0.

Definition occupied (values : list Z) (minValue k : Z) : Prop :=
  minValue < pixel values k.

Lemma agrees_pixel (values : list Z) : agrees (pixel values) values 0.
Proof. intros k _. unfold pixel. cbn. now rewrite Nat2Z.id. Qed.

Lemma init_inv minValue minGap pix : state_inv minValue minGap pix 0 false 0 0.
Proof. split; [lia|discriminate]. Qed.

Lemma split_good (values : list Z) (minValue minGap : Z) :
  Forall (good minValue minGap (pixel values) (Z.of_nat (length values)))
         (splitProjectionProfile values minValue minGap).
Proof.
  rewrite split_emit.
  apply (emit_good minValue minGap (pixel values) values 0 false 0 0).
  - apply agrees_pixel.
  - apply init_inv.
Qed.

Lemma split_sorted (values : list Z) (minValue minGap : Z) :
  StronglySorted before (splitProjectionProfile values minValue minGap).
Proof.
  rewrite split_emit.
  apply (emit_sorted minValue minGap (pixel values) values 0 false 0 0).
  - apply agrees_pixel.
  - apply init_inv.
Qed.

Lemma split_dense (values : list Z) (minValue minGap : Z) :
  Forall (fun seg => dense minValue minGap (pixel values) (fst seg) (snd seg))
         (splitProjectionProfile values minValue minGap).
Proof.
  rewrite split_emit.
  apply (emit_dense minValue minGap (pixel values) values 0 false 0 0).
  - apply agrees_pixel.
  - apply init_inv.
  - discriminate.
Qed.

Lemma split_cover (values : list Z) (minValue minGap k : Z) :
  0 <= k < Z.of_nat (length values) -> occupied values minValue k ->
  exists seg, In seg (splitProjectionProfile values minValue minGap) /\
              fst seg <= k < snd seg.
Proof.
  intros Hk Hocc. rewrite split_emit.
  apply (emit_cover minValue minGap (pixel values) values 0 false 0 0);
    auto using agrees_pixel, init_inv.
Qed.

(** *** Counting segments: a wider closing gap never yields more of them *)

Lemma emit_count_mono (minValue g1 g2 : Z) (vs : list Z) :
  g1 <= g2 ->
  forall i1 i2 in1 in2 s1 s2 c1 c2,
    ((in1 = in2 /\ (in1 = true -> c1 = c2)) ->
     (length (emit minValue g2 vs i2 in2 s2 c2) <=
      length (emit minValue g1 vs i1 in1 s1 c1))%nat) /\
    ((in1 = false /\ in2 = true) ->
     (length (emit minValue g2 vs i2 in2 s2 c2) <=
      S (length (emit minValue g1 vs i1 in1 s1 c1)))%nat).
Proof.
  intros Hg. induction vs as [|v vs IH]; intros i1 i2 in1 in2 s1 s2 c1 c2.
  - cbn. split.
    + intros [-> _]. destruct in2; cbn; lia.
    + intros [-> ->]. cbn. lia.
  - cbn [emit]. split.
    + intros [-> Hc]. destruct (minValue <? v).
      * apply IH. split; [reflexivity|reflexivity].
      * destruct in2.
        -- rewrite <- (Hc eq_refl).
           destruct (g2 <=? c1 + 1) eqn:E2.
           ++ assert (E1 : (g1 <=? c1 + 1) = true)
                by (apply Z.leb_le; apply Z.leb_le in E2; lia).
              rewrite E1.
              cbn [length]. apply le_n_S. apply IH. split; [reflexivity|].
              discriminate.
           ++ destruct (g1 <=? c1 + 1) eqn:E1.
              ** cbn [length]. apply IH. split; reflexivity.
              ** apply IH. split; reflexivity.
        -- apply IH. split; [reflexivity|discriminate].
    + intros [-> ->]. destruct (minValue <? v).
      * etransitivity; [|apply Nat.le_succ_diag_r].
        apply IH. split; reflexivity.
      * destruct (g2 <=? c2 + 1).
        -- cbn [length]. apply le_n_S. apply IH. split; [reflexivity|].
           discriminate.
        -- apply IH. split; reflexivity.
Qed.


(** *** Empty pixels before and after a histogram

    With a non-negative [minValue] a pixel of value 0 is unoccupied.  Empty
    pixels in front of a histogram shift its segments; empty pixels behind
    it can only change where the last segment ends. *)

Definition shift (d : Z) (seg : Z * Z) : Z * Z := (fst seg + d, snd seg + d).

Section Padding.

Variables (minValue minGap : Z).
Hypothesis minValue_nonneg : 0 <= minValue.

Lemma zero_unoccupied : (minValue <? 0) = false.
Proof. apply Z.ltb_ge. exact minValue_nonneg. Qed.

Lemma emit_zeros_closed (n : nat) :
  forall i s g, emit minValue minGap (repeat 0 n) i false s g = [].
Proof.
  induction n as [|n IH]; intros i s g; cbn [repeat emit]; [reflexivity|].
  rewrite zero_unoccupied. apply IH.
Qed.

Lemma emit_zeros_open (n : nat) :
  forall i s g,
    exists e, emit minValue minGap (repeat 0 n) i true s g = [(s, e)] /\
              (e = i - g \/ e = i + Z.of_nat n).
Proof.
  induction n as [|n IH]; intros i s g; cbn [repeat emit].
  - exists i. split; [reflexivity|]. right. lia.
  - rewrite zero_unoccupied. destruct (minGap <=? g + 1).
    + exists (i - (g + 1) + 1). rewrite emit_zeros_closed.
      split; [reflexivity|]. left. lia.
    + destruct (IH (i + 1) s (g + 1)) as (e & He & Hcases).
      exists e. split; [exact He|]. lia.
Qed.

Lemma emit_leading_zeros (n : nat) (q : list Z) :
  forall i s g,
    emit minValue minGap (repeat 0 n ++ q) i false s g =
    emit minValue minGap q (i + Z.of_nat n) false s g.
Proof.
  induction n as [|n IH]; intros i s g; cbn [repeat app emit].
  - now rewrite Z.add_0_r.
  - rewrite zero_unoccupied, IH. f_equal. lia.
Qed.

Lemma emit_shift (d : Z) (q : list Z) :
  forall i inSeg s s' g,
    (inSeg = true -> s' = s + d) ->
    emit minValue minGap q (i + d) inSeg s' g =
    map (shift d) (emit minValue minGap q i inSeg s g).
Proof.
  induction q as [|v q IH]; intros i inSeg s s' g Hs; cbn [emit].
  - destruct inSeg; [|reflexivity]. rewrite (Hs eq_refl). reflexivity.
  - replace (i + d + 1) with (i + 1 + d) by lia.
    destruct (minValue <? v).
    + apply IH. intros _. destruct inSeg; [now apply Hs|reflexivity].
    + destruct inSeg.
      * rewrite (Hs eq_refl). destruct (minGap <=? g + 1).
        -- cbn [map]. f_equal.
           ++ unfold shift. cbn. f_equal. lia.
           ++ apply IH. discriminate.
        -- apply IH. reflexivity.
      * apply IH. discriminate.
Qed.

Lemma split_leading_zeros (n : nat) (q : list Z) :
  splitProjectionProfile (repeat 0 n ++ q) minValue minGap =
  map (shift (Z.of_nat n)) (splitProjectionProfile q minValue minGap).
Proof.
  rewrite !split_emit, emit_leading_zeros.
  apply emit_shift. discriminate.
Qed.

Variable pix : Z -> Z.

(** A segment of the padded histogram beside the segment of the histogram
    itself: the same start, and the same end unless the latter was flushed
    at the end [n], in which case both ends lie past the last occupied
    pixel. *)
Definition same_but_flush (n : Z) (a c : Z * Z) : Prop :=
  fst a = fst c /\
  (snd a = snd c \/
   (snd c = n /\
    exists l, l <= snd a /\ l <= n /\
              forall k, l <= k < n -> ~ occ minValue pix k)).

Lemma emit_trailing_zeros (n : nat) (q : list Z) :
  forall i inSeg s g,
    agrees pix q i -> state_inv minValue minGap pix i inSeg s g ->
    Forall2 (same_but_flush (i + Z.of_nat (length q)))
            (emit minValue minGap (q ++ repeat 0 n) i inSeg s g)
            (emit minValue minGap q i inSeg s g).
Proof.
  induction q as [|v q IH]; intros i inSeg s g Hag Hinv;
    cbn [app emit length].
  - rewrite Z.add_0_r. destruct inSeg.
    + destruct (emit_zeros_open n i s g) as (e & -> & He).
      constructor; [|constructor]. split; [reflexivity|]. right.
      split; [reflexivity|]. cbn [fst snd].
      destruct Hinv as [Hi Hopen].
      destruct (Hopen eq_refl) as (H0 & H1 & H2 & H3 & H4 & H5).
      exists (i - g). repeat split; try lia. exact H5.
    + rewrite emit_zeros_closed. constructor.
  - replace (i + Z.of_nat (S (length q))) with (i + 1 + Z.of_nat (length q))
      by lia.
    destruct (agrees_cons _ _ _ _ Hag) as [Hv Hag'].
    destruct (minValue <? v) eqn:Ev.
    + apply IH; [assumption|]. eapply inv_occupied; [eassumption|].
      unfold occ. rewrite <- Hv. lia.
    + assert (Hno : ~ occ minValue pix i) by (unfold occ; rewrite <- Hv; lia).
      destruct inSeg.
      * destruct (minGap <=? g + 1) eqn:Eg.
        -- constructor.
           ++ split; [reflexivity|now left].
           ++ apply IH; [assumption|]. eapply inv_closed; eassumption.
        -- apply IH; [assumption|]. apply inv_continue; [assumption..|lia].
      * apply IH; [assumption|]. eapply inv_closed; eassumption.
Qed.

End Padding.

Lemma split_trailing_zeros (minValue minGap : Z) (n : nat) (q : list Z) :
  0 <= minValue ->
  Forall2 (same_but_flush minValue (pixel q) (Z.of_nat (length q)))
          (splitProjectionProfile (q ++ repeat 0 n) minValue minGap)
          (splitProjectionProfile q minValue minGap).
Proof.
  intros Hmin. rewrite !split_emit.
  apply (emit_trailing_zeros minValue minGap Hmin (pixel q) n q 0 false 0 0).
  - apply agrees_pixel.
  - apply init_inv.
Qed.

End ProfileFacts.

(** ** Floats as rationals *)

(** *** Truncation toward zero *)

Lemma truncQ_nonneg (q : Q) : (0 <= q)%Q -> truncQ q = Qfloor q.
Proof.
  destruct q as [n d]. unfold Qle, truncQ, Qfloor. cbn. intros H.
  apply Z.quot_div_nonneg; lia.
Qed.

Lemma truncQ_nonpos (q : Q) : (q <= 0)%Q -> truncQ q = Qceiling q.
Proof.
  destruct q as [n d]. unfold Qle, truncQ, Qceiling, Qfloor. cbn. intros H.
  replace n with (- - n) at 1 by lia.
  rewrite Z.quot_opp_l by lia. f_equal.
  apply Z.quot_div_nonneg; lia.
Qed.

Lemma truncQ_floor_le (q : Q) : Qfloor q <= truncQ q.
Proof.
  destruct (Qlt_le_dec q 0) as [H|H].
  - rewrite truncQ_nonpos by now apply Qlt_le_weak.
    rewrite Zle_Qle. apply Qle_floor_ceiling.
  - rewrite truncQ_nonneg by assumption. lia.
Qed.

Lemma truncQ_le_ceiling (q : Q) : truncQ q <= Qceiling q.
Proof.
  destruct (Qlt_le_dec q 0) as [H|H].
  - rewrite truncQ_nonpos by now apply Qlt_le_weak. lia.
  - rewrite truncQ_nonneg by assumption.
    rewrite Zle_Qle. apply Qle_floor_ceiling.
Qed.

Lemma truncQ_mono (p q : Q) : (p <= q)%Q -> truncQ p <= truncQ q.
Proof.
  intros H.
  destruct (Qlt_le_dec p 0) as [Hp|Hp], (Qlt_le_dec q 0) as [Hq|Hq].
  - rewrite !truncQ_nonpos by now apply Qlt_le_weak.
    now apply Qceiling_resp_le.
  - rewrite (truncQ_nonpos p) by now apply Qlt_le_weak.
    rewrite (truncQ_nonneg q) by assumption.
    transitivity 0.
    + change 0 with (Qceiling 0). apply Qceiling_resp_le. now apply Qlt_le_weak.
    + change 0 with (Qfloor 0). now apply Qfloor_resp_le.
  - exfalso. lra.
  - rewrite !truncQ_nonneg by assumption. now apply Qfloor_resp_le.
Qed.

(** A positive truncation bounds the number from below. *)
Lemma truncQ_pos_le (q : Q) : 0 < truncQ q -> (inject_Z (truncQ q) <= q)%Q.
Proof.
  intros H. destruct (Qlt_le_dec q 0) as [Hq|Hq].
  - exfalso. pose proof (truncQ_mono q 0 (Qlt_le_weak _ _ Hq)) as H0.
    change (truncQ 0) with 0 in H0. lia.
  - rewrite truncQ_nonneg by assumption. apply Qfloor_le.
Qed.

Lemma truncQ_lt_succ (q : Q) : (q < inject_Z (truncQ q + 1))%Q.
Proof.
  eapply Qlt_le_trans; [apply Qlt_floor|].
  rewrite <- Zle_Qle. pose proof (truncQ_floor_le q). lia.
Qed.

(** *** Binary32 rounding *)

Module Float32Facts.

Import Float32.

Lemma pow2_pos (e : Z) : (0 < pow2 e)%Q.
Proof. apply Qpower_0_lt. reflexivity. Qed.

Lemma pow2_add (a b : Z) : (pow2 (a + b) == pow2 a * pow2 b)%Q.
Proof. apply Qpower_plus. discriminate. Qed.

Lemma pow2_lt (a b : Z) : a < b -> (pow2 a < pow2 b)%Q.
Proof. intros H. apply Qpower_lt_compat_l; [assumption|reflexivity]. Qed.

Lemma pow2_le (a b : Z) : a <= b -> (pow2 a <= pow2 b)%Q.
Proof. intros H. apply Qpower_le_compat_l; [assumption|discriminate]. Qed.

Lemma pow2_lt_inv (a b : Z) : (pow2 a < pow2 b)%Q -> a < b.
Proof. intros H. apply (Qpower_lt_compat_l_inv 2); [assumption|reflexivity]. Qed.

Lemma pow2_inject (e : Z) : 0 <= e -> (pow2 e == inject_Z (2 ^ e))%Q.
Proof. intros H. symmetry. apply (Zpower_Qpower 2 e H). Qed.

Lemma pow2_opp (e : Z) : (pow2 (- e) == / pow2 e)%Q.
Proof. apply Qpower_opp. Qed.

(** [ilog2 q] is the exponent of the binade of [q]. *)
Lemma ilog2_spec (q : Q) :
  (0 < q)%Q -> (pow2 (ilog2 q) <= q /\ q < pow2 (ilog2 q + 1))%Q.
Proof.
  intros Hq. unfold ilog2. destruct (Qle_bool 1 q) eqn:E.
  - apply Qle_bool_iff in E.
    assert (Hf : 0 < Qfloor q).
    { apply (Qfloor_resp_le 1 q) in E. change (Qfloor 1) with 1 in E. lia. }
    destruct (Z.log2_spec _ Hf) as [H1 H2].
    pose proof (Z.log2_nonneg (Qfloor q)) as Hn.
    split.
    + rewrite pow2_inject by assumption.
      eapply Qle_trans; [|apply Qfloor_le]. now rewrite <- Zle_Qle.
    + rewrite pow2_inject by lia.
      eapply Qlt_le_trans; [apply Qlt_floor|]. rewrite <- Zle_Qle.
      unfold Z.succ in H2. apply Z.le_succ_l in H2. exact H2.
  - assert (Hlt : (q < 1)%Q).
    { apply Qnot_le_lt. intros H. apply Qle_bool_iff in H. congruence. }
    assert (Hinv : (1 < / q)%Q).
    { apply Qlt_shift_inv_l; [assumption|]. now rewrite Qmult_1_l. }
    assert (Hc : 1 < Qceiling (/ q)).
    { pose proof (Qle_ceiling (/ q)) as Hc.
      assert (H : (inject_Z 1 < inject_Z (Qceiling (/ q)))%Q)
        by (eapply Qlt_le_trans; eassumption).
      now rewrite <- Zlt_Qlt in H. }
    destruct (Z.log2_up_spec _ Hc) as [H1 H2].
    pose proof (Z.log2_up_pos _ Hc) as Hu.
    set (u := Z.log2_up (Qceiling (/ q))) in *.
    assert (Hpos : (0 < / q)%Q) by now apply Qinv_lt_0_compat.
    split.
    + rewrite pow2_opp. apply Qle_shift_inv_r; [apply pow2_pos|].
      rewrite pow2_inject by lia.
      assert (Hle : (/ q <= inject_Z (2 ^ u))%Q).
      { eapply Qle_trans; [apply Qle_ceiling|]. now rewrite <- Zle_Qle. }
      apply (Qmult_le_l _ _ (/ q)); [assumption|].
      rewrite Qmult_1_r, Qmult_assoc, (Qmult_comm (/ q)), Qmult_inv_r,
              Qmult_1_l; [assumption|].
      intros H0. rewrite H0 in Hq. discriminate.
    + replace (- u + 1) with (- (u - 1)) by lia.
      rewrite pow2_opp. apply Qlt_shift_inv_l; [apply pow2_pos|].
      rewrite pow2_inject by lia.
      assert (Hgt : (inject_Z (2 ^ (u - 1)) < / q)%Q).
      { eapply Qle_lt_trans; [|apply Qceiling_lt]. rewrite <- Zle_Qle.
        rewrite <- Z.sub_1_r in H1. lia. }
      apply (Qmult_lt_l _ _ (/ q)); [assumption|].
      rewrite Qmult_1_r, Qmult_assoc, (Qmult_comm (/ q)), Qmult_inv_r,
              Qmult_1_l; [assumption|].
      intros H0. rewrite H0 in Hq. discriminate.
Qed.

Lemma ilog2_upper (q : Q) (k : Z) :
  (0 < q)%Q -> (q < pow2 (k + 1))%Q -> ilog2 q <= k.
Proof.
  intros Hq Hlt. destruct (ilog2_spec q Hq) as [H1 _].
  assert (H : (pow2 (ilog2 q) < pow2 (k + 1))%Q)
    by (eapply Qle_lt_trans; eassumption).
  apply pow2_lt_inv in H. lia.
Qed.

Lemma ilog2_lower (q : Q) (k : Z) :
  (0 < q)%Q -> (pow2 k <= q)%Q -> k <= ilog2 q.
Proof.
  intros Hq Hle. destruct (ilog2_spec q Hq) as [_ H2].
  assert (H : (pow2 k < pow2 (ilog2 q + 1))%Q)
    by (eapply Qle_lt_trans; eassumption).
  apply pow2_lt_inv in H. lia.
Qed.

Lemma nearest_even_comp (t t' : Q) :
  (t == t')%Q -> nearest_even t = nearest_even t'.
Proof.
  intros E. unfold nearest_even. cbv zeta.
  rewrite (Qfloor_comp _ _ E).
  assert (Ec : (t - inject_Z (Qfloor t') ?= 1 # 2)%Q =
               (t' - inject_Z (Qfloor t') ?= 1 # 2)%Q)
    by now rewrite E.
  now rewrite Ec.
Qed.

Lemma nearest_even_floor (t : Q) :
  Qfloor t <= nearest_even t <= Qfloor t + 1.
Proof.
  unfold nearest_even. cbv zeta.
  destruct (t - inject_Z (Qfloor t) ?= 1 # 2)%Q; [|lia..].
  destruct (Z.even (Qfloor t)); lia.
Qed.

Lemma nearest_even_ge (t : Q) (N : Z) :
  (inject_Z N <= t)%Q -> N <= nearest_even t.
Proof.
  intros H. apply Qfloor_resp_le in H. rewrite Qfloor_Z in H.
  pose proof (nearest_even_floor t). lia.
Qed.

Lemma nearest_even_int (N : Z) : nearest_even (inject_Z N) = N.
Proof.
  unfold nearest_even. cbv zeta. rewrite Qfloor_Z.
  assert (E : (inject_Z N - inject_Z N ?= 1 # 2)%Q = Lt).
  { apply Qlt_alt.
    assert (H0 : (inject_Z N - inject_Z N == 0)%Q) by ring.
    rewrite H0. reflexivity. }
  now rewrite E.
Qed.

Lemma nearest_even_le (t : Q) (N : Z) :
  (t <= inject_Z N)%Q -> nearest_even t <= N.
Proof.
  intros H. pose proof (nearest_even_floor t) as Hb.
  destruct (Z_lt_le_dec (Qfloor t) N) as [Hlt|Hge]; [lia|].
  assert (E : (t == inject_Z N)%Q).
  { apply Qle_antisym; [assumption|].
    eapply Qle_trans; [|apply Qfloor_le]. now rewrite <- Zle_Qle. }
  rewrite (nearest_even_comp _ _ E), nearest_even_int. lia.
Qed.

Lemma ulp_exp_comp (q q' : Q) : (q == q')%Q -> ulp_exp q = ulp_exp q'.
Proof.
  intros E. unfold ulp_exp, ilog2.
  assert (Ea : (Qabs q == Qabs q')%Q) by now rewrite E.
  assert (E1 : Qle_bool 1 (Qabs q) = Qle_bool 1 (Qabs q')) by now rewrite Ea.
  rewrite E1, (Qfloor_comp _ _ Ea).
  assert (Ei : (/ Qabs q == / Qabs q')%Q) by now rewrite Ea.
  now rewrite (Qceiling_comp _ _ Ei).
Qed.

(** Equal rationals round to the same fraction. *)
Lemma round_comp (q q' : Q) : (q == q')%Q -> round q = round q'.
Proof.
  intros E. unfold round. cbv zeta.
  assert (E0 : Qeq_bool q 0 = Qeq_bool q' 0) by now rewrite E.
  assert (E1 : Qle_bool 0 q = Qle_bool 0 q') by now rewrite E.
  rewrite E0, E1, (ulp_exp_comp _ _ E).
  assert (Et : (q / pow2 (ulp_exp q') == q' / pow2 (ulp_exp q'))%Q)
    by now rewrite E.
  now rewrite (nearest_even_comp _ _ Et).
Qed.

(** The multiple of the unit in the last place that is nearest to [q]:
    what [round] returns unless it overflows. *)
Definition rounded (q : Q) : Q :=
  (inject_Z (nearest_even (q / pow2 (ulp_exp q))) * pow2 (ulp_exp q))%Q.

Lemma round_unfold (q : Q) :
  ~ (q == 0)%Q ->
  round q =
  if Qle_bool infinity (Qabs (rounded q))
  then (if Qle_bool 0 q then infinity else - infinity)%Q
  else Qred (rounded q).
Proof.
  intros Hq. unfold round. cbv zeta.
  destruct (Qeq_bool q 0) eqn:E; [|reflexivity].
  apply Qeq_bool_eq in E. contradiction.
Qed.

Lemma round_zero (q : Q) : (q == 0)%Q -> round q = 0%Q.
Proof.
  intros Hq. unfold round. now rewrite (Qeq_eq_bool _ _ Hq).
Qed.

(** A multiple of [2^k] is a multiple of every smaller power of two. *)
Lemma grid_refine (M k e : Z) :
  e <= k ->
  (inject_Z M * pow2 k == inject_Z (M * 2 ^ (k - e)) * pow2 e)%Q.
Proof.
  intros H. replace k with ((k - e) + e) at 1 by lia.
  rewrite pow2_add, pow2_inject by lia. rewrite inject_Z_mult. ring.
Qed.

Lemma rounded_le_grid (q : Q) (k M : Z) :
  ulp_exp q <= k -> (q <= inject_Z M * pow2 k)%Q ->
  (rounded q <= inject_Z M * pow2 k)%Q.
Proof.
  intros Hk Hq. rewrite (grid_refine M k _ Hk) in *. unfold rounded.
  apply Qmult_le_compat_r; [|apply Qlt_le_weak, pow2_pos].
  rewrite <- Zle_Qle. apply nearest_even_le.
  apply Qle_shift_div_r; [apply pow2_pos|assumption].
Qed.

Lemma rounded_ge_grid (q : Q) (k M : Z) :
  ulp_exp q <= k -> (inject_Z M * pow2 k <= q)%Q ->
  (inject_Z M * pow2 k <= rounded q)%Q.
Proof.
  intros Hk Hq. rewrite (grid_refine M k _ Hk) in *. unfold rounded.
  apply Qmult_le_compat_r; [|apply Qlt_le_weak, pow2_pos].
  rewrite <- Zle_Qle. apply nearest_even_ge.
  apply Qle_shift_div_l; [apply pow2_pos|assumption].
Qed.

Lemma ulp_exp_le (q : Q) (k : Z) :
  ~ (q == 0)%Q -> -149 <= k -> (Qabs q < pow2 (k + 24))%Q -> ulp_exp q <= k.
Proof.
  intros Hq Hk Hlt. unfold ulp_exp. apply Z.max_lub; [assumption|].
  assert (Hpos : (0 < Qabs q)%Q).
  { destruct (Qlt_le_dec 0 (Qabs q)) as [|Hle]; [assumption|exfalso].
    apply Hq. apply Qabs_Qle_condition in Hle.
    apply Qle_antisym; [apply Hle|]. destruct Hle as [Hle _].
    now rewrite <- (Qopp_involutive 0). }
  pose proof (ilog2_upper (Qabs q) (k + 23) Hpos) as H.
  replace (k + 23 + 1) with (k + 24) in H by lia.
  specialize (H Hlt). lia.
Qed.

Lemma Qabs_inject (M : Z) : Qabs (inject_Z M) = inject_Z (Z.abs M).
Proof. reflexivity. Qed.

Lemma Qabs_grid (M k : Z) :
  (Qabs (inject_Z M * pow2 k) == inject_Z (Z.abs M) * pow2 k)%Q.
Proof.
  rewrite Qabs_Qmult, Qabs_inject.
  now rewrite (Qabs_pos (pow2 k)) by apply Qlt_le_weak, pow2_pos.
Qed.

(** Binary32 numbers round to themselves: an integer of fewer than 25 bits
    times a power of two in the exponent range. *)
Lemma round_exact (M k : Z) :
  -149 <= k <= 104 -> Z.abs M < 2 ^ 24 ->
  (round (inject_Z M * pow2 k) == inject_Z M * pow2 k)%Q.
Proof.
  intros Hk HM. set (q := (inject_Z M * pow2 k)%Q).
  assert (Habs : (Qabs q < pow2 (k + 24))%Q).
  { unfold q. rewrite Qabs_grid, (Z.add_comm k 24), pow2_add.
    apply Qmult_lt_compat_r; [apply pow2_pos|].
    rewrite (pow2_inject 24) by lia. now rewrite <- Zlt_Qlt. }
  destruct (Qeq_dec q 0) as [H0|H0].
  - rewrite (round_zero _ H0). now symmetry.
  - assert (He : ulp_exp q <= k) by (apply ulp_exp_le; [assumption|lia|assumption]).
    assert (Hr : (rounded q == q)%Q).
    { apply Qle_antisym.
      - apply rounded_le_grid; [assumption|apply Qle_refl].
      - apply rounded_ge_grid; [assumption|apply Qle_refl]. }
    rewrite (round_unfold _ H0).
    destruct (Qle_bool infinity (Qabs (rounded q))) eqn:Eo.
    + exfalso. apply Qle_bool_iff in Eo. rewrite Hr in Eo.
      assert (Hle : (pow2 (k + 24) <= infinity)%Q) by (apply pow2_le; lia).
      lra.
    + now rewrite Qred_correct.
Qed.

Lemma round_inject (n : Z) :
  Z.abs n < 2 ^ 24 -> (round (inject_Z n) == inject_Z n)%Q.
Proof.
  intros Hn.
  assert (E : (inject_Z n == inject_Z n * pow2 0)%Q)
    by (change (pow2 0) with 1%Q; ring).
  rewrite (round_comp _ _ E).
  rewrite round_exact; [now symmetry|lia|assumption].
Qed.

Lemma half_le_infinity : (1 # 2 <= infinity)%Q.
Proof. apply Qle_bool_iff. vm_compute. reflexivity. Qed.

(** Rounding does not cross one half from above... *)
Lemma round_ge_half (x : Q) :
  (1 # 2 <= x)%Q -> (x <= 1)%Q -> (1 # 2 <= round x)%Q.
Proof.
  intros Hlo Hhi.
  assert (H0 : ~ (x == 0)%Q) by (intros E; lra).
  assert (He : ulp_exp x <= -1).
  { apply ulp_exp_le; [assumption|lia|].
    rewrite Qabs_pos by lra.
    eapply Qle_lt_trans; [exact Hhi|]. reflexivity. }
  assert (Hr : (1 # 2 <= rounded x)%Q).
  { assert (E : (1 # 2 == inject_Z 1 * pow2 (-1))%Q) by reflexivity.
    rewrite E. apply rounded_ge_grid; [assumption|now rewrite <- E]. }
  rewrite (round_unfold _ H0).
  destruct (Qle_bool infinity (Qabs (rounded x))).
  - assert (Ex : Qle_bool 0 x = true) by (apply Qle_bool_iff; lra).
    rewrite Ex. apply half_le_infinity.
  - now rewrite Qred_correct.
Qed.

(** ... nor from the binary32 number just below it. *)
Lemma round_lt_half (x : Q) :
  (0 <= x)%Q -> (x <= 16777215 # 33554432)%Q -> (round x < 1 # 2)%Q.
Proof.
  intros Hlo Hhi. destruct (Qeq_dec x 0) as [H0|H0].
  - now rewrite (round_zero _ H0).
  - assert (He : ulp_exp x <= -25).
    { apply ulp_exp_le; [assumption|lia|].
      rewrite Qabs_pos by assumption.
      eapply Qle_lt_trans; [exact Hhi|]. reflexivity. }
    assert (E : (16777215 # 33554432 == inject_Z 16777215 * pow2 (-25))%Q)
      by reflexivity.
    assert (Hr : (rounded x <= 16777215 # 33554432)%Q).
    { rewrite E. apply rounded_le_grid; [assumption|now rewrite <- E]. }
    assert (Hp : (0 <= rounded x)%Q).
    { assert (E0 : (0 == inject_Z 0 * pow2 (-25))%Q) by reflexivity.
      rewrite E0. apply rounded_ge_grid; [assumption|now rewrite <- E0]. }
    rewrite (round_unfold _ H0).
    destruct (Qle_bool infinity (Qabs (rounded x))) eqn:Eo.
    + exfalso. apply Qle_bool_iff in Eo. rewrite Qabs_pos in Eo by assumption.
      pose proof half_le_infinity.
      assert (Hi : (1 <= infinity)%Q)
        by (apply Qle_bool_iff; vm_compute; reflexivity).
      lra.
    + rewrite Qred_correct. lra.
Qed.

(** [static_cast<float>(hc) / tc]: both counts are converted to binary32
    and the quotient is rounded. *)
Definition ratio32 (hc tc : Z) : Q :=
  round (round (inject_Z hc) / round (inject_Z tc)).

(** With fewer than [2^24] votes the rounded ratio is at least one half
    exactly when at least half of the votes are for it. *)
Lemma ratio32_majority (hc tc : Z) :
  0 <= hc <= tc -> 0 < tc < 2 ^ 24 ->
  ((1 # 2 <= ratio32 hc tc)%Q <-> tc <= 2 * hc).
Proof.
  intros Hhc Htc. unfold ratio32.
  assert (E : (round (inject_Z hc) / round (inject_Z tc) ==
               inject_Z hc / inject_Z tc)%Q).
  { rewrite !round_inject by lia. reflexivity. }
  rewrite (round_comp _ _ E).
  assert (Ht : (0 < inject_Z tc)%Q)
    by (change 0%Q with (inject_Z 0); rewrite <- Zlt_Qlt; lia).
  assert (Hh : (0 <= inject_Z hc)%Q)
    by (change 0%Q with (inject_Z 0); rewrite <- Zle_Qle; lia).
  assert (Hht : (inject_Z hc <= inject_Z tc)%Q) by (rewrite <- Zle_Qle; lia).
  assert (Htb : (inject_Z tc <= 16777216)%Q).
  { change 16777216%Q with (inject_Z 16777216). rewrite <- Zle_Qle.
    change (2 ^ 24) with 16777216 in Htc. lia. }
  split.
  - intros Hr. destruct (Z_le_gt_dec tc (2 * hc)) as [|Hgt]; [assumption|].
    exfalso.
    assert (Hs : (2 * inject_Z hc + 1 <= inject_Z tc)%Q).
    { change 2%Q with (inject_Z 2). change 1%Q with (inject_Z 1).
      rewrite <- inject_Z_mult, <- inject_Z_plus, <- Zle_Qle. lia. }
    assert (Hx : (inject_Z hc / inject_Z tc <= 16777215 # 33554432)%Q).
    { apply Qle_shift_div_r; [assumption|]. lra. }
    assert (Hx0 : (0 <= inject_Z hc / inject_Z tc)%Q).
    { apply Qle_shift_div_l; [assumption|]. lra. }
    pose proof (round_lt_half _ Hx0 Hx). lra.
  - intros Hm.
    assert (Hs : (inject_Z tc <= 2 * inject_Z hc)%Q).
    { change 2%Q with (inject_Z 2).
      rewrite <- inject_Z_mult, <- Zle_Qle. lia. }
    apply round_ge_half.
    + apply Qle_shift_div_l; [assumption|]. lra.
    + apply Qle_shift_div_r; [assumption|]. lra.
Qed.


(** *** Rounding is monotone on the positive numbers and keeps the sign *)

Lemma nearest_even_mono (t t' : Q) :
  (t <= t')%Q -> nearest_even t <= nearest_even t'.
Proof.
  intros H. pose proof (Qfloor_resp_le _ _ H) as Hf.
  pose proof (nearest_even_floor t) as Hb.
  pose proof (nearest_even_floor t') as Hb'.
  destruct (Z.eq_dec (Qfloor t) (Qfloor t')) as [E|E]; [|lia].
  unfold nearest_even. cbv zeta. rewrite <- E.
  destruct (Qcompare_spec (t - inject_Z (Qfloor t)) (1 # 2)) as [H1|H1|H1];
    destruct (Qcompare_spec (t' - inject_Z (Qfloor t)) (1 # 2))
      as [H2|H2|H2];
    try lia; try (destruct (Z.even (Qfloor t)); lia);
    exfalso; lra.
Qed.

Lemma ilog2_mono (x y : Q) :
  (0 < x)%Q -> (x <= y)%Q -> ilog2 x <= ilog2 y.
Proof.
  intros Hx Hxy.
  assert (Hy : (0 < y)%Q) by (eapply Qlt_le_trans; eassumption).
  apply ilog2_upper; [assumption|].
  destruct (ilog2_spec y Hy) as [_ H]. eapply Qle_lt_trans; eassumption.
Qed.

Lemma ulp_exp_pos (x : Q) :
  (0 < x)%Q -> ulp_exp x = Z.max (-149) (ilog2 x - 23).
Proof.
  intros Hx. unfold ulp_exp, ilog2.
  assert (Ea : (Qabs x == x)%Q) by (apply Qabs_pos; now apply Qlt_le_weak).
  assert (E1 : Qle_bool 1 (Qabs x) = Qle_bool 1 x) by now rewrite Ea.
  assert (Ei : (/ Qabs x == / x)%Q) by now rewrite Ea.
  now rewrite E1, (Qfloor_comp _ _ Ea), (Qceiling_comp _ _ Ei).
Qed.

Lemma rounded_mono (x y : Q) :
  (0 < x)%Q -> (x <= y)%Q -> (rounded x <= rounded y)%Q.
Proof.
  intros Hx Hxy.
  assert (Hy : (0 < y)%Q) by (eapply Qlt_le_trans; eassumption).
  pose proof (ilog2_mono x y Hx Hxy) as Hl.
  pose proof (ulp_exp_pos x Hx) as Ex. pose proof (ulp_exp_pos y Hy) as Ey.
  destruct (Z.eq_dec (ulp_exp x) (ulp_exp y)) as [E|E].
  - unfold rounded. rewrite E.
    apply Qmult_le_compat_r; [|apply Qlt_le_weak, pow2_pos].
    rewrite <- Zle_Qle. apply nearest_even_mono.
    apply Qmult_le_compat_r; [assumption|].
    apply Qlt_le_weak, Qinv_lt_0_compat, pow2_pos.
  - set (k := ilog2 y).
    assert (Hk : ulp_exp x <= k /\ ulp_exp y <= k /\ ilog2 x + 1 <= k)
      by (unfold k; lia).
    destruct Hk as (Hkx & Hky & Hkl).
    assert (E1 : (pow2 k == inject_Z 1 * pow2 k)%Q) by ring.
    assert (Hlo : (x <= pow2 k)%Q).
    { destruct (ilog2_spec x Hx) as [_ H].
      apply Qlt_le_weak. eapply Qlt_le_trans; [exact H|].
      now apply pow2_le. }
    assert (Hhi : (pow2 k <= y)%Q) by apply (ilog2_spec y Hy).
    apply Qle_trans with (pow2 k).
    + rewrite E1. apply rounded_le_grid; [assumption|now rewrite <- E1].
    + rewrite E1. apply rounded_ge_grid; [assumption|now rewrite <- E1].
Qed.

Lemma rounded_nonneg (x : Q) : (0 <= x)%Q -> (0 <= rounded x)%Q.
Proof.
  intros Hx.
  assert (E0 : (0 == inject_Z 0 * pow2 (ulp_exp x))%Q) by ring.
  rewrite E0. apply rounded_ge_grid; [lia|now rewrite <- E0].
Qed.

Lemma rounded_nonpos (x : Q) : (x <= 0)%Q -> (rounded x <= 0)%Q.
Proof.
  intros Hx.
  assert (E0 : (0 == inject_Z 0 * pow2 (ulp_exp x))%Q) by ring.
  rewrite E0. apply rounded_le_grid; [lia|now rewrite <- E0].
Qed.

Lemma infinity_pos : (0 < infinity)%Q.
Proof. apply pow2_pos. Qed.

Lemma round_nonneg (x : Q) : (0 <= x)%Q -> (0 <= round x)%Q.
Proof.
  intros Hx. destruct (Qeq_dec x 0) as [H0|H0].
  - rewrite (round_zero _ H0). apply Qle_refl.
  - rewrite (round_unfold _ H0).
    assert (Ex : Qle_bool 0 x = true) by now apply Qle_bool_iff.
    rewrite Ex. destruct (Qle_bool infinity (Qabs (rounded x))).
    + apply Qlt_le_weak, infinity_pos.
    + rewrite Qred_correct. now apply rounded_nonneg.
Qed.

Lemma round_nonpos (x : Q) : (x <= 0)%Q -> (round x <= 0)%Q.
Proof.
  intros Hx. destruct (Qeq_dec x 0) as [H0|H0].
  - rewrite (round_zero _ H0). apply Qle_refl.
  - rewrite (round_unfold _ H0).
    assert (Ex : Qle_bool 0 x = false).
    { apply not_true_iff_false. rewrite Qle_bool_iff. intros H.
      apply H0. now apply Qle_antisym. }
    rewrite Ex. destruct (Qle_bool infinity (Qabs (rounded x))).
    + pose proof infinity_pos. lra.
    + rewrite Qred_correct. now apply rounded_nonpos.
Qed.

Lemma round_mono (x y : Q) :
  (0 < x)%Q -> (x <= y)%Q -> (round x <= round y)%Q.
Proof.
  intros Hx Hxy.
  assert (Hy : (0 < y)%Q) by (eapply Qlt_le_trans; eassumption).
  assert (H0x : ~ (x == 0)%Q) by (intros E; rewrite E in Hx; discriminate).
  assert (H0y : ~ (y == 0)%Q) by (intros E; rewrite E in Hy; discriminate).
  pose proof (rounded_mono x y Hx Hxy) as Hr.
  pose proof (rounded_nonneg x (Qlt_le_weak _ _ Hx)) as Hpx.
  pose proof (rounded_nonneg y (Qlt_le_weak _ _ Hy)) as Hpy.
  rewrite (round_unfold _ H0x), (round_unfold _ H0y).
  assert (Ex : Qle_bool 0 x = true) by (apply Qle_bool_iff; lra).
  assert (Ey : Qle_bool 0 y = true) by (apply Qle_bool_iff; lra).
  rewrite Ex, Ey, (Qabs_pos _ Hpx), (Qabs_pos _ Hpy).
  destruct (Qle_bool infinity (rounded x)) eqn:Ox,
           (Qle_bool infinity (rounded y)) eqn:Oy.
  - apply Qle_refl.
  - exfalso. apply Qle_bool_iff in Ox.
    apply not_true_iff_false in Oy. apply Oy, Qle_bool_iff. lra.
  - rewrite Qred_correct. apply Qlt_le_weak, Qnot_le_lt.
    intros H. apply Qle_bool_iff in H. congruence.
  - now rewrite !Qred_correct.
Qed.

End Float32Facts.

(** ** The cuts *)

Module XYCutFacts.

Import Profile ProfileFacts XYCut.

(** *** The projection histogram counts covering boxes *)

(** Pixel [i] is in the clipped pixel span that the code computes for the
    box: the pixels that [project_box] increments. *)
Definition covers (axis size : Z) (box : LayoutBox) (i : Z) : bool :=
  (fst (span axis size box) <=? i) && (i <? snd (span axis size box)).

Definition coverage (axis size : Z) (boxes : list LayoutBox) (i : Z) : Z :=
  Z.of_nat (length (filter (fun b => covers axis size b i) boxes)).

Lemma incr_at_length (i : nat) (p : list Z) : length (incr_at i p) = length p.
Proof.
  revert i. induction p as [|v p IH]; intros [|i]; cbn; auto.
Qed.

Lemma nth_incr_at (p : list Z) :
  forall i k : nat, (i < length p)%nat ->
    nth k (incr_at i p) 0 = nth k p 0 + (if (k =? i)%nat then 1 else 0).
Proof.
  induction p as [|v p IH]; intros i k Hi; cbn in Hi; [lia|].
  destruct i as [|i], k as [|k]; cbn [incr_at nth Nat.eqb]; try lia.
  apply IH. lia.
Qed.

Lemma incr_loop_spec (n : nat) :
  forall (i : Z) (p : list Z),
    0 <= i -> i + Z.of_nat n <= Z.of_nat (length p) ->
    exists p', incr_loop n i p = Done p' /\ length p' = length p /\
      forall k : nat,
        nth k p' 0 =
        nth k p 0 +
        (if (i <=? Z.of_nat k) && (Z.of_nat k <? i + Z.of_nat n)
         then 1 else 0).
Proof.
  induction n as [|n IH]; intros i p Hi Hn.
  - exists p. cbn [incr_loop]. repeat split. intros k.
    destruct (i <=? Z.of_nat k) eqn:E1, (Z.of_nat k <? i + Z.of_nat 0) eqn:E2;
      cbn; zbool; lia.
  - cbn [incr_loop]. unfold vector_incr.
    assert (E : (0 <=? i) && (i <? Z.of_nat (length p)) = true).
    { apply andb_true_intro. split; [apply Z.leb_le|apply Z.ltb_lt]; lia. }
    rewrite E. cbn [bind].
    destruct (IH (i + 1) (incr_at (Z.to_nat i) p)) as (p' & Hrun & Hlen & Hnth).
    + lia.
    + rewrite incr_at_length. lia.
    + exists p'. split; [exact Hrun|]. split.
      * now rewrite Hlen, incr_at_length.
      * intros k. rewrite Hnth, nth_incr_at by lia.
        destruct (Nat.eqb_spec k (Z.to_nat i)) as [->|Hne].
        -- rewrite Z2Nat.id by lia.
           destruct (i + 1 <=? i) eqn:E1, (i <=? i) eqn:E2,
                    (i <? i + 1 + Z.of_nat n) eqn:E3,
                    (i <? i + Z.of_nat (S n)) eqn:E4; cbn; zbool; lia.
        -- assert (Z.of_nat k <> i) by lia.
           destruct (i + 1 <=? Z.of_nat k) eqn:E1, (i <=? Z.of_nat k) eqn:E2,
                    (Z.of_nat k <? i + 1 + Z.of_nat n) eqn:E3,
                    (Z.of_nat k <? i + Z.of_nat (S n)) eqn:E4; cbn; zbool; lia.
Qed.

Lemma span_clipped (axis size : Z) (box : LayoutBox) :
  0 <= fst (span axis size box) /\ snd (span axis size box) <= size.
Proof. unfold span. destruct (axis =? 0); cbn; lia. Qed.

Lemma project_box_spec (axis size : Z) (box : LayoutBox) (p : list Z) :
  Z.of_nat (length p) = size ->
  exists p', project_box axis size box p = Done p' /\ length p' = length p /\
    forall k : nat,
      nth k p' 0 =
      nth k p 0 + (if covers axis size box (Z.of_nat k) then 1 else 0).
Proof.
  intros Hlen. unfold project_box, covers.
  pose proof (span_clipped axis size box) as [Hlo Hhi].
  destruct (span axis size box) as [s e]. cbn [fst snd] in *.
  destruct (Z_le_gt_dec e s) as [Hes|Hes].
  - replace (Z.to_nat (e - s)) with 0%nat by lia. exists p. cbn [incr_loop].
    repeat split. intros k.
    destruct (s <=? Z.of_nat k) eqn:E1, (Z.of_nat k <? e) eqn:E2;
      cbn; zbool; lia.
  - destruct (incr_loop_spec (Z.to_nat (e - s)) s p)
      as (p' & Hrun & Hl & Hnth); [lia|lia|].
    exists p'. split; [exact Hrun|]. split; [exact Hl|].
    intros k. rewrite Hnth.
    destruct (s <=? Z.of_nat k) eqn:E1, (Z.of_nat k <? e) eqn:E2,
             (Z.of_nat k <? s + Z.of_nat (Z.to_nat (e - s))) eqn:E3;
      cbn; zbool; lia.
Qed.

Lemma project_loop_spec (axis size : Z) (boxes : list LayoutBox) :
  forall p : list Z,
    Z.of_nat (length p) = size ->
    exists p', for_each boxes (project_box axis size) p = Done p' /\
      length p' = length p /\
      forall k : nat,
        nth k p' 0 = nth k p 0 + coverage axis size boxes (Z.of_nat k).
Proof.
  induction boxes as [|b boxes IH]; intros p Hlen.
  - exists p. cbn. repeat split. intros k. unfold coverage. cbn. lia.
  - cbn [for_each].
    destruct (project_box_spec axis size b p Hlen) as (p1 & Hrun1 & Hl1 & Hn1).
    rewrite Hrun1. cbn [bind].
    destruct (IH p1) as (p2 & Hrun2 & Hl2 & Hn2); [lia|].
    exists p2. split; [exact Hrun2|]. split; [lia|].
    intros k. rewrite Hn2, Hn1. unfold coverage. cbn [filter].
    destruct (covers axis size b (Z.of_nat k)); cbn [length]; lia.
Qed.

Lemma nth_repeat_zero (n k : nat) : nth k (repeat 0 n) 0 = 0.
Proof.
  revert k. induction n as [|n IH]; intros [|k]; cbn; auto.
Qed.

Lemma projection_spec (boxes : list LayoutBox) (axis size : Z) :
  0 <= size ->
  exists proj, projectionByBboxes boxes axis size = Done proj /\
    length proj = Z.to_nat size /\
    forall i, 0 <= i < size ->
      nth (Z.to_nat i) proj 0 = coverage axis size boxes i.
Proof.
  intros Hsize. unfold projectionByBboxes.
  destruct (size <? 0) eqn:E; [zbool; lia|].
  destruct (project_loop_spec axis size boxes (repeat 0 (Z.to_nat size)))
    as (proj & Hrun & Hlen & Hnth).
  - rewrite repeat_length. lia.
  - exists proj. split; [exact Hrun|]. split.
    + now rewrite Hlen, repeat_length.
    + intros i Hi. rewrite Hnth, nth_repeat_zero, Z2Nat.id by lia. lia.
Qed.


(** *** Direction detection is a vote on the box dimensions *)

(** The width and the height of a box as the code holds them, in binary32
    variables. *)
Definition width32 (b : LayoutBox) : Q := Float32.round (width b).
Definition height32 (b : LayoutBox) : Q := Float32.round (height b).

(** A box that takes part in the vote, and a box that votes "wide". *)
Definition considered (b : LayoutBox) : bool :=
  Qltb 0 (width32 b) && Qltb 0 (height32 b).

Definition wide (b : LayoutBox) : bool :=
  Qle_bool (Float32.round (height32 b * (3 # 2))) (width32 b).

Definition consideredCount (boxes : list LayoutBox) : nat :=
  length (filter considered boxes).

Definition wideCount (boxes : list LayoutBox) : nat :=
  length (filter (fun b => considered b && wide b) boxes).

(** The dimensions of a box, as the code holds them. *)
Definition dims (b : LayoutBox) : Q * Q := (width32 b, height32 b).

Definition vote_step (c : Z * Z) (box : LayoutBox) : Z * Z :=
  let w := Float32.round (width box) in
  let h := Float32.round (height box) in
  if Qltb 0 w && Qltb 0 h then
    ((if Qle_bool (Float32.round (h * (3 # 2))) w then fst c + 1 else fst c),
     snd c + 1)
  else c.

Lemma vote_counts (boxes : list LayoutBox) :
  forall c : Z * Z,
    fold_left vote_step boxes c =
    (fst c + Z.of_nat (wideCount boxes),
     snd c + Z.of_nat (consideredCount boxes)).
Proof.
  unfold wideCount, consideredCount.
  induction boxes as [|b boxes IH]; intros [hc tc].
  - cbn. f_equal; lia.
  - cbn [fold_left filter]. rewrite IH.
    unfold vote_step, considered, wide, width32, height32.
    destruct (Qltb 0 (Float32.round (width b)) &&
              Qltb 0 (Float32.round (height b))); cbn [andb fst snd].
    + destruct (Qle_bool
                  (Float32.round (Float32.round (height b) * (3 # 2)))
                  (Float32.round (width b)));
        cbn [length fst snd]; f_equal; lia.
    + reflexivity.
Qed.

Lemma detect_unfold (boxes : list LayoutBox) :
  detectTextDirection boxes =
  match boxes with
  | [] => HORIZONTAL
  | _ =>
      if Z.of_nat (consideredCount boxes) =? 0 then HORIZONTAL
      else if Qle_bool (1 # 2)
                (Float32Facts.ratio32 (Z.of_nat (wideCount boxes))
                                      (Z.of_nat (consideredCount boxes)))
           then HORIZONTAL else VERTICAL
  end.
Proof.
  destruct boxes as [|b boxes]; [reflexivity|].
  unfold detectTextDirection. fold vote_step.
  rewrite vote_counts. reflexivity.
Qed.

Definition considered_dims (d : Q * Q) : bool :=
  Qltb 0 (fst d) && Qltb 0 (snd d).

Definition wide_dims (d : Q * Q) : bool :=
  Qle_bool (Float32.round (snd d * (3 # 2))) (fst d).

Lemma considered_by_dims (b : LayoutBox) :
  considered b = considered_dims (dims b).
Proof. reflexivity. Qed.

Lemma wide_by_dims (b : LayoutBox) : wide b = wide_dims (dims b).
Proof. reflexivity. Qed.

Lemma filter_length_perm {A : Type} (f : A -> bool) (l l' : list A) :
  Permutation l l' -> length (filter f l) = length (filter f l').
Proof.
  induction 1 as [|x l l' _ IH|x y l|l l' l'' _ IH1 _ IH2]; cbn.
  - reflexivity.
  - destruct (f x); cbn; now rewrite IH.
  - destruct (f x), (f y); reflexivity.
  - now rewrite IH1.
Qed.

Lemma filter_length_map {A B : Type} (g : A -> B) (f : B -> bool)
      (l : list A) :
  length (filter (fun a => f (g a)) l) = length (filter f (map g l)).
Proof.
  induction l as [|a l IH]; cbn; [reflexivity|].
  destruct (f (g a)); cbn; now rewrite IH.
Qed.

Lemma counts_by_dims (boxes boxes' : list LayoutBox) :
  Permutation (map dims boxes) (map dims boxes') ->
  consideredCount boxes = consideredCount boxes' /\
  wideCount boxes = wideCount boxes'.
Proof.
  intros Hperm. unfold consideredCount, wideCount. split.
  - rewrite (filter_ext considered (fun b => considered_dims (dims b))
                        considered_by_dims boxes).
    rewrite (filter_ext considered (fun b => considered_dims (dims b))
                        considered_by_dims boxes').
    rewrite !(filter_length_map dims considered_dims).
    now apply filter_length_perm.
  - pose (f := fun d => considered_dims d && wide_dims d).
    assert (E : forall b, considered b && wide b = f (dims b)).
    { intros b. unfold f. now rewrite considered_by_dims, wide_by_dims. }
    rewrite (filter_ext _ (fun b => f (dims b)) E boxes).
    rewrite (filter_ext _ (fun b => f (dims b)) E boxes').
    rewrite !(filter_length_map dims f).
    now apply filter_length_perm.
Qed.


Lemma considered_iff (b : LayoutBox) :
  considered b = true <-> (0 < width32 b /\ 0 < height32 b)%Q.
Proof.
  unfold considered, Qltb. rewrite andb_true_iff, !negb_true_iff.
  rewrite <- !not_true_iff_false, !Qle_bool_iff.
  split; intros [H1 H2]; split;
    first [now apply Qnot_le_lt | now apply Qlt_not_le].
Qed.

Lemma wide_iff (b : LayoutBox) :
  wide b = true <->
  (Float32.round (height32 b * (3 # 2)) <= width32 b)%Q.
Proof. unfold wide. apply Qle_bool_iff. Qed.

Lemma consideredCount_zero (boxes : list LayoutBox) :
  consideredCount boxes = 0%nat <->
  forall b, In b boxes -> ~ (0 < width32 b /\ 0 < height32 b)%Q.
Proof.
  unfold consideredCount. induction boxes as [|b boxes IH]; cbn [filter].
  - split; [intros _ b []|reflexivity].
  - destruct (considered b) eqn:E; cbn [length].
    + split; [discriminate|]. intros H. exfalso.
      apply (H b); [now left|]. now apply considered_iff.
    + rewrite IH. split.
      * intros H b' [<-|Hin]; [|now apply H].
        rewrite <- considered_iff. congruence.
      * intros H b' Hin. apply H. now right.
Qed.

Lemma wideCount_le (boxes : list LayoutBox) :
  (wideCount boxes <= consideredCount boxes)%nat.
Proof.
  unfold wideCount, consideredCount.
  induction boxes as [|b boxes IH]; cbn [filter]; [lia|].
  destruct (considered b), (wide b); cbn [andb length]; lia.
Qed.

(** Integer dimensions of fewer than 25 bits (fewer than 23 for the height)
    are held exactly, and so is one and a half times the height: for such
    boxes the vote is the comparison of the exact dimensions. *)
Lemma dims_exact (b : LayoutBox) (w h : Z) :
  (width b == inject_Z w)%Q -> (height b == inject_Z h)%Q ->
  Z.abs w < 2 ^ 24 -> 3 * Z.abs h < 2 ^ 24 ->
  (width32 b == inject_Z w /\ height32 b == inject_Z h /\
   Float32.round (height32 b * (3 # 2)) == inject_Z h * (3 # 2))%Q.
Proof.
  intros Ew Eh Hw Hh.
  assert (E1 : (width32 b == inject_Z w)%Q).
  { unfold width32. rewrite (Float32Facts.round_comp _ _ Ew).
    now apply Float32Facts.round_inject. }
  assert (E2 : (height32 b == inject_Z h)%Q).
  { unfold height32. rewrite (Float32Facts.round_comp _ _ Eh).
    apply Float32Facts.round_inject. lia. }
  split; [exact E1|]. split; [exact E2|].
  assert (E3 : (height32 b * (3 # 2) ==
                inject_Z (3 * h) * Float32.pow2 (-1))%Q).
  { rewrite E2, inject_Z_mult. change (Float32.pow2 (-1)) with (1 # 2)%Q.
    change (inject_Z 3) with 3%Q. field. }
  rewrite (Float32Facts.round_comp _ _ E3).
  rewrite Float32Facts.round_exact by lia.
  rewrite inject_Z_mult. change (Float32.pow2 (-1)) with (1 # 2)%Q.
  change (inject_Z 3) with 3%Q. field.
Qed.

Lemma vote_exact (b : LayoutBox) (w h : Z) :
  (width b == inject_Z w)%Q -> (height b == inject_Z h)%Q ->
  Z.abs w < 2 ^ 24 -> 3 * Z.abs h < 2 ^ 24 ->
  (considered b = true <-> 0 < w /\ 0 < h) /\
  (wide b = true <-> 3 * h <= 2 * w).
Proof.
  intros Ew Eh Hw Hh.
  destruct (dims_exact b w h Ew Eh Hw Hh) as (E1 & E2 & E3). split.
  - rewrite considered_iff, E1, E2.
    change 0%Q with (inject_Z 0). rewrite <- !Zlt_Qlt. tauto.
  - rewrite wide_iff, E1, E3. split.
    + intros H.
      assert (H' : (inject_Z (3 * h) <= inject_Z (2 * w))%Q).
      { rewrite !inject_Z_mult. change (inject_Z 3) with 3%Q.
        change (inject_Z 2) with 2%Q. lra. }
      now rewrite <- Zle_Qle in H'.
    + intros H. rewrite Zle_Qle, !inject_Z_mult in H.
      change (inject_Z 3) with 3%Q in H. change (inject_Z 2) with 2%Q in H.
      lra.
Qed.

Lemma cvttss2si_in_range (q : Q) :
  INT_MIN <= truncQ q <= INT_MAX -> cvttss2si q = truncQ q.
Proof.
  intros [H1 H2]. unfold cvttss2si. cbv zeta.
  apply Z.leb_le in H1. apply Z.leb_le in H2. now rewrite H1, H2.
Qed.

Lemma cvttss2si_nonneg (q : Q) :
  (0 <= q)%Q -> (q < inject_Z (2 ^ 31))%Q -> cvttss2si q = truncQ q.
Proof.
  intros Hlo Hhi. apply cvttss2si_in_range.
  rewrite truncQ_nonneg by assumption. split.
  - apply (Qfloor_resp_le 0 q) in Hlo. change (Qfloor 0) with 0 in Hlo.
    unfold INT_MIN. lia.
  - assert (H : (inject_Z (Qfloor q) < inject_Z (2 ^ 31))%Q)
      by (eapply Qle_lt_trans; [apply Qfloor_le|assumption]).
    rewrite <- Zlt_Qlt in H. unfold INT_MAX. lia.
Qed.

Lemma cvttss2si_nonpos (q : Q) : (q <= 0)%Q -> cvttss2si q <= 0.
Proof.
  intros Hq. pose proof (truncQ_mono q 0 Hq) as H.
  change (truncQ 0) with 0 in H. unfold cvttss2si. cbv zeta.
  destruct ((INT_MIN <=? truncQ q) && (truncQ q <=? INT_MAX));
    [assumption|unfold INT_MIN; lia].
Qed.

(** As long as the product for the larger ratio converts within the range of
    [int], the gap width grows with the ratio. *)
Lemma minGapOf_mono (page : Z) (cfg cfg' : XYCutConfig) :
  0 <= page -> (minGapRatio cfg <= minGapRatio cfg')%Q ->
  (gapProduct page cfg' < inject_Z (2 ^ 31))%Q ->
  minGapOf page cfg <= minGapOf page cfg'.
Proof.
  intros Hp Hr Hrange. unfold minGapOf.
  set (u := Float32.round (inject_Z page)).
  assert (Hu : (0 <= u)%Q).
  { apply Float32Facts.round_nonneg.
    change 0%Q with (inject_Z 0). now rewrite <- Zle_Qle. }
  destruct (Qlt_le_dec 0 (u * minGapRatio cfg)) as [Hpos|Hneg].
  - assert (Hle : (u * minGapRatio cfg <= u * minGapRatio cfg')%Q).
    { rewrite !(Qmult_comm u). now apply Qmult_le_compat_r. }
    pose proof (Float32Facts.round_mono _ _ Hpos Hle) as Hm.
    assert (H0 : (0 <= gapProduct page cfg)%Q).
    { apply Float32Facts.round_nonneg. now apply Qlt_le_weak. }
    fold u in Hm. change (gapProduct page cfg <= gapProduct page cfg')%Q in Hm.
    rewrite !cvttss2si_nonneg; try assumption.
    + apply Z.max_le_compat_l. now apply truncQ_mono.
    + eapply Qle_trans; eassumption.
    + eapply Qle_lt_trans; eassumption.
  - assert (H0 : (gapProduct page cfg <= 0)%Q)
      by now apply Float32Facts.round_nonpos.
    pose proof (cvttss2si_nonpos _ H0). lia.
Qed.

Lemma split_count_mono (values : list Z) (minValue g1 g2 : Z) :
  g1 <= g2 ->
  (length (splitProjectionProfile values minValue g2) <=
   length (splitProjectionProfile values minValue g1))%nat.
Proof.
  intros Hg. rewrite !split_emit.
  apply (emit_count_mono minValue g1 g2 values Hg 0 0 false false 0 0 0 0).
  split; [reflexivity|discriminate].
Qed.


(** *** The common shape of the two recursive cuts

    [recursiveXYCut] and [recursiveYXCut] differ in the order of the axes and
    in the leaf comparator only; [cutWith] is that common shape, on which the
    properties of both are proved once.  Each of the two is an instance of
    it by computation. *)

Definition page_of (axis pageWidth pageHeight : Z) : Z :=
  if axis =? 0 then pageWidth else pageHeight.

Definition center_of (axis : Z) (b : LayoutBox) : Q :=
  if axis =? 0 then center_x b else center_y b.

(** The lower and upper coordinate of a box on an axis. *)
Definition axis_lo (axis : Z) (b : LayoutBox) : Q :=
  if axis =? 0 then x0 b else y0 b.

Definition axis_hi (axis : Z) (b : LayoutBox) : Q :=
  if axis =? 0 then x1 b else y1 b.

Section CutWith.

Variable sort : (nat -> nat -> bool) -> list nat -> list nat.
Variable leaf : list LayoutBox -> nat -> nat -> bool.
Variables axisA axisB : Z.

Fixpoint cutWith (fuel : nat) (boxes : list LayoutBox) (indices : list nat)
         (pageWidth pageHeight : Z) (config : XYCutConfig)
         (result : list nat) {struct fuel} : outcome (list nat) :=
  match indices with
  | [] => Done result
  | [i] => Done (result ++ [i])
  | _ =>
      match fuel with
      | O => NoFuel
      | S fuel' =>
          subBoxes <- gather boxes indices ;;
          let sizeA := page_of axisA pageWidth pageHeight in
          let sizeB := page_of axisB pageWidth pageHeight in
          projA <- projectionByBboxes subBoxes axisA sizeA ;;
          let segsA :=
            splitProjectionProfile projA (minValOf config)
                                   (minGapOf sizeA config) in
          if (1 <? length segsA)%nat then
            for_each segsA
              (fun seg res =>
                 cutWith fuel' boxes
                   (group (center_of axisA) seg indices subBoxes)
                   pageWidth pageHeight config res)
              result
          else
            projB <- projectionByBboxes subBoxes axisB sizeB ;;
            let segsB :=
              splitProjectionProfile projB (minValOf config)
                                     (minGapOf sizeB config) in
            if (1 <? length segsB)%nat then
              for_each segsB
                (fun seg res =>
                   cutWith fuel' boxes
                     (group (center_of axisB) seg indices subBoxes)
                     pageWidth pageHeight config res)
                result
            else Done (result ++ sort (leaf boxes) indices)
      end
  end.

End CutWith.

Lemma for_each_ext {A S : Type} (l : list A) (f g : A -> S -> outcome S) :
  (forall a st, In a l -> f a st = g a st) ->
  forall st, for_each l f st = for_each l g st.
Proof.
  induction l as [|a l IH]; intros Hfg st; cbn [for_each]; [reflexivity|].
  rewrite Hfg by now left. destruct (g a st); cbn [bind]; try reflexivity.
  apply IH. intros a' st' Hin. apply Hfg. now right.
Qed.

Lemma recursiveXYCut_cutWith sort fuel boxes indices pageWidth pageHeight
      config result :
  recursiveXYCut sort fuel boxes indices pageWidth pageHeight config result =
  cutWith sort leafLessXY 0 1 fuel boxes indices pageWidth pageHeight config
          result.
Proof. reflexivity. Qed.

Lemma recursiveYXCut_cutWith sort fuel boxes indices pageWidth pageHeight
      config result :
  recursiveYXCut sort fuel boxes indices pageWidth pageHeight config result =
  cutWith sort leafLessYX 1 0 fuel boxes indices pageWidth pageHeight config
          result.
Proof. reflexivity. Qed.


(** *** Every group of a split is strictly smaller *)

Lemma gather_spec (boxes : list LayoutBox) (indices : list nat) :
  forall sub,
    gather boxes indices = Done sub ->
    sub = map (boxAt boxes) indices /\
    Forall (fun i => (i < length boxes)%nat) indices.
Proof.
  induction indices as [|idx rest IH]; intros sub Hg; cbn [gather] in Hg.
  - inversion Hg. split; [reflexivity|constructor].
  - destruct (nth_error boxes idx) as [b|] eqn:Eb; [|discriminate].
    destruct (gather boxes rest) as [sub'| |]; cbn [bind] in Hg;
      try discriminate.
    inversion Hg; subst sub. destruct (IH sub' eq_refl) as [-> Hall].
    split.
    + cbn [map]. f_equal. unfold boxAt. symmetry.
      now apply nth_error_nth.
    + constructor; [|assumption]. apply nth_error_Some. congruence.
Qed.

Lemma gather_length (boxes : list LayoutBox) (indices : list nat) sub :
  gather boxes indices = Done sub -> length sub = length indices.
Proof.
  intros Hg. destruct (gather_spec _ _ _ Hg) as [-> _]. apply length_map.
Qed.

Lemma gather_in_range (boxes : list LayoutBox) (indices : list nat) :
  Forall (fun i => (i < length boxes)%nat) indices ->
  gather boxes indices = Done (map (boxAt boxes) indices).
Proof.
  induction 1 as [|idx rest Hidx _ IH]; cbn [gather map]; [reflexivity|].
  destruct (nth_error boxes idx) as [b|] eqn:Eb.
  - rewrite IH. cbn [bind]. do 2 f_equal. unfold boxAt. symmetry.
    now apply nth_error_nth.
  - apply nth_error_None in Eb. lia.
Qed.

Lemma gather_not_nofuel (boxes : list LayoutBox) (indices : list nat) :
  gather boxes indices <> NoFuel.
Proof.
  induction indices as [|idx rest IH]; cbn [gather]; [discriminate|].
  destruct (nth_error boxes idx); [|discriminate].
  destruct (gather boxes rest); cbn [bind]; try discriminate. contradiction.
Qed.

Lemma projection_done_size (boxes : list LayoutBox) (axis size : Z) proj :
  projectionByBboxes boxes axis size = Done proj -> 0 <= size.
Proof.
  unfold projectionByBboxes. destruct (size <? 0) eqn:E; [discriminate|].
  zbool. lia.
Qed.

Lemma projection_not_nofuel (boxes : list LayoutBox) (axis size : Z) :
  projectionByBboxes boxes axis size <> NoFuel.
Proof.
  destruct (Z_lt_le_dec size 0) as [Hneg|Hpos].
  - unfold projectionByBboxes. apply Z.ltb_lt in Hneg. rewrite Hneg.
    discriminate.
  - destruct (projection_spec boxes axis size Hpos) as (proj & -> & _).
    discriminate.
Qed.

Lemma filter_length_gap {A : Type} (f h : A -> bool) (l : list A) :
  (length (filter f l) < length (filter h l))%nat ->
  exists x, In x l /\ h x = true /\ f x = false.
Proof.
  induction l as [|a l IH]; cbn [filter]; [cbn; lia|].
  destruct (h a) eqn:Eh, (f a) eqn:Ef; cbn [length]; intros Hlt.
  - destruct IH as (x & Hin & Hx); [lia|]. exists x. split; [now right|easy].
  - exists a. split; [now left|easy].
  - destruct IH as (x & Hin & Hx); [lia|]. exists x. split; [now right|easy].
  - destruct IH as (x & Hin & Hx); [lia|]. exists x. split; [now right|easy].
Qed.

Lemma filter_length_lt {A : Type} (f : A -> bool) (l : list A) :
  (exists x, In x l /\ f x = false) -> (length (filter f l) < length l)%nat.
Proof.
  intros (x & Hin & Hx). induction l as [|a l IH]; [contradiction|].
  cbn [filter length]. pose proof (filter_length_le f l) as Hle.
  destruct Hin as [->|Hin].
  - rewrite Hx. lia.
  - specialize (IH Hin). destruct (f a); cbn [length]; lia.
Qed.

Lemma coverage_gap (axis size : Z) (boxes : list LayoutBox) (g p : Z) :
  coverage axis size boxes g < coverage axis size boxes p ->
  exists b, In b boxes /\ covers axis size b p = true /\
            covers axis size b g = false.
Proof.
  unfold coverage. intros Hlt.
  apply (filter_length_gap (fun b => covers axis size b g)
                           (fun b => covers axis size b p)). lia.
Qed.

Lemma center_of_eq (axis : Z) (b : LayoutBox) :
  center_of axis b = ((axis_lo axis b + axis_hi axis b) / 2)%Q.
Proof. unfold center_of, axis_lo, axis_hi. now destruct (axis =? 0). Qed.

Lemma span_eq (axis size : Z) (b : LayoutBox) :
  span axis size b =
  (Z.max 0 (truncQ (axis_lo axis b)), Z.min size (truncQ (axis_hi axis b))).
Proof. unfold span, axis_lo, axis_hi. now destruct (axis =? 0). Qed.

Lemma covers_iff (axis size : Z) (b : LayoutBox) (i : Z) :
  covers axis size b i = true <->
  0 <= i < size /\ truncQ (axis_lo axis b) <= i < truncQ (axis_hi axis b).
Proof.
  unfold covers. rewrite span_eq. cbn [fst snd].
  rewrite andb_true_iff, Z.leb_le, Z.ltb_lt. lia.
Qed.

(** A box that covers a pixel has a non-empty extent on the axis. *)
Lemma covers_extent (axis size : Z) (b : LayoutBox) (i : Z) :
  covers axis size b i = true -> (axis_lo axis b < axis_hi axis b)%Q.
Proof.
  intros Hc. apply covers_iff in Hc. apply Qnot_le_lt. intros Hle.
  apply truncQ_mono in Hle. lia.
Qed.

(** A box that covers [p] but not a pixel [g] on the left of [p] has its
    center on the right of [g]. *)
Lemma center_right_of_gap (axis size : Z) (b : LayoutBox) (g p : Z) :
  0 <= g < p ->
  covers axis size b p = true -> covers axis size b g = false ->
  (inject_Z (g + 1) <= center_of axis b)%Q.
Proof.
  intros Hgp Hp Hg. pose proof (covers_extent _ _ _ _ Hp) as Hext.
  apply covers_iff in Hp. rewrite <- not_true_iff_false, covers_iff in Hg.
  assert (Hlo : g + 1 <= truncQ (axis_lo axis b)) by lia.
  assert (Hq : (inject_Z (truncQ (axis_lo axis b)) <= axis_lo axis b)%Q)
    by (apply truncQ_pos_le; lia).
  rewrite Zle_Qle in Hlo. rewrite center_of_eq.
  apply Qle_shift_div_l; [reflexivity|]. lra.
Qed.

(** A box that covers [p] but not a pixel [g] of the page on the right of
    [p] has its center on the left of [g + 1]. *)
Lemma center_left_of_gap (axis size : Z) (b : LayoutBox) (g p : Z) :
  p < g < size ->
  covers axis size b p = true -> covers axis size b g = false ->
  (center_of axis b < inject_Z (g + 1))%Q.
Proof.
  intros Hgp Hp Hg. pose proof (covers_extent _ _ _ _ Hp) as Hext.
  apply covers_iff in Hp. rewrite <- not_true_iff_false, covers_iff in Hg.
  assert (Hhi : truncQ (axis_hi axis b) + 1 <= g + 1) by lia.
  pose proof (truncQ_lt_succ (axis_hi axis b)) as Hq.
  rewrite Zle_Qle in Hhi. rewrite center_of_eq.
  apply Qlt_shift_div_r; [reflexivity|]. lra.
Qed.

Lemma sorted_other (l : list (Z * Z)) :
  StronglySorted before l -> (1 < length l)%nat ->
  forall a, In a l -> exists b, In b l /\ (before a b \/ before b a).
Proof.
  intros Hs Hlen a Ha.
  destruct l as [|x [|y l]]; cbn in Hlen; try lia.
  inversion Hs as [|? ? Hs' Hall]; subst.
  rewrite Forall_forall in Hall.
  destruct Ha as [<-|Ha].
  - exists y. split; [right; now left|]. left. apply Hall. now left.
  - exists x. split; [now left|]. right. now apply Hall.
Qed.

Lemma in_segment_false_right (c : Q) (seg : Z * Z) :
  (inject_Z (snd seg) <= c)%Q -> in_segment c seg = false.
Proof.
  intros H. unfold in_segment, Qltb. apply andb_false_iff. right.
  apply negb_false_iff. now apply Qle_bool_iff.
Qed.

Lemma in_segment_false_left (c : Q) (seg : Z * Z) :
  (c < inject_Z (fst seg))%Q -> in_segment c seg = false.
Proof.
  intros H. unfold in_segment. apply andb_false_iff. left.
  apply not_true_iff_false. rewrite Qle_bool_iff. now apply Qlt_not_le.
Qed.

(** When a projection splits into two or more segments, every segment leaves
    out the center of some box. *)
Lemma split_excludes (subBoxes : list LayoutBox) (axis size : Z)
      (proj : list Z) (minVal minGap : Z) :
  projectionByBboxes subBoxes axis size = Done proj ->
  let segs := splitProjectionProfile proj minVal minGap in
  (1 < length segs)%nat ->
  forall seg, In seg segs ->
    exists b, In b subBoxes /\ in_segment (center_of axis b) seg = false.
Proof.
  intros Hproj segs Hlen seg Hin.
  pose proof (projection_done_size _ _ _ _ Hproj) as Hsize.
  destruct (projection_spec subBoxes axis size Hsize)
    as (proj' & Hrun & Hplen & Hpix).
  rewrite Hproj in Hrun. inversion Hrun; subst proj'. clear Hrun.
  pose proof (split_good proj minVal minGap) as Hgood.
  pose proof (split_sorted proj minVal minGap) as Hsort.
  fold segs in Hgood, Hsort. rewrite Forall_forall in Hgood.
  assert (Hn : Z.of_nat (length proj) = size) by lia.
  rewrite Hn in Hgood.
  destruct (sorted_other segs Hsort Hlen seg Hin) as (other & Hin' & Hrel).
  destruct (Hgood _ Hin) as ((Hs0 & Hs1) & Hs2 & Hs3 & Hs4).
  destruct (Hgood _ Hin') as ((Ho0 & Ho1) & Ho2 & Ho3 & Ho4).
  unfold before, occ, pixel, gapWidth in *.
  destruct Hrel as [Hrel|Hrel].
  - (* [other] lies on the right: the pixel at [snd seg] is unoccupied *)
    destruct Hs4 as [Hend|[_ Hrun]]; [lia|].
    destruct (Hrun (snd seg) ltac:(lia)) as [_ Hfree].
    rewrite Hpix in Hfree, Ho3 by lia.
    destruct (coverage_gap axis size subBoxes (snd seg) (fst other))
      as (b & Hb & Hcp & Hcg); [lia|].
    exists b. split; [assumption|]. apply in_segment_false_right.
    eapply Qle_trans;
      [|apply (center_right_of_gap axis size b (snd seg) (fst other));
        [lia|assumption..]].
    rewrite <- Zle_Qle. lia.
  - (* [other] lies on the left: it was closed just past an occupied pixel *)
    destruct Ho4 as [Hend|[Hprev Hrun]]; [lia|].
    destruct (Hrun (snd other) ltac:(lia)) as [_ Hfree].
    rewrite Hpix in Hfree, Hprev by lia.
    destruct (coverage_gap axis size subBoxes (snd other) (snd other - 1))
      as (b & Hb & Hcp & Hcg); [lia|].
    exists b. split; [assumption|]. apply in_segment_false_left.
    eapply Qlt_le_trans;
      [apply (center_left_of_gap axis size b (snd other) (snd other - 1));
        [lia|assumption..]|].
    rewrite <- Zle_Qle. lia.
Qed.

Lemma in_combine_right {A B : Type} (l : list A) (l' : list B) (b : B) :
  length l = length l' -> In b l' -> exists a, In (a, b) (combine l l').
Proof.
  revert l'. induction l as [|a l IH]; intros [|b' l'] Hlen Hin;
    cbn in Hlen; try discriminate; try contradiction.
  destruct Hin as [->|Hin].
  - exists a. now left.
  - destruct (IH l') as (a' & Ha'); [lia|assumption|].
    exists a'. now right.
Qed.

Lemma group_length_le (center : LayoutBox -> Q) (seg : Z * Z)
      (indices : list nat) (subBoxes : list LayoutBox) :
  (length (group center seg indices subBoxes) <= length indices)%nat.
Proof.
  unfold group. rewrite length_map.
  etransitivity; [apply filter_length_le|].
  rewrite length_combine. lia.
Qed.

Lemma group_length_lt (center : LayoutBox -> Q) (seg : Z * Z)
      (indices : list nat) (subBoxes : list LayoutBox) :
  length subBoxes = length indices ->
  (exists b, In b subBoxes /\ in_segment (center b) seg = false) ->
  (length (group center seg indices subBoxes) < length indices)%nat.
Proof.
  intros Hlen (b & Hb & Hout). unfold group. rewrite length_map.
  destruct (in_combine_right indices subBoxes b) as (i & Hi);
    [lia|assumption|].
  eapply Nat.lt_le_trans.
  - apply filter_length_lt. exists (i, b). split; [exact Hi|exact Hout].
  - rewrite length_combine. lia.
Qed.

Lemma group_smaller (subBoxes : list LayoutBox) (indices : list nat)
      (axis size : Z) (proj : list Z) (minVal minGap : Z) :
  length subBoxes = length indices ->
  projectionByBboxes subBoxes axis size = Done proj ->
  let segs := splitProjectionProfile proj minVal minGap in
  (1 < length segs)%nat ->
  forall seg, In seg segs ->
    (length (group (center_of axis) seg indices subBoxes) < length indices)%nat.
Proof.
  intros Hlen Hproj segs Hsegs seg Hin.
  apply group_length_lt; [assumption|].
  exact (split_excludes subBoxes axis size proj minVal minGap Hproj Hsegs
                        seg Hin).
Qed.


(** *** The recursion budget is never exhausted *)

Lemma for_each_terminates {A S : Type} (l : list A)
      (body : A -> S -> outcome S) :
  (forall a st, In a l -> terminates (body a st)) ->
  forall st, terminates (for_each l body st).
Proof.
  induction l as [|a l IH]; intros Hbody st; cbn [for_each]; [exact I|].
  pose proof (Hbody a st (or_introl eq_refl)) as Ha.
  destruct (body a st); cbn [bind]; try exact I; try contradiction.
  apply IH. intros a' st' Hin. apply Hbody. now right.
Qed.

Section CutFacts.

Variable sort : (nat -> nat -> bool) -> list nat -> list nat.
Variable leaf : list LayoutBox -> nat -> nat -> bool.
Variables axisA axisB : Z.

Let cut := cutWith sort leaf axisA axisB.

Lemma cutWith_terminates (fuel : nat) :
  forall boxes indices pageWidth pageHeight config result,
    (length indices <= fuel)%nat ->
    terminates (cut fuel boxes indices pageWidth pageHeight config result).
Proof.
  induction fuel as [|fuel IH]; intros boxes indices W H cfg result Hfuel;
    destruct indices as [|i [|j rest]]; try exact I; cbn in Hfuel; try lia.
  unfold cut. cbn [cutWith].
  pose proof (gather_not_nofuel boxes (i :: j :: rest)) as Hg.
  destruct (gather boxes (i :: j :: rest)) as [sub| |] eqn:Eg; cbn [bind];
    try exact I; try contradiction.
  pose proof (gather_length _ _ _ Eg) as Hlen.
  pose proof (projection_not_nofuel sub axisA (page_of axisA W H)) as HpA.
  destruct (projectionByBboxes sub axisA (page_of axisA W H))
    as [projA| |] eqn:EA; cbn [bind]; try exact I; try contradiction.
  destruct (1 <? length (splitProjectionProfile projA _ _))%nat eqn:EsA.
  - apply for_each_terminates. intros seg res Hin. apply IH.
    apply Nat.ltb_lt in EsA.
    pose proof (group_smaller sub (i :: j :: rest) axisA _ projA _ _
                              Hlen EA EsA seg Hin) as Hlt.
    cbn [length] in Hlt. lia.
  - pose proof (projection_not_nofuel sub axisB (page_of axisB W H)) as HpB.
    destruct (projectionByBboxes sub axisB (page_of axisB W H))
      as [projB| |] eqn:EB; cbn [bind]; try exact I; try contradiction.
    destruct (1 <? length (splitProjectionProfile projB _ _))%nat eqn:EsB;
      [|exact I].
    apply for_each_terminates. intros seg res Hin. apply IH.
    apply Nat.ltb_lt in EsB.
    pose proof (group_smaller sub (i :: j :: rest) axisB _ projB _ _
                              Hlen EB EsB seg Hin) as Hlt.
    cbn [length] in Hlt. lia.
Qed.

(** Any budget of at least the number of indices gives the same outcome. *)
Lemma cutWith_fuel (fuel : nat) :
  forall fuel' boxes indices pageWidth pageHeight config result,
    (length indices <= fuel)%nat -> (length indices <= fuel')%nat ->
    cut fuel boxes indices pageWidth pageHeight config result =
    cut fuel' boxes indices pageWidth pageHeight config result.
Proof.
  induction fuel as [|fuel IH];
    intros fuel' boxes indices W H cfg result Hfuel Hfuel';
    destruct indices as [|i [|j rest]];
    try (destruct fuel'; reflexivity); cbn in Hfuel, Hfuel'; try lia.
  destruct fuel' as [|fuel']; [lia|].
  unfold cut. cbn [cutWith].
  destruct (gather boxes (i :: j :: rest)) as [sub| |] eqn:Eg; cbn [bind];
    try reflexivity.
  pose proof (gather_length _ _ _ Eg) as Hlen.
  destruct (projectionByBboxes sub axisA (page_of axisA W H))
    as [projA| |] eqn:EA; cbn [bind]; try reflexivity.
  destruct (1 <? length (splitProjectionProfile projA _ _))%nat eqn:EsA.
  - apply for_each_ext. intros seg res Hin.
    apply Nat.ltb_lt in EsA.
    pose proof (group_smaller sub (i :: j :: rest) axisA _ projA _ _
                              Hlen EA EsA seg Hin) as Hlt.
    cbn [length] in Hlt. apply IH; lia.
  - destruct (projectionByBboxes sub axisB (page_of axisB W H))
      as [projB| |] eqn:EB; cbn [bind]; try reflexivity.
    destruct (1 <? length (splitProjectionProfile projB _ _))%nat eqn:EsB;
      [|reflexivity].
    apply for_each_ext. intros seg res Hin.
    apply Nat.ltb_lt in EsB.
    pose proof (group_smaller sub (i :: j :: rest) axisB _ projB _ _
                              Hlen EB EsB seg Hin) as Hlt.
    cbn [length] in Hlt. apply IH; lia.
Qed.

End CutFacts.



(** *** What the cuts need of [std::sort]

    The leaf order is whatever [std::sort] returns for the comparator.  The
    properties below are the ones the C++ standard grants when the comparator
    is a strict weak ordering on the range (the output is a permutation of
    the input and no element is followed by one that compares less), and the
    one every comparison sort has (the comparator is only consulted on
    elements of the range). *)

Definition incomparable (comp : nat -> nat -> bool) (a b : nat) : Prop :=
  comp a b = false /\ comp b a = false.

Record strict_weak_on (comp : nat -> nat -> bool) (l : list nat) : Prop := {
  swo_irrefl : forall a, In a l -> comp a a = false;
  swo_trans : forall a b c, In a l -> In b l -> In c l ->
    comp a b = true -> comp b c = true -> comp a c = true;
  swo_incomp : forall a b c, In a l -> In b l -> In c l ->
    incomparable comp a b -> incomparable comp b c -> incomparable comp a c
}.

(** No element is followed by an element that compares less than it. *)
Definition ordered_by (comp : nat -> nat -> bool) (l : list nat) : Prop :=
  StronglySorted (fun a b => comp b a = false) l.

Record sort_contract (sort : (nat -> nat -> bool) -> list nat -> list nat)
  : Prop := {
  sort_perm : forall comp l, Permutation (sort comp l) l;
  sort_ordered : forall comp l,
    strict_weak_on comp l -> ordered_by comp (sort comp l);
  sort_ext : forall comp comp' l,
    (forall a b, In a l -> In b l -> comp a b = comp' a b) ->
    sort comp l = sort comp' l
}.

Section InsertionSort.

Variable comp : nat -> nat -> bool.

Lemma linear_insert_perm (val : nat) (rs : list nat) :
  Permutation (linear_insert comp val rs) (val :: rs).
Proof.
  induction rs as [|next rest IH]; cbn [linear_insert]; [reflexivity|].
  destruct (comp val next); [|reflexivity].
  rewrite IH. apply perm_swap.
Qed.

Lemma insert_step_perm (rs : list nat) (val : nat) :
  Permutation (insert_step comp rs val) (val :: rs).
Proof.
  unfold insert_step. destruct (rev rs) as [|first tl] eqn:E.
  - apply (f_equal (@rev nat)) in E. rewrite rev_involutive in E. now subst.
  - destruct (comp val first).
    + symmetry. apply Permutation_cons_append.
    + apply linear_insert_perm.
Qed.

Lemma insert_fold_perm (l : list nat) :
  forall rs, Permutation (fold_left (insert_step comp) l rs) (rs ++ l).
Proof.
  induction l as [|val l IH]; intros rs; cbn [fold_left].
  - now rewrite app_nil_r.
  - rewrite IH, insert_step_perm.
    change (val :: rs) with ([val] ++ rs).
    rewrite (Permutation_app_comm [val] rs), <- app_assoc. reflexivity.
Qed.

Lemma insertion_sort_perm (l : list nat) :
  Permutation (insertion_sort comp l) l.
Proof.
  unfold insertion_sort. rewrite <- Permutation_rev.
  exact (insert_fold_perm l []).
Qed.

(** The sorted prefix, read backwards: no element compares less than a
    later one. *)
Definition rev_ordered (rs : list nat) : Prop :=
  StronglySorted (fun a b => comp a b = false) rs.

Variable dom : list nat.
Hypothesis Hswo : strict_weak_on comp dom.

Lemma swo_asym (a b : nat) :
  In a dom -> In b dom -> comp a b = true -> comp b a = false.
Proof.
  intros Ha Hb Hab. destruct (comp b a) eqn:Hba; [|reflexivity].
  rewrite <- (swo_irrefl _ _ Hswo a Ha).
  symmetry. exact (swo_trans _ _ Hswo a b a Ha Hb Ha Hab Hba).
Qed.

(** "Not less" is transitive. *)
Lemma swo_not_less_trans (a b c : nat) :
  In a dom -> In b dom -> In c dom ->
  comp a b = false -> comp b c = false -> comp a c = false.
Proof.
  intros Ha Hb Hc Hab Hbc. destruct (comp a c) eqn:Hac; [|reflexivity].
  assert (Hba : comp b a = false).
  { destruct (comp b a) eqn:Hba; [|reflexivity].
    rewrite <- Hbc. symmetry.
    exact (swo_trans _ _ Hswo b a c Hb Ha Hc Hba Hac). }
  assert (Hcb : comp c b = false).
  { destruct (comp c b) eqn:Hcb; [|reflexivity].
    rewrite <- Hab. symmetry.
    exact (swo_trans _ _ Hswo a c b Ha Hc Hb Hac Hcb). }
  destruct (swo_incomp _ _ Hswo a b c Ha Hb Hc) as [Hac' _];
    [split; assumption|split; assumption|congruence].
Qed.

Lemma linear_insert_ordered (val : nat) (rs : list nat) :
  In val dom -> incl rs dom -> rev_ordered rs ->
  rev_ordered (linear_insert comp val rs).
Proof.
  intros Hval. induction rs as [|next rest IH]; intros Hincl Hrs;
    cbn [linear_insert].
  - repeat constructor.
  - assert (Hnext : In next dom) by (apply Hincl; now left).
    assert (Hrest : incl rest dom) by (intros x Hx; apply Hincl; now right).
    inversion Hrs as [|? ? Hrs' Hall]; subst.
    destruct (comp val next) eqn:Hvn.
    + constructor; [now apply IH|].
      rewrite Forall_forall in *. intros y Hy.
      apply (Permutation_in _ (linear_insert_perm val rest)) in Hy.
      destruct Hy as [<-|Hy]; [now apply swo_asym|now apply Hall].
    + constructor; [assumption|]. constructor; [assumption|].
      rewrite Forall_forall in *. intros y Hy.
      apply (swo_not_less_trans val next y); auto.
Qed.

Lemma sorted_app_inv (R : nat -> nat -> Prop) (l1 l2 : list nat) :
  StronglySorted R (l1 ++ l2) ->
  forall x y, In x l1 -> In y l2 -> R x y.
Proof.
  induction l1 as [|a l1 IH]; intros Hs x y Hx Hy; [contradiction|].
  cbn in Hs. inversion Hs as [|? ? Hs' Hall]; subst.
  destruct Hx as [<-|Hx].
  - rewrite Forall_forall in Hall. apply Hall, in_or_app. now right.
  - now apply IH.
Qed.

Lemma sorted_snoc (R : nat -> nat -> Prop) (l : list nat) (v : nat) :
  StronglySorted R l -> Forall (fun x => R x v) l ->
  StronglySorted R (l ++ [v]).
Proof.
  induction 1 as [|a l Hs IH Hall]; intros Hv; cbn.
  - repeat constructor.
  - inversion Hv; subst. constructor; [now apply IH|].
    apply Forall_app. split; [assumption|]. now constructor.
Qed.

Lemma insert_step_ordered (rs : list nat) (val : nat) :
  In val dom -> incl rs dom -> rev_ordered rs ->
  rev_ordered (insert_step comp rs val).
Proof.
  intros Hval Hincl Hrs. unfold insert_step.
  destruct (rev rs) as [|first tl] eqn:E; [repeat constructor|].
  assert (Ers : rs = rev tl ++ [first]).
  { apply (f_equal (@rev nat)) in E. now rewrite rev_involutive in E. }
  assert (Hfirst : In first dom).
  { apply Hincl. rewrite Ers. apply in_or_app. right. now left. }
  destruct (comp val first) eqn:Hvf;
    [|now apply linear_insert_ordered].
  apply sorted_snoc; [assumption|].
  rewrite Forall_forall. intros x Hx.
  assert (Hxd : In x dom) by now apply Hincl.
  rewrite Ers in Hx. apply in_app_or in Hx. destruct Hx as [Hx|[<-|[]]].
  - destruct (comp x val) eqn:Hxv; [|reflexivity].
    assert (Hxf : comp x first = false).
    { unfold rev_ordered in Hrs. rewrite Ers in Hrs.
      apply (sorted_app_inv _ _ _ Hrs x first Hx). now left. }
    rewrite <- Hxf. symmetry.
    exact (swo_trans _ _ Hswo x val first Hxd Hval Hfirst Hxv Hvf).
  - now apply swo_asym.
Qed.

Lemma insert_fold_ordered (l : list nat) :
  forall rs,
    incl l dom -> incl rs dom -> rev_ordered rs ->
    rev_ordered (fold_left (insert_step comp) l rs).
Proof.
  induction l as [|val l IH]; intros rs Hl Hincl Hrs; cbn [fold_left];
    [assumption|].
  assert (Hval : In val dom) by (apply Hl; now left).
  apply IH.
  - intros x Hx. apply Hl. now right.
  - intros x Hx. apply (Permutation_in _ (insert_step_perm rs val)) in Hx.
    destruct Hx as [<-|Hx]; auto.
  - now apply insert_step_ordered.
Qed.

End InsertionSort.

Lemma sorted_rev (R : nat -> nat -> Prop) (l : list nat) :
  StronglySorted R l -> StronglySorted (fun a b => R b a) (rev l).
Proof.
  induction 1 as [|a l Hs IH Hall]; cbn [rev]; [constructor|].
  apply sorted_snoc; [assumption|].
  rewrite Forall_forall in *. intros x Hx. apply Hall.
  now apply in_rev.
Qed.

Lemma insertion_sort_ordered (comp : nat -> nat -> bool) (l : list nat) :
  strict_weak_on comp l -> ordered_by comp (insertion_sort comp l).
Proof.
  intros Hswo. unfold ordered_by, insertion_sort.
  apply (sorted_rev (fun a b => comp a b = false)).
  apply (insert_fold_ordered comp l Hswo l []).
  - apply incl_refl.
  - intros x [].
  - constructor.
Qed.

Lemma linear_insert_ext (comp comp' : nat -> nat -> bool) (val : nat)
      (rs : list nat) :
  (forall b, In b rs -> comp val b = comp' val b) ->
  linear_insert comp val rs = linear_insert comp' val rs.
Proof.
  induction rs as [|next rest IH]; intros Hext; cbn [linear_insert];
    [reflexivity|].
  rewrite <- (Hext next) by now left.
  rewrite IH; [reflexivity|]. intros b Hb. apply Hext. now right.
Qed.

Lemma insert_step_ext (comp comp' : nat -> nat -> bool) (rs : list nat)
      (val : nat) :
  (forall b, In b rs -> comp val b = comp' val b) ->
  insert_step comp rs val = insert_step comp' rs val.
Proof.
  intros Hext. unfold insert_step.
  destruct (rev rs) as [|first tl] eqn:E; [reflexivity|].
  rewrite <- (Hext first).
  - now rewrite (linear_insert_ext comp comp' val rs Hext).
  - apply in_rev. rewrite E. now left.
Qed.

Lemma insert_fold_ext (comp comp' : nat -> nat -> bool) (dom l : list nat) :
  (forall a b, In a dom -> In b dom -> comp a b = comp' a b) ->
  forall rs, incl l dom -> incl rs dom ->
    fold_left (insert_step comp) l rs = fold_left (insert_step comp') l rs.
Proof.
  intros Hext. induction l as [|val l IH]; intros rs Hl Hrs; cbn [fold_left];
    [reflexivity|].
  assert (Hval : In val dom) by (apply Hl; now left).
  rewrite <- (insert_step_ext comp comp' rs val) by auto.
  apply IH.
  - intros x Hx. apply Hl. now right.
  - intros x Hx. apply (Permutation_in _ (insert_step_perm comp rs val)) in Hx.
    destruct Hx as [<-|Hx]; auto.
Qed.

Lemma insertion_sort_contract : sort_contract insertion_sort.
Proof.
  constructor.
  - apply insertion_sort_perm.
  - apply insertion_sort_ordered.
  - intros comp comp' l Hext. unfold insertion_sort. f_equal.
    apply (insert_fold_ext comp comp' l l Hext).
    + apply incl_refl.
    + intros x [].
Qed.


(** *** Leaf clusters *)

Lemma Qltb_iff (x y : Q) : Qltb x y = true <-> (x < y)%Q.
Proof.
  unfold Qltb. rewrite negb_true_iff, <- not_true_iff_false, Qle_bool_iff.
  split; [apply Qnot_le_lt|apply Qlt_not_le].
Qed.

Lemma Qltb_irrefl_eq (x y : Q) : (x == y)%Q -> Qltb x y = false.
Proof.
  intros E. apply not_true_iff_false. rewrite Qltb_iff, E.
  apply Qlt_irrefl.
Qed.

(** Two boxes are on the same line (of a horizontal page). *)
Definition same_line (a b : LayoutBox) : Prop :=
  (Qabs (center_y a - center_y b) < Qmin (height a) (height b) * (1 # 2))%Q.

(** Two boxes are in the same column (of a vertical page). *)
Definition same_column (a b : LayoutBox) : Prop :=
  (Qabs (center_x a - center_x b) < Qmin (width a) (width b) * (1 # 2))%Q.

Lemma leafLessXY_iff (boxes : list LayoutBox) (a b : nat) :
  leafLessXY boxes a b = true <->
  (same_line (boxAt boxes a) (boxAt boxes b) /\
   (center_x (boxAt boxes a) < center_x (boxAt boxes b))%Q) \/
  (~ same_line (boxAt boxes a) (boxAt boxes b) /\
   (center_y (boxAt boxes a) < center_y (boxAt boxes b))%Q).
Proof.
  unfold leafLessXY, same_line.
  destruct (Qltb (Qabs _) _) eqn:E.
  - rewrite Qltb_iff. apply Qltb_iff in E. tauto.
  - rewrite Qltb_iff. apply not_true_iff_false in E. rewrite Qltb_iff in E.
    tauto.
Qed.

Lemma leafLessYX_iff (boxes : list LayoutBox) (a b : nat) :
  leafLessYX boxes a b = true <->
  (same_column (boxAt boxes a) (boxAt boxes b) /\
   (center_y (boxAt boxes a) < center_y (boxAt boxes b))%Q) \/
  (~ same_column (boxAt boxes a) (boxAt boxes b) /\
   (center_x (boxAt boxes b) < center_x (boxAt boxes a))%Q).
Proof.
  unfold leafLessYX, same_column.
  destruct (Qltb (Qabs _) _) eqn:E.
  - rewrite Qltb_iff. apply Qltb_iff in E. tauto.
  - rewrite Qltb_iff. apply not_true_iff_false in E. rewrite Qltb_iff in E.
    tauto.
Qed.

Lemma same_line_sym (a b : LayoutBox) : same_line a b -> same_line b a.
Proof.
  unfold same_line. rewrite (Qabs_Qminus (center_y a)), Q.min_comm. auto.
Qed.

(** The comparator of [recursiveXYCut] has no tie-break: two boxes whose
    deciding centers are equal compare as equivalent. *)
Lemma leafLessXY_tie (boxes : list LayoutBox) (a b : nat) :
  (same_line (boxAt boxes a) (boxAt boxes b) /\
   center_x (boxAt boxes a) == center_x (boxAt boxes b))%Q \/
  (~ same_line (boxAt boxes a) (boxAt boxes b) /\
   center_y (boxAt boxes a) == center_y (boxAt boxes b))%Q ->
  leafLessXY boxes a b = false /\ leafLessXY boxes b a = false.
Proof.
  intros H. split; apply not_true_iff_false; rewrite leafLessXY_iff;
    intros [[Hl Hlt]|[Hl Hlt]]; destruct H as [[Hs He]|[Hs He]];
    try (rewrite He in Hlt; exact (Qlt_irrefl _ Hlt));
    try (apply Hl; assumption);
    try (apply Hs; assumption);
    try (apply Hl, same_line_sym; assumption);
    try (apply Hs, same_line_sym; assumption).
Qed.

Lemma same_column_sym (a b : LayoutBox) : same_column a b -> same_column b a.
Proof.
  unfold same_column. rewrite (Qabs_Qminus (center_x a)), Q.min_comm. auto.
Qed.

(** Neither has the comparator of [recursiveYXCut]. *)
Lemma leafLessYX_tie (boxes : list LayoutBox) (a b : nat) :
  (same_column (boxAt boxes a) (boxAt boxes b) /\
   center_y (boxAt boxes a) == center_y (boxAt boxes b))%Q \/
  (~ same_column (boxAt boxes a) (boxAt boxes b) /\
   center_x (boxAt boxes a) == center_x (boxAt boxes b))%Q ->
  leafLessYX boxes a b = false /\ leafLessYX boxes b a = false.
Proof.
  intros H. split; apply not_true_iff_false; rewrite leafLessYX_iff;
    intros [[Hl Hlt]|[Hl Hlt]]; destruct H as [[Hs He]|[Hs He]];
    try (rewrite He in Hlt; exact (Qlt_irrefl _ Hlt));
    try (apply Hl; assumption);
    try (apply Hs; assumption);
    try (apply Hl, same_column_sym; assumption);
    try (apply Hs, same_column_sym; assumption).
Qed.

Section Leaf.

Variable sort : (nat -> nat -> bool) -> list nat -> list nat.
Variable leaf : list LayoutBox -> nat -> nat -> bool.
Variables axisA axisB : Z.

(** Neither projection of the cluster splits into two or more segments. *)
Definition is_leaf (boxes : list LayoutBox) (indices : list nat)
           (pageWidth pageHeight : Z) (config : XYCutConfig) : Prop :=
  (2 <= length indices)%nat /\
  exists subBoxes xProj yProj,
    gather boxes indices = Done subBoxes /\
    projectionByBboxes subBoxes 0 pageWidth = Done xProj /\
    projectionByBboxes subBoxes 1 pageHeight = Done yProj /\
    (length (splitProjectionProfile
               xProj (minValOf config) (minGapOf pageWidth config)) <= 1)%nat /\
    (length (splitProjectionProfile
               yProj (minValOf config) (minGapOf pageHeight config)) <= 1)%nat.

Lemma cutWith_leaf (fuel : nat) boxes indices pageWidth pageHeight config
      result subBoxes projA projB :
  (2 <= length indices)%nat ->
  gather boxes indices = Done subBoxes ->
  projectionByBboxes subBoxes axisA (page_of axisA pageWidth pageHeight)
    = Done projA ->
  projectionByBboxes subBoxes axisB (page_of axisB pageWidth pageHeight)
    = Done projB ->
  (length (splitProjectionProfile
             projA (minValOf config)
             (minGapOf (page_of axisA pageWidth pageHeight) config))
   <= 1)%nat ->
  (length (splitProjectionProfile
             projB (minValOf config)
             (minGapOf (page_of axisB pageWidth pageHeight) config))
   <= 1)%nat ->
  cutWith sort leaf axisA axisB (S fuel) boxes indices pageWidth pageHeight
          config result =
  Done (result ++ sort (leaf boxes) indices).
Proof.
  intros Hlen Hg HA HB HsA HsB.
  destruct indices as [|i [|j rest]]; cbn in Hlen; try lia.
  cbn [cutWith]. rewrite Hg. cbn [bind]. rewrite HA. cbn [bind].
  apply Nat.ltb_ge in HsA. rewrite HsA.
  rewrite HB. cbn [bind].
  apply Nat.ltb_ge in HsB. rewrite HsB. reflexivity.
Qed.

End Leaf.


(** *** The leaf order in the words of the specification

    "On the same line the box with the smaller horizontal center comes
    first, otherwise the box with the smaller vertical center; when the
    deciding centers are equal, the smaller index comes first."  Kept beside
    [leafLessXY] for comparison. *)
Definition specLessXY (boxes : list LayoutBox) (a b : nat) : bool :=
  let ba := boxAt boxes a in
  let bb := boxAt boxes b in
  if Qltb (Qabs (center_y ba - center_y bb))
          (Qmin (height ba) (height bb) * (1 # 2))
  then
    if Qeq_bool (center_x ba) (center_x bb) then (a <? b)%nat
    else Qltb (center_x ba) (center_x bb)
  else
    if Qeq_bool (center_y ba) (center_y bb) then (a <? b)%nat
    else Qltb (center_y ba) (center_y bb).

(** *** Sample pages *)

Definition box (a b c d : Q) : LayoutBox := mkLayoutBox a b c d TEXT 1 0.

(** Three overlapping boxes that step down and to the left. *)
Definition staircase : list LayoutBox :=
  [box 10 0 30 10; box 5 4 25 14; box 0 8 20 18].

(** Three overlapping boxes that step down and to the right. *)
Definition ladder : list LayoutBox :=
  [box 0 0 20 10; box 6 4 26 14; box 12 8 32 18].

(** A flat box and a tall box with the same center, and a tall box on their
    right that is centered higher. *)
Definition twins : list LayoutBox :=
  [box 5 59 15 61; box 15 0 25 100; box 5 10 15 110].

(** Two columns and a sliver between them, about one pixel wide. *)
Definition columns_and_sliver : list LayoutBox :=
  [box 0 0 100 500; box 600 0 700 500; box (601 # 2) 0 (1207 # 4) 500].

(** The sliver alone, and a box that ends far outside the range of
    [int]. *)
Definition sliver : LayoutBox := box (601 # 2) 0 (1207 # 4) 500.

Definition far_box : LayoutBox := box 0 0 3000000000 500.

(** A box 200 high whose width is less than 300 by [2^-17]. *)
Definition nearly_wide : LayoutBox := box (13107201 # 131072) 0 400 200.

(** A gap ratio whose product with a page extent of 1000 pixels is outside
    the range of [int]. *)
Definition hugeGapConfig : XYCutConfig := mkXYCutConfig AUTO 3000000 0.

(** Two columns and a box of zero width between them. *)
Definition columns_and_line : list LayoutBox :=
  [box 0 0 100 500; box 600 0 700 500; box 300 0 300 500].

(** Two boxes side by side, 80 pixels apart, the right one higher up. *)
Definition side_by_side : list LayoutBox :=
  [box 0 50 100 150; box 180 0 280 100].

Definition horizontalConfig : XYCutConfig :=
  mkXYCutConfig HORIZONTAL (1 # 16) 0.

Definition verticalConfig : XYCutConfig :=
  mkXYCutConfig VERTICAL (1 # 16) 0.

(** Every box moved by the same offset. *)
Definition translate (dx dy : Q) (b : LayoutBox) : LayoutBox :=
  mkLayoutBox (x0 b + dx) (y0 b + dy) (x1 b + dx) (y1 b + dy)
              (category b) (confidence b) (index b).


(** *** Moving boxes that sit on the pixel grid *)

Lemma truncQ_comp (p q : Q) : (p == q)%Q -> truncQ p = truncQ q.
Proof.
  intros E. destruct (Qlt_le_dec p 0) as [Hp|Hp].
  - rewrite !truncQ_nonpos; [now rewrite E| |]; lra.
  - rewrite !truncQ_nonneg; [now rewrite E| |]; lra.
Qed.

Lemma truncQ_inject (z : Z) : truncQ (inject_Z z) = z.
Proof. unfold truncQ. cbn. apply Z.quot_1_r. Qed.

(** *** The histogram in terms of the extents of the boxes *)

(** A coordinate that [static_cast<int>] converts within the range of
    [int]. *)
Definition converts (q : Q) : Prop :=
  (inject_Z (INT_MIN - 1) < q /\ q < inject_Z (INT_MAX + 1))%Q.

Lemma converts_cvttss2si (q : Q) : converts q -> cvttss2si q = truncQ q.
Proof.
  intros [Hlo Hhi]. unfold cvttss2si. cbv zeta.
  assert (H1 : INT_MIN <= truncQ q).
  { destruct (Qlt_le_dec q 0) as [Hq|Hq].
    - rewrite truncQ_nonpos by now apply Qlt_le_weak.
      destruct (Z_le_gt_dec INT_MIN (Qceiling q)) as [|Hgt]; [assumption|].
      exfalso. assert (Hc : Qceiling q <= INT_MIN - 1) by lia.
      rewrite Zle_Qle in Hc. pose proof (Qle_ceiling q) as Hq'.
      lra.
    - pose proof (truncQ_mono 0 q Hq) as H0.
      change (truncQ 0) with 0 in H0. unfold INT_MIN. lia. }
  assert (H2 : truncQ q <= INT_MAX).
  { destruct (Qlt_le_dec q 0) as [Hq|Hq].
    - pose proof (truncQ_mono q 0 (Qlt_le_weak _ _ Hq)) as H0.
      change (truncQ 0) with 0 in H0. unfold INT_MAX. lia.
    - rewrite truncQ_nonneg by assumption.
      destruct (Z_le_gt_dec (Qfloor q) INT_MAX) as [|Hgt]; [assumption|].
      exfalso. assert (Hc : INT_MAX + 1 <= Qfloor q) by lia.
      rewrite Zle_Qle in Hc. pose proof (Qfloor_le q) as Hq'.
      lra. }
  apply Z.leb_le in H1. apply Z.leb_le in H2. now rewrite H1, H2.
Qed.

(** In the words of the specification: the extent [[lo, hi)] of the box on
    the axis covers the coordinate [i]. *)
Definition extent_covers (axis : Z) (b : LayoutBox) (i : Z) : bool :=
  Qle_bool (axis_lo axis b) (inject_Z i) &&
  Qltb (inject_Z i) (axis_hi axis b).

(** What the loop counts at pixel [i]: the extent of the box holds the upper
    end [i + 1] of the pixel and begins below it. *)
Definition counted (axis : Z) (b : LayoutBox) (i : Z) : bool :=
  Qltb (axis_lo axis b) (inject_Z (i + 1)) &&
  Qle_bool (inject_Z (i + 1)) (axis_hi axis b).

(** A box whose bounds on the axis are integers. *)
Definition integral (axis : Z) (b : LayoutBox) : Prop :=
  exists lo hi : Z,
    (axis_lo axis b == inject_Z lo)%Q /\ (axis_hi axis b == inject_Z hi)%Q.

Lemma counted_iff (axis : Z) (b : LayoutBox) (i : Z) :
  counted axis b i = true <->
  (axis_lo axis b < inject_Z (i + 1) /\
   inject_Z (i + 1) <= axis_hi axis b)%Q.
Proof.
  unfold counted. now rewrite andb_true_iff, Qltb_iff, Qle_bool_iff.
Qed.

Lemma extent_covers_iff (axis : Z) (b : LayoutBox) (i : Z) :
  extent_covers axis b i = true <->
  (axis_lo axis b <= inject_Z i /\ inject_Z i < axis_hi axis b)%Q.
Proof.
  unfold extent_covers. now rewrite andb_true_iff, Qltb_iff, Qle_bool_iff.
Qed.

Lemma truncQ_le_iff (q : Q) (i : Z) :
  0 <= i -> (truncQ q <= i <-> (q < inject_Z (i + 1))%Q).
Proof.
  intros Hi. split.
  - intros H. eapply Qlt_le_trans; [apply truncQ_lt_succ|].
    rewrite <- Zle_Qle. lia.
  - intros H. destruct (Qlt_le_dec q 0) as [Hq|Hq].
    + pose proof (truncQ_mono q 0 (Qlt_le_weak _ _ Hq)) as H0.
      change (truncQ 0) with 0 in H0. lia.
    + rewrite truncQ_nonneg by assumption.
      pose proof (Qfloor_le q) as Hf.
      assert (Hlt : (inject_Z (Qfloor q) < inject_Z (i + 1))%Q)
        by (eapply Qle_lt_trans; eassumption).
      rewrite <- Zlt_Qlt in Hlt. lia.
Qed.

Lemma truncQ_gt_iff (q : Q) (i : Z) :
  0 <= i -> (i < truncQ q <-> (inject_Z (i + 1) <= q)%Q).
Proof.
  intros Hi. split.
  - intros H. eapply Qle_trans; [|apply truncQ_pos_le; lia].
    rewrite <- Zle_Qle. lia.
  - intros H. apply truncQ_mono in H. rewrite truncQ_inject in H. lia.
Qed.

(** Inside the page the clipped pixel span of the code holds [i] exactly
    when the box is counted at [i]. *)
Lemma covers_counted (axis size : Z) (b : LayoutBox) (i : Z) :
  0 <= i < size -> covers axis size b i = counted axis b i.
Proof.
  intros Hi. apply eq_true_iff_eq.
  rewrite covers_iff, counted_iff.
  rewrite <- (truncQ_le_iff (axis_lo axis b) i) by lia.
  rewrite <- (truncQ_gt_iff (axis_hi axis b) i) by lia.
  tauto.
Qed.

Lemma counted_integral (axis : Z) (b : LayoutBox) (i : Z) :
  integral axis b -> counted axis b i = extent_covers axis b i.
Proof.
  intros (lo & hi & Hlo & Hhi). apply eq_true_iff_eq.
  rewrite counted_iff, extent_covers_iff, Hlo, Hhi.
  rewrite <- !Zle_Qle, <- !Zlt_Qlt. lia.
Qed.

Lemma count_ext {A : Type} (f g : A -> bool) (l : list A) :
  Forall (fun a => f a = g a) l ->
  length (filter f l) = length (filter g l).
Proof.
  induction 1 as [|a l E _ IH]; cbn [filter]; [reflexivity|].
  rewrite E. destruct (g a); cbn [length]; now rewrite IH.
Qed.

(** On an axis, [b] has integer bounds inside the page and [b'] is [b] moved
    by the integer [d], still inside the page. *)
Definition shifted (axis size d : Z) (b b' : LayoutBox) : Prop :=
  exists lo hi : Z,
    (axis_lo axis b == inject_Z lo)%Q /\
    (axis_hi axis b == inject_Z hi)%Q /\
    (axis_lo axis b' == inject_Z (lo + d))%Q /\
    (axis_hi axis b' == inject_Z (hi + d))%Q /\
    0 <= lo /\ lo < hi /\ hi <= size /\ 0 <= lo + d /\ hi + d <= size.

Lemma shifted_sym (axis size d : Z) (b b' : LayoutBox) :
  shifted axis size d b b' -> shifted axis size (- d) b' b.
Proof.
  intros (lo & hi & H1 & H2 & H3 & H4 & Hb).
  exists (lo + d), (hi + d).
  replace (lo + d + - d) with lo by lia.
  replace (hi + d + - d) with hi by lia.
  repeat split; try assumption; lia.
Qed.

Lemma covers_shifted (axis size d : Z) (b b' : LayoutBox) (k : Z) :
  shifted axis size d b b' ->
  covers axis size b' k = covers axis size b (k - d).
Proof.
  intros (lo & hi & H1 & H2 & H3 & H4 & Hb).
  apply eq_true_iff_eq. rewrite !covers_iff.
  rewrite (truncQ_comp _ _ H1), (truncQ_comp _ _ H2),
          (truncQ_comp _ _ H3), (truncQ_comp _ _ H4), !truncQ_inject.
  lia.
Qed.

Lemma coverage_shifted (axis size d : Z) (sub sub' : list LayoutBox) (k : Z) :
  Forall2 (shifted axis size d) sub sub' ->
  coverage axis size sub' k = coverage axis size sub (k - d).
Proof.
  unfold coverage. induction 1 as [|b b' sub sub' Hb _ IH]; [reflexivity|].
  cbn [filter]. rewrite (covers_shifted axis size d b b' k Hb).
  destruct (covers axis size b (k - d)); cbn [length]; lia.
Qed.

Lemma coverage_outside (axis size : Z) (sub : list LayoutBox) (k : Z) :
  ~ 0 <= k < size -> coverage axis size sub k = 0.
Proof.
  intros Hk. unfold coverage. induction sub as [|b sub IH]; [reflexivity|].
  cbn [filter]. destruct (covers axis size b k) eqn:E; [|exact IH].
  apply covers_iff in E. lia.
Qed.

Lemma coverage_pos (axis size : Z) (sub : list LayoutBox) (b : LayoutBox)
      (k : Z) :
  In b sub -> covers axis size b k = true -> 0 < coverage axis size sub k.
Proof.
  intros Hin Hc. unfold coverage.
  assert (Hf : In b (filter (fun b => covers axis size b k) sub))
    by (apply filter_In; now split).
  destruct (filter _ sub); [contradiction|cbn [length]; lia].
Qed.

Lemma pad_decompose (p p' : list Z) (n : nat) :
  length p = length p' -> (n <= length p)%nat ->
  (forall k, (k < n)%nat -> nth k p' 0 = 0) ->
  (forall k, (n <= k < length p)%nat -> nth k p' 0 = nth (k - n) p 0) ->
  (forall k, (length p - n <= k < length p)%nat -> nth k p 0 = 0) ->
  exists q, p = q ++ repeat 0 n /\ p' = repeat 0 n ++ q.
Proof.
  intros Hlen Hn Hfront Hshift Hback.
  exists (firstn (length p - n) p). split.
  - rewrite <- (firstn_skipn (length p - n) p) at 1. f_equal.
    apply (nth_ext _ _ 0 0).
    + rewrite length_skipn, repeat_length. lia.
    + intros k Hk. rewrite length_skipn in Hk.
      rewrite nth_skipn, nth_repeat_zero. apply Hback. lia.
  - rewrite <- (firstn_skipn n p') at 1. f_equal.
    + apply (nth_ext _ _ 0 0).
      * rewrite length_firstn, repeat_length. lia.
      * intros k Hk. rewrite length_firstn in Hk.
        rewrite nth_firstn, nth_repeat_zero.
        destruct (k <? n)%nat eqn:E; [|reflexivity].
        apply Hfront. apply Nat.ltb_lt in E. exact E.
    + apply (nth_ext _ _ 0 0).
      * rewrite length_skipn, length_firstn. lia.
      * intros k Hk. rewrite length_skipn in Hk.
        rewrite nth_skipn, nth_firstn.
        assert (E : (k <? length p - n)%nat = true) by (apply Nat.ltb_lt; lia).
        rewrite E, Hshift by lia. f_equal. lia.
Qed.

(** The histogram of the moved boxes is the histogram of the boxes with its
    empty end moved to the front. *)
Lemma projection_shifted (axis size d : Z) (sub sub' : list LayoutBox)
      (proj proj' : list Z) :
  0 <= d -> sub <> [] ->
  Forall2 (shifted axis size d) sub sub' ->
  projectionByBboxes sub axis size = Done proj ->
  projectionByBboxes sub' axis size = Done proj' ->
  exists q,
    proj = q ++ repeat 0 (Z.to_nat d) /\
    proj' = repeat 0 (Z.to_nat d) ++ q /\
    Z.of_nat (length q) = size - d /\
    forall k, 0 <= k < size - d ->
      nth (Z.to_nat k) q 0 = coverage axis size sub k.
Proof.
  intros Hd Hne Hsh Hp Hp'.
  pose proof (projection_done_size _ _ _ _ Hp) as Hsize.
  destruct (projection_spec sub axis size Hsize) as (p & Ep & Hlen & Hnth).
  destruct (projection_spec sub' axis size Hsize) as (p' & Ep' & Hlen' & Hnth').
  rewrite Hp in Ep. rewrite Hp' in Ep'.
  inversion Ep; inversion Ep'; subst p p'. clear Ep Ep'.
  assert (Hdsize : d <= size).
  { destruct Hsh as [|b b' ? ? (lo & hi & _ & _ & _ & _ & Hb) _];
      [contradiction|lia]. }
  destruct (pad_decompose proj proj' (Z.to_nat d)) as (q & Hq & Hq').
  - lia.
  - lia.
  - intros k Hk. rewrite <- (Nat2Z.id k), Hnth' by lia.
    rewrite (coverage_shifted axis size d sub sub' _ Hsh).
    apply coverage_outside. lia.
  - intros k Hk. rewrite <- (Nat2Z.id k), Hnth' by lia.
    rewrite (coverage_shifted axis size d sub sub' _ Hsh).
    rewrite <- Hnth by lia. f_equal. lia.
  - intros k Hk. rewrite <- (Nat2Z.id k), Hnth by lia.
    replace (Z.of_nat k) with (Z.of_nat k + d - d) by lia.
    rewrite <- (coverage_shifted axis size d sub sub' _ Hsh).
    apply coverage_outside. lia.
  - exists q. split; [exact Hq|]. split; [exact Hq'|].
    assert (Hlq : Z.of_nat (length q) = size - d).
    { apply (f_equal (@length Z)) in Hq.
      rewrite length_app, repeat_length in Hq. lia. }
    split; [exact Hlq|].
    intros k Hk. rewrite <- Hnth by lia. rewrite Hq.
    rewrite app_nth1 by lia. reflexivity.
Qed.


Lemma in_segment_iff (c : Q) (seg : Z * Z) :
  in_segment c seg = true <->
  (inject_Z (fst seg) <= c /\ c < inject_Z (snd seg))%Q.
Proof.
  unfold in_segment. now rewrite andb_true_iff, Qle_bool_iff, Qltb_iff.
Qed.

Lemma Forall2_impl_in {A B : Type} (R S : A -> B -> Prop) (l : list A)
      (l' : list B) :
  Forall2 R l l' ->
  (forall x y, In x l -> In y l' -> R x y -> S x y) ->
  Forall2 S l l'.
Proof.
  induction 1 as [|x y l l' Hxy _ IH]; intros Himp; constructor.
  - apply Himp; [now left|now left|assumption].
  - apply IH. intros x' y' Hx Hy. apply Himp; now right.
Qed.

Lemma center_shifted (axis size d : Z) (b b' : LayoutBox) (lo hi : Z) :
  (axis_lo axis b == inject_Z lo)%Q -> (axis_hi axis b == inject_Z hi)%Q ->
  (axis_lo axis b' == inject_Z (lo + d))%Q ->
  (axis_hi axis b' == inject_Z (hi + d))%Q ->
  (center_of axis b == (inject_Z lo + inject_Z hi) * (1 # 2))%Q /\
  (center_of axis b' == (inject_Z lo + inject_Z hi) * (1 # 2) + inject_Z d)%Q.
Proof.
  intros H1 H2 H3 H4. rewrite !center_of_eq, H1, H2, H3, H4.
  rewrite !inject_Z_plus. split; field.
Qed.

(** The same boxes fall into corresponding segments before and after an
    integer move along an axis (here to the right or downwards). *)
Lemma segments_shifted_right (axis size d minGap : Z)
      (sub sub' : list LayoutBox) (proj proj' : list Z) :
  0 <= d -> sub <> [] ->
  Forall2 (shifted axis size d) sub sub' ->
  projectionByBboxes sub axis size = Done proj ->
  projectionByBboxes sub' axis size = Done proj' ->
  Forall2
    (fun seg seg' =>
       Forall2 (fun b b' => in_segment (center_of axis b) seg =
                            in_segment (center_of axis b') seg')
               sub sub')
    (splitProjectionProfile proj 0 minGap)
    (splitProjectionProfile proj' 0 minGap).
Proof.
  intros Hd Hne Hsh Hp Hp'.
  destruct (projection_shifted axis size d sub sub' proj proj'
              Hd Hne Hsh Hp Hp') as (q & -> & -> & Hlq & Hq).
  rewrite (split_leading_zeros 0 minGap (Z.le_refl 0)).
  pose proof (split_trailing_zeros 0 minGap (Z.to_nat d) q (Z.le_refl 0))
    as Hflush.
  rewrite Z2Nat.id by assumption.
  induction Hflush as [|a c l lq Hac _ IH]; cbn [map]; constructor;
    [|exact IH].
  apply (Forall2_impl_in _ _ _ _ Hsh).
  intros b b' Hb _ (lo & hi & H1 & H2 & H3 & H4 & Hb0 & Hb1 & Hb2 & Hb3 & Hb4).
  destruct (center_shifted axis size d b b' lo hi H1 H2 H3 H4) as [Hc Hc'].
  destruct Hac as [Hfst Hsnd].
  apply eq_true_iff_eq. rewrite !in_segment_iff, Hc, Hc'.
  unfold shift. cbn [fst snd]. rewrite !inject_Z_plus, Hfst.
  destruct Hsnd as [->|[Hend (l0 & Hl1 & Hl2 & Hfree)]];
    [split; intros [Hx Hy]; split; lra|].
  assert (Hhi : hi <= l0).
  { destruct (Z_le_gt_dec hi l0) as [|Hgt]; [assumption|exfalso].
    apply (Hfree (hi - 1)); [lia|].
    unfold occ, pixel. rewrite Hq by lia.
    apply (coverage_pos axis size sub b); [assumption|].
    apply covers_iff.
    rewrite (truncQ_comp _ _ H1), (truncQ_comp _ _ H2), !truncQ_inject.
    lia. }
  assert (Ha : (inject_Z hi <= inject_Z (snd a))%Q)
    by (rewrite <- Zle_Qle; lia).
  assert (Hc0 : (inject_Z hi <= inject_Z (snd c))%Q)
    by (rewrite <- Zle_Qle; lia).
  assert (Hlohi : (inject_Z lo < inject_Z hi)%Q)
    by (rewrite <- Zlt_Qlt; lia).
  split; intros [Hx Hy]; split; lra.
Qed.

Lemma segments_shifted (axis size d minGap : Z)
      (sub sub' : list LayoutBox) (proj proj' : list Z) :
  sub <> [] ->
  Forall2 (shifted axis size d) sub sub' ->
  projectionByBboxes sub axis size = Done proj ->
  projectionByBboxes sub' axis size = Done proj' ->
  Forall2
    (fun seg seg' =>
       Forall2 (fun b b' => in_segment (center_of axis b) seg =
                            in_segment (center_of axis b') seg')
               sub sub')
    (splitProjectionProfile proj 0 minGap)
    (splitProjectionProfile proj' 0 minGap).
Proof.
  intros Hne Hsh Hp Hp'.
  destruct (Z_le_gt_dec 0 d) as [Hd|Hd].
  - now apply (segments_shifted_right axis size d).
  - assert (Hsh' : Forall2 (shifted axis size (- d)) sub' sub).
    { apply Forall2_flip. eapply Forall2_impl; [|exact Hsh].
      intros b b'. apply shifted_sym. }
    assert (Hne' : sub' <> []).
    { destruct Hsh; [contradiction|discriminate]. }
    pose proof (segments_shifted_right axis size (- d) minGap sub' sub
                  proj' proj ltac:(lia) Hne' Hsh' Hp' Hp) as H.
    apply Forall2_flip. eapply Forall2_impl; [|exact H].
    intros seg' seg Hin. apply Forall2_flip.
    eapply Forall2_impl; [|exact Hin]. intros b' b E. symmetry. exact E.
Qed.

Lemma group_Forall2 (center : LayoutBox -> Q) (seg seg' : Z * Z)
      (sub sub' : list LayoutBox) :
  Forall2 (fun b b' => in_segment (center b) seg =
                       in_segment (center b') seg') sub sub' ->
  forall indices,
    group center seg indices sub = group center seg' indices sub'.
Proof.
  unfold group. induction 1 as [|b b' sub sub' Hb _ IH]; intros indices.
  - now destruct indices.
  - destruct indices as [|i indices]; [reflexivity|].
    cbn [combine filter snd]. rewrite <- Hb.
    destruct (in_segment (center b) seg); cbn [map fst]; now rewrite IH.
Qed.

Lemma for_each_Forall2 {A S : Type} (f f' : A -> S -> outcome S)
      (l l' : list A) :
  Forall2 (fun a a' => forall st, f a st = f' a' st) l l' ->
  forall st, for_each l f st = for_each l' f' st.
Proof.
  induction 1 as [|a a' l l' Ha _ IH]; intros st; cbn [for_each];
    [reflexivity|].
  rewrite Ha. destruct (f' a' st); cbn [bind]; auto.
Qed.


(** [b'] is [b] moved by the integer offset [(dx, dy)]; both have integer
    corners and positive width and height, and lie inside the page. *)
Definition moved (pageWidth pageHeight dx dy : Z) (b b' : LayoutBox) : Prop :=
  shifted 0 pageWidth dx b b' /\ shifted 1 pageHeight dy b b'.

Definition offset_of (axis dx dy : Z) : Z := if axis =? 0 then dx else dy.

Lemma moved_axis (W H dx dy : Z) (b b' : LayoutBox) (axis : Z) :
  moved W H dx dy b b' ->
  shifted axis (page_of axis W H) (offset_of axis dx dy) b b'.
Proof.
  intros [Hx Hy]. unfold shifted, page_of, offset_of, axis_lo, axis_hi in *.
  cbn [Z.eqb] in Hx, Hy. destruct (axis =? 0); assumption.
Qed.

Lemma moved_geometry (W H dx dy : Z) (b b' : LayoutBox) :
  moved W H dx dy b b' ->
  (center_x b' == center_x b + inject_Z dx)%Q /\
  (center_y b' == center_y b + inject_Z dy)%Q /\
  (width b' == width b)%Q /\ (height b' == height b)%Q.
Proof.
  intros [(lx & hx & X1 & X2 & X3 & X4 & _) (ly & hy & Y1 & Y2 & Y3 & Y4 & _)].
  unfold axis_lo, axis_hi in *. cbn [Z.eqb] in *.
  unfold center_x, center_y, width, height.
  rewrite X1, X2, X3, X4, Y1, Y2, Y3, Y4, !inject_Z_plus.
  repeat split; field.
Qed.

Lemma Forall2_nth_error {A B : Type} (R : A -> B -> Prop) (l : list A)
      (l' : list B) :
  Forall2 R l l' ->
  forall i,
    match nth_error l i, nth_error l' i with
    | Some x, Some y => R x y
    | None, None => True
    | _, _ => False
    end.
Proof.
  induction 1 as [|x y l l' Hxy _ IH]; intros [|i]; cbn; auto.
  apply IH.
Qed.

Lemma gather_Forall2 (R : LayoutBox -> LayoutBox -> Prop)
      (boxes boxes' : list LayoutBox) :
  Forall2 R boxes boxes' ->
  forall indices,
    match gather boxes indices, gather boxes' indices with
    | Done sub, Done sub' => Forall2 R sub sub'
    | Fault, Fault => True
    | _, _ => False
    end.
Proof.
  intros HR. induction indices as [|idx rest IH]; cbn [gather].
  - constructor.
  - pose proof (Forall2_nth_error R boxes boxes' HR idx) as Hidx.
    destruct (nth_error boxes idx) as [b|], (nth_error boxes' idx) as [b'|];
      try contradiction; [|exact I].
    destruct (gather boxes rest) as [sub| |],
             (gather boxes' rest) as [sub'| |];
      cbn [bind]; try contradiction; try exact I.
    now constructor.
Qed.

Lemma boxAt_Forall2 (R : LayoutBox -> LayoutBox -> Prop)
      (boxes boxes' : list LayoutBox) (a : nat) :
  Forall2 R boxes boxes' -> (a < length boxes)%nat ->
  R (boxAt boxes a) (boxAt boxes' a).
Proof.
  intros HR Ha. pose proof (Forall2_nth_error R boxes boxes' HR a) as H.
  unfold boxAt.
  destruct (nth_error boxes a) as [b|] eqn:E.
  - destruct (nth_error boxes' a) as [b'|] eqn:E'; [|contradiction].
    now rewrite (nth_error_nth _ _ defaultBox E),
                (nth_error_nth _ _ defaultBox E').
  - apply nth_error_None in E. lia.
Qed.

Lemma leafLessXY_moved (W H dx dy : Z) (boxes boxes' : list LayoutBox)
      (a b : nat) :
  Forall2 (moved W H dx dy) boxes boxes' ->
  (a < length boxes)%nat -> (b < length boxes)%nat ->
  leafLessXY boxes' a b = leafLessXY boxes a b.
Proof.
  intros Hm Ha Hb.
  destruct (moved_geometry _ _ _ _ _ _ (boxAt_Forall2 _ _ _ a Hm Ha))
    as (Ax & Ay & Aw & Ah).
  destruct (moved_geometry _ _ _ _ _ _ (boxAt_Forall2 _ _ _ b Hm Hb))
    as (Bx & By & Bw & Bh).
  unfold leafLessXY, Qltb. rewrite Ax, Ay, Ah, Bx, By, Bh.
  assert (E : (center_y (boxAt boxes a) + inject_Z dy -
               (center_y (boxAt boxes b) + inject_Z dy) ==
               center_y (boxAt boxes a) - center_y (boxAt boxes b))%Q)
    by ring.
  rewrite E.
  destruct (Qle_bool _ (Qabs _)); cbn [negb]; f_equal;
    apply eq_true_iff_eq; rewrite !Qle_bool_iff; split; intros; lra.
Qed.

Lemma leafLessYX_moved (W H dx dy : Z) (boxes boxes' : list LayoutBox)
      (a b : nat) :
  Forall2 (moved W H dx dy) boxes boxes' ->
  (a < length boxes)%nat -> (b < length boxes)%nat ->
  leafLessYX boxes' a b = leafLessYX boxes a b.
Proof.
  intros Hm Ha Hb.
  destruct (moved_geometry _ _ _ _ _ _ (boxAt_Forall2 _ _ _ a Hm Ha))
    as (Ax & Ay & Aw & Ah).
  destruct (moved_geometry _ _ _ _ _ _ (boxAt_Forall2 _ _ _ b Hm Hb))
    as (Bx & By & Bw & Bh).
  unfold leafLessYX, Qltb. rewrite Ax, Ay, Aw, Bx, By, Bw.
  assert (E : (center_x (boxAt boxes a) + inject_Z dx -
               (center_x (boxAt boxes b) + inject_Z dx) ==
               center_x (boxAt boxes a) - center_x (boxAt boxes b))%Q)
    by ring.
  rewrite E.
  destruct (Qle_bool _ (Qabs _)); cbn [negb]; f_equal;
    apply eq_true_iff_eq; rewrite !Qle_bool_iff; split; intros; lra.
Qed.

Lemma detect_moved (W H dx dy : Z) (boxes boxes' : list LayoutBox) :
  Forall2 (moved W H dx dy) boxes boxes' ->
  detectTextDirection boxes' = detectTextDirection boxes.
Proof.
  intros Hm.
  assert (Hc : consideredCount boxes' = consideredCount boxes /\
               wideCount boxes' = wideCount boxes).
  { unfold consideredCount, wideCount.
    induction Hm as [|b b' l l' Hb _ [IH1 IH2]]; [now split|].
    destruct (moved_geometry _ _ _ _ _ _ Hb) as (_ & _ & Ew & Eh).
    assert (Ed : dims b' = dims b).
    { unfold dims, width32, height32.
      now rewrite (Float32Facts.round_comp _ _ Ew),
                  (Float32Facts.round_comp _ _ Eh). }
    assert (E1 : considered b' = considered b)
      by now rewrite !considered_by_dims, Ed.
    assert (E2 : wide b' = wide b) by now rewrite !wide_by_dims, Ed.
    cbn [filter]. rewrite E1, E2.
    split.
    - destruct (considered b); cbn [length]; now rewrite IH1.
    - destruct (considered b && wide b); cbn [length]; now rewrite IH2. }
  destruct Hc as [Hc Hw]. rewrite !detect_unfold, Hc, Hw.
  destruct Hm; reflexivity.
Qed.


Section Moved.

Variable sort : (nat -> nat -> bool) -> list nat -> list nat.
Hypothesis sort_extensional :
  forall comp comp' l,
    (forall a b, In a l -> In b l -> comp a b = comp' a b) ->
    sort comp l = sort comp' l.
Variable leaf : list LayoutBox -> nat -> nat -> bool.
Variables axisA axisB : Z.
Variables (pageWidth pageHeight dx dy : Z) (config : XYCutConfig).
Hypothesis minVal_zero : minValOf config = 0.

Let cut := cutWith sort leaf axisA axisB.

(** One axis of one call: the moved cluster splits into as many segments,
    and corresponding segments hold the same indices. *)
Lemma axis_groups_moved (axis : Z) (indices : list nat)
      (sub sub' : list LayoutBox) (proj proj' : list Z) :
  sub <> [] ->
  Forall2 (moved pageWidth pageHeight dx dy) sub sub' ->
  projectionByBboxes sub axis (page_of axis pageWidth pageHeight)
    = Done proj ->
  projectionByBboxes sub' axis (page_of axis pageWidth pageHeight)
    = Done proj' ->
  Forall2
    (fun seg seg' =>
       group (center_of axis) seg' indices sub' =
       group (center_of axis) seg indices sub)
    (splitProjectionProfile proj (minValOf config)
       (minGapOf (page_of axis pageWidth pageHeight) config))
    (splitProjectionProfile proj' (minValOf config)
       (minGapOf (page_of axis pageWidth pageHeight) config)).
Proof.
  intros Hne Hm Hp Hp'. rewrite minVal_zero.
  assert (Hsh : Forall2 (shifted axis (page_of axis pageWidth pageHeight)
                                 (offset_of axis dx dy)) sub sub').
  { eapply Forall2_impl; [|exact Hm]. intros b b'. apply moved_axis. }
  eapply Forall2_impl;
    [|exact (segments_shifted axis _ _ _ sub sub' proj proj' Hne Hsh Hp Hp')].
  intros seg seg' Hin. symmetry. now apply group_Forall2.
Qed.

Lemma projection_moved_fault (axis : Z) (sub sub' : list LayoutBox) :
  page_of axis pageWidth pageHeight < 0 ->
  projectionByBboxes sub axis (page_of axis pageWidth pageHeight) = Fault /\
  projectionByBboxes sub' axis (page_of axis pageWidth pageHeight) = Fault.
Proof.
  intros Hneg. unfold projectionByBboxes. apply Z.ltb_lt in Hneg.
  now rewrite Hneg.
Qed.

Lemma cutWith_moved (fuel : nat) :
  forall boxes boxes' indices result,
    Forall2 (moved pageWidth pageHeight dx dy) boxes boxes' ->
    (forall a b, (a < length boxes)%nat -> (b < length boxes)%nat ->
                 leaf boxes' a b = leaf boxes a b) ->
    cut fuel boxes' indices pageWidth pageHeight config result =
    cut fuel boxes indices pageWidth pageHeight config result.
Proof.
  induction fuel as [|fuel IH]; intros boxes boxes' indices result Hm Hleaf;
    destruct indices as [|i [|j rest]]; try reflexivity.
  unfold cut. cbn [cutWith].
  pose proof (gather_Forall2 _ boxes boxes' Hm (i :: j :: rest)) as Hg.
  destruct (gather boxes (i :: j :: rest)) as [sub| |] eqn:Eg,
           (gather boxes' (i :: j :: rest)) as [sub'| |] eqn:Eg';
    try contradiction; cbn [bind]; try reflexivity.
  assert (Hne : sub <> []).
  { apply gather_length in Eg. destruct sub; [discriminate|discriminate]. }
  destruct (gather_spec _ _ _ Eg) as [_ Hrange].
  assert (Hseg : forall axis,
    match projectionByBboxes sub axis (page_of axis pageWidth pageHeight),
          projectionByBboxes sub' axis (page_of axis pageWidth pageHeight)
    with
    | Done proj, Done proj' =>
        Forall2
          (fun seg seg' =>
             group (center_of axis) seg' (i :: j :: rest) sub' =
             group (center_of axis) seg (i :: j :: rest) sub)
          (splitProjectionProfile proj (minValOf config)
             (minGapOf (page_of axis pageWidth pageHeight) config))
          (splitProjectionProfile proj' (minValOf config)
             (minGapOf (page_of axis pageWidth pageHeight) config))
    | Fault, Fault => True
    | _, _ => False
    end).
  { intros axis.
    destruct (Z_lt_le_dec (page_of axis pageWidth pageHeight) 0) as [Hn|Hp].
    - destruct (projection_moved_fault axis sub sub' Hn) as [-> ->].
      exact I.
    - destruct (projection_spec sub axis _ Hp) as (proj & Ep & _).
      destruct (projection_spec sub' axis _ Hp) as (proj' & Ep' & _).
      rewrite Ep, Ep'. now apply axis_groups_moved. }
  assert (Hrec : forall (axis : Z) segs segs',
    Forall2
      (fun seg seg' =>
         group (center_of axis) seg' (i :: j :: rest) sub' =
         group (center_of axis) seg (i :: j :: rest) sub) segs segs' ->
    for_each segs'
      (fun seg res =>
         cutWith sort leaf axisA axisB fuel boxes'
           (group (center_of axis) seg (i :: j :: rest) sub')
           pageWidth pageHeight config res) result =
    for_each segs
      (fun seg res =>
         cutWith sort leaf axisA axisB fuel boxes
           (group (center_of axis) seg (i :: j :: rest) sub)
           pageWidth pageHeight config res) result).
  { intros axis segs segs' Hsegs. symmetry. apply for_each_Forall2.
    eapply Forall2_impl; [|exact Hsegs].
    intros seg seg' Hgrp st. cbn beta. rewrite Hgrp. symmetry.
    now apply IH. }
  pose proof (Hseg axisA) as HA.
  destruct (projectionByBboxes sub axisA _) as [projA| |],
           (projectionByBboxes sub' axisA _) as [projA'| |];
    try contradiction; cbn [bind]; try reflexivity.
  rewrite <- (Forall2_length HA).
  destruct (1 <? length (splitProjectionProfile projA _ _))%nat.
  - now apply Hrec.
  - pose proof (Hseg axisB) as HB.
    destruct (projectionByBboxes sub axisB _) as [projB| |],
             (projectionByBboxes sub' axisB _) as [projB'| |];
      try contradiction; cbn [bind]; try reflexivity.
    rewrite <- (Forall2_length HB).
    destruct (1 <? length (splitProjectionProfile projB _ _))%nat.
    + now apply Hrec.
    + do 2 f_equal. apply sort_extensional.
      rewrite Forall_forall in Hrange. intros a b Ha Hb.
      apply Hleaf; now apply Hrange.
Qed.

End Moved.


(** A box with integer corners and positive width and height, inside the
    page. *)
Definition on_grid (pageWidth pageHeight : Z) (b : LayoutBox) : Prop :=
  exists a0 b0 a1 b1 : Z,
    (x0 b == inject_Z a0)%Q /\ (y0 b == inject_Z b0)%Q /\
    (x1 b == inject_Z a1)%Q /\ (y1 b == inject_Z b1)%Q /\
    0 <= a0 /\ a0 < a1 /\ a1 <= pageWidth /\
    0 <= b0 /\ b0 < b1 /\ b1 <= pageHeight.

Lemma on_grid_moved (W H dx dy : Z) (b : LayoutBox) :
  on_grid W H b ->
  on_grid W H (translate (inject_Z dx) (inject_Z dy) b) ->
  moved W H dx dy b (translate (inject_Z dx) (inject_Z dy) b).
Proof.
  intros (a0 & b0 & a1 & b1 & X0 & Y0 & X1 & Y1 & Hb)
         (a0' & b0' & a1' & b1' & X0' & Y0' & X1' & Y1' & Hb').
  cbn [translate x0 y0 x1 y1] in *.
  rewrite X0, <- inject_Z_plus, inject_Z_injective in X0'.
  rewrite Y0, <- inject_Z_plus, inject_Z_injective in Y0'.
  rewrite X1, <- inject_Z_plus, inject_Z_injective in X1'.
  rewrite Y1, <- inject_Z_plus, inject_Z_injective in Y1'.
  subst a0' b0' a1' b1'. split.
  - exists a0, a1. unfold axis_lo, axis_hi.
    cbn [Z.eqb translate x0 y0 x1 y1].
    rewrite X0, X1, !inject_Z_plus. repeat split; try reflexivity; lia.
  - exists b0, b1. unfold axis_lo, axis_hi.
    cbn [Z.eqb translate x0 y0 x1 y1].
    rewrite Y0, Y1, !inject_Z_plus. repeat split; try reflexivity; lia.
Qed.

Lemma on_grid_all_moved (W H dx dy : Z) (boxes : list LayoutBox) :
  Forall (on_grid W H) boxes ->
  Forall (on_grid W H) (map (translate (inject_Z dx) (inject_Z dy)) boxes) ->
  Forall2 (moved W H dx dy) boxes
          (map (translate (inject_Z dx) (inject_Z dy)) boxes).
Proof.
  induction boxes as [|b boxes IH]; intros Hg Hg'; cbn [map]; constructor.
  - inversion Hg; inversion Hg'; subst. now apply on_grid_moved.
  - inversion Hg; inversion Hg'; subst. now apply IH.
Qed.

Lemma xycutPlusSort_moved sort (W H dx dy : Z) (config : XYCutConfig)
      (boxes boxes' : list LayoutBox) :
  sort_contract sort -> minValOf config = 0 ->
  Forall2 (moved W H dx dy) boxes boxes' ->
  xycutPlusSort sort boxes' W H config = xycutPlusSort sort boxes W H config.
Proof.
  intros Hsort Hval Hm. unfold xycutPlusSort.
  rewrite (detect_moved W H dx dy boxes boxes' Hm).
  rewrite <- (Forall2_length Hm).
  destruct Hm as [|b b' boxes boxes' Hb Hm]; [reflexivity|].
  assert (Hall : Forall2 (moved W H dx dy) (b :: boxes) (b' :: boxes'))
    by now constructor.
  destruct (match direction config with
            | AUTO => detectTextDirection (b :: boxes)
            | d => d
            end).
  - rewrite !recursiveXYCut_cutWith.
    apply (cutWith_moved sort (sort_ext _ Hsort) leafLessXY 0 1 W H dx dy
                         config Hval); [assumption|].
    intros x y. now apply (leafLessXY_moved W H dx dy).
  - rewrite !recursiveYXCut_cutWith.
    apply (cutWith_moved sort (sort_ext _ Hsort) leafLessYX 1 0 W H dx dy
                         config Hval); [assumption|].
    intros x y. now apply (leafLessYX_moved W H dx dy).
  - rewrite !recursiveYXCut_cutWith.
    apply (cutWith_moved sort (sort_ext _ Hsort) leafLessYX 1 0 W H dx dy
                         config Hval); [assumption|].
    intros x y. now apply (leafLessYX_moved W H dx dy).
Qed.


(** *** What the cuts return: no index twice, none from outside *)

Lemma group_as_filter (center : LayoutBox -> Q) (seg : Z * Z)
      (boxes : list LayoutBox) (indices : list nat) :
  group center seg indices (map (boxAt boxes) indices) =
  filter (fun i => in_segment (center (boxAt boxes i)) seg) indices.
Proof.
  unfold group. induction indices as [|i indices IH]; [reflexivity|].
  cbn [map combine filter snd].
  destruct (in_segment (center (boxAt boxes i)) seg); cbn [map fst];
    now rewrite IH.
Qed.

Lemma in_segment_disjoint (c : Q) (seg seg' : Z * Z) :
  before seg seg' -> in_segment c seg = true -> in_segment c seg' = false.
Proof.
  unfold before. intros Hlt Hin. apply in_segment_iff in Hin.
  apply in_segment_false_left.
  assert (H : (inject_Z (snd seg) < inject_Z (fst seg'))%Q)
    by now rewrite <- Zlt_Qlt.
  lra.
Qed.

Lemma for_each_concat {A : Type} (l : list A)
      (body : A -> list nat -> outcome (list nat))
      (P : A -> list nat -> Prop) :
  (forall a res r, In a l -> body a res = Done r ->
                   exists out, r = res ++ out /\ P a out) ->
  forall res r,
    for_each l body res = Done r ->
    exists outs, r = res ++ concat outs /\ Forall2 P l outs.
Proof.
  induction l as [|a l IH]; intros Hbody res r Hrun; cbn [for_each] in Hrun.
  - inversion Hrun; subst. exists []. cbn. split; [now rewrite app_nil_r|].
    constructor.
  - destruct (body a res) as [r1| |] eqn:E; cbn [bind] in Hrun;
      try discriminate.
    destruct (Hbody a res r1 (or_introl eq_refl) E) as (out1 & -> & HP).
    destruct (IH (fun a' res' r' Hin => Hbody a' res' r' (or_intror Hin))
                 _ _ Hrun) as (outs & -> & Houts).
    exists (out1 :: outs). cbn [concat]. split; [now rewrite app_assoc|].
    now constructor.
Qed.

Lemma for_each_done {A S : Type} (l : list A) (body : A -> S -> outcome S) :
  (forall a st, In a l -> exists r, body a st = Done r) ->
  forall st, exists r, for_each l body st = Done r.
Proof.
  induction l as [|a l IH]; intros Hbody st; cbn [for_each].
  - now exists st.
  - destruct (Hbody a st (or_introl eq_refl)) as (r1 & ->). cbn [bind].
    apply IH. intros a' st' Hin. apply Hbody. now right.
Qed.

Lemma Forall2_in_right {A B : Type} (P : A -> B -> Prop) (l : list A)
      (l' : list B) (y : B) :
  Forall2 P l l' -> In y l' -> exists x, In x l /\ P x y.
Proof.
  induction 1 as [|a b l l' Hab _ IH]; intros Hin; [contradiction|].
  destruct Hin as [<-|Hin].
  - exists a. split; [now left|assumption].
  - destruct (IH Hin) as (x & Hx & HP). exists x. split; [now right|assumption].
Qed.

(** The pieces returned for the segments of one split, put together. *)
Lemma pieces_nodup (p : Z * Z -> nat -> bool) (indices : list nat)
      (segs : list (Z * Z)) (outs : list (list nat)) :
  StronglySorted before segs ->
  (forall seg seg' i, before seg seg' -> p seg i = true -> p seg' i = false) ->
  Forall2 (fun seg out => NoDup out /\ incl out (filter (p seg) indices))
          segs outs ->
  NoDup (concat outs) /\ incl (concat outs) indices.
Proof.
  intros Hsort Hdisj Hout. revert Hsort.
  induction Hout as [|seg out segs outs [Hnd Hincl] Hrest IH]; intros Hsort.
  - split; [constructor|intros x []].
  - inversion Hsort as [|? ? Hsort' Hall]; subst.
    destruct (IH Hsort') as [IHnd IHincl]. cbn [concat]. split.
    + apply NoDup_app; [assumption..|].
      intros x Hx Hx'. apply in_concat in Hx'.
      destruct Hx' as (out' & Hout' & Hxin).
      destruct (Forall2_in_right _ _ _ _ Hrest Hout')
        as (seg' & Hseg' & _ & Hincl').
      apply Hincl, filter_In in Hx. apply Hincl', filter_In in Hxin.
      rewrite Forall_forall in Hall.
      rewrite (Hdisj seg seg' x (Hall _ Hseg') (proj2 Hx)) in Hxin.
      destruct Hxin; discriminate.
    + intros x Hx. apply in_app_or in Hx. destruct Hx as [Hx|Hx].
      * apply Hincl, filter_In in Hx. tauto.
      * now apply IHincl.
Qed.

Section Output.

Variable sort : (nat -> nat -> bool) -> list nat -> list nat.
Hypothesis sort_permutes : forall comp l, Permutation (sort comp l) l.
Variable leaf : list LayoutBox -> nat -> nat -> bool.
Variables axisA axisB : Z.

Let cut := cutWith sort leaf axisA axisB.

Lemma cutWith_output (fuel : nat) :
  forall boxes indices pageWidth pageHeight config result r,
    NoDup indices ->
    cut fuel boxes indices pageWidth pageHeight config result = Done r ->
    exists out, r = result ++ out /\ NoDup out /\ incl out indices.
Proof.
  induction fuel as [|fuel IH]; intros boxes indices W H cfg result r Hnd Hrun;
    destruct indices as [|i [|j rest]]; cbn [cut cutWith] in Hrun;
    try (inversion Hrun; subst; exists []; rewrite app_nil_r;
         repeat split; [constructor|intros x []]);
    try (inversion Hrun; subst; exists [i];
         repeat split; [assumption|apply incl_refl]);
    try discriminate.
  unfold cut in Hrun. cbn [cutWith] in Hrun.
  destruct (gather boxes (i :: j :: rest)) as [sub| |] eqn:Eg;
    cbn [bind] in Hrun; try discriminate.
  destruct (gather_spec _ _ _ Eg) as [-> _].
  assert (Hsplit : forall axis proj,
    for_each
      (splitProjectionProfile proj (minValOf cfg)
         (minGapOf (page_of axis W H) cfg))
      (fun seg res =>
         cutWith sort leaf axisA axisB fuel boxes
           (group (center_of axis) seg (i :: j :: rest)
                  (map (boxAt boxes) (i :: j :: rest))) W H cfg res)
      result = Done r ->
    exists out, r = result ++ out /\ NoDup out /\
                incl out (i :: j :: rest)).
  { intros axis proj Hfor.
    apply (for_each_concat _ _
             (fun seg out =>
                NoDup out /\
                incl out
                  (filter (fun k => in_segment
                                      (center_of axis (boxAt boxes k)) seg)
                          (i :: j :: rest)))) in Hfor.
    - destruct Hfor as (outs & -> & Houts).
      exists (concat outs). split; [reflexivity|].
      apply (pieces_nodup
               (fun seg k => in_segment (center_of axis (boxAt boxes k)) seg)
               (i :: j :: rest) _ outs
               (split_sorted proj (minValOf cfg)
                             (minGapOf (page_of axis W H) cfg))).
      + intros seg seg' k. apply in_segment_disjoint.
      + exact Houts.
    - intros seg res r' _ Hcall. rewrite group_as_filter in Hcall.
      apply IH in Hcall; [exact Hcall|]. now apply NoDup_filter. }
  destruct (projectionByBboxes _ axisA _) as [projA| |];
    cbn [bind] in Hrun; try discriminate.
  destruct (1 <? length (splitProjectionProfile projA _ _))%nat;
    [now apply (Hsplit axisA projA)|].
  destruct (projectionByBboxes _ axisB _) as [projB| |];
    cbn [bind] in Hrun; try discriminate.
  destruct (1 <? length (splitProjectionProfile projB _ _))%nat;
    [now apply (Hsplit axisB projB)|].
  inversion Hrun; subst. eexists. split; [reflexivity|]. split.
  - apply (Permutation_NoDup (Permutation_sym (sort_permutes _ _)) Hnd).
  - intros x Hx. apply (Permutation_in _ (sort_permutes _ _) Hx).
Qed.

Lemma cutWith_done (fuel : nat) :
  forall boxes indices pageWidth pageHeight config result,
    (length indices <= fuel)%nat ->
    Forall (fun i => (i < length boxes)%nat) indices ->
    0 <= pageWidth -> 0 <= pageHeight ->
    exists r,
      cut fuel boxes indices pageWidth pageHeight config result = Done r.
Proof.
  induction fuel as [|fuel IH];
    intros boxes indices W H cfg result Hfuel Hrange HW HH;
    destruct indices as [|i [|j rest]]; cbn [cut cutWith];
    try (eexists; reflexivity); cbn in Hfuel; try lia.
  unfold cut. cbn [cutWith].
  rewrite (gather_in_range _ _ Hrange). cbn [bind].
  assert (Hpage : forall axis, 0 <= page_of axis W H)
    by (intros axis; unfold page_of; destruct (axis =? 0); assumption).
  assert (Hsplit : forall axis proj,
    projectionByBboxes (map (boxAt boxes) (i :: j :: rest)) axis
                       (page_of axis W H) = Done proj ->
    (1 < length (splitProjectionProfile proj (minValOf cfg)
                   (minGapOf (page_of axis W H) cfg)))%nat ->
    exists r,
      for_each
        (splitProjectionProfile proj (minValOf cfg)
           (minGapOf (page_of axis W H) cfg))
        (fun seg res =>
           cutWith sort leaf axisA axisB fuel boxes
             (group (center_of axis) seg (i :: j :: rest)
                    (map (boxAt boxes) (i :: j :: rest))) W H cfg res)
        result = Done r).
  { intros axis proj Hp Hlen. apply for_each_done. intros seg st Hin.
    pose proof (group_smaller _ (i :: j :: rest) axis _ proj _ _
                  (length_map _ _) Hp Hlen seg Hin) as Hlt.
    cbn [length] in Hlt.
    apply IH; [lia| |assumption..].
    rewrite group_as_filter. rewrite Forall_forall in *.
    intros x Hx. apply Hrange. apply filter_In in Hx. tauto. }
  destruct (projection_spec (map (boxAt boxes) (i :: j :: rest)) axisA _
                            (Hpage axisA)) as (projA & EA & _).
  rewrite EA. cbn [bind].
  destruct (1 <? length (splitProjectionProfile projA _ _))%nat eqn:EsA.
  - apply (Hsplit axisA projA EA). now apply Nat.ltb_lt.
  - destruct (projection_spec (map (boxAt boxes) (i :: j :: rest)) axisB _
                              (Hpage axisB)) as (projB & EB & _).
    rewrite EB. cbn [bind].
    destruct (1 <? length (splitProjectionProfile projB _ _))%nat eqn:EsB.
    + apply (Hsplit axisB projB EB). now apply Nat.ltb_lt.
    + eexists. reflexivity.
Qed.

End Output.


(** *** Boxes on the pixel grid are never left out *)

(** With [minValue = 0] the center of a box with integer bounds inside the
    page lies in the segment that holds its first pixel. *)
Lemma grid_box_in_segment (axis size minGap : Z) (sub : list LayoutBox)
      (proj : list Z) (b : LayoutBox) :
  projectionByBboxes sub axis size = Done proj ->
  In b sub -> shifted axis size 0 b b ->
  exists seg,
    In seg (splitProjectionProfile proj 0 minGap) /\
    in_segment (center_of axis b) seg = true.
Proof.
  intros Hp Hb (lo & hi & H1 & H2 & _ & _ & Hlo & Hlohi & Hhi & _).
  pose proof (projection_done_size _ _ _ _ Hp) as Hsize.
  destruct (projection_spec sub axis size Hsize) as (p & Ep & Hlen & Hnth).
  rewrite Hp in Ep. inversion Ep; subst p. clear Ep.
  assert (Hcov : forall k, lo <= k < hi -> occupied proj 0 k).
  { intros k Hk. unfold occupied, pixel. rewrite Hnth by lia.
    apply (coverage_pos axis size sub b); [assumption|].
    apply covers_iff.
    rewrite (truncQ_comp _ _ H1), (truncQ_comp _ _ H2), !truncQ_inject.
    lia. }
  destruct (split_cover proj 0 minGap lo ltac:(lia) (Hcov lo ltac:(lia)))
    as (seg & Hin & Hseg).
  exists seg. split; [assumption|].
  pose proof (split_good proj 0 minGap) as Hgood.
  rewrite Forall_forall in Hgood.
  destruct (Hgood _ Hin) as (_ & Hn & _ & Hend).
  assert (Hsnd : hi <= snd seg).
  { destruct Hend as [->|[_ Hrun]]; [lia|].
    destruct (Z_le_gt_dec hi (snd seg)) as [|Hgt]; [assumption|exfalso].
    unfold gapWidth in Hrun.
    destruct (Hrun (snd seg) ltac:(lia)) as [_ Hfree].
    apply Hfree. apply Hcov. lia. }
  apply in_segment_iff. rewrite center_of_eq, H1, H2.
  assert (Q1 : (inject_Z (fst seg) <= inject_Z lo)%Q)
    by (rewrite <- Zle_Qle; lia).
  assert (Q2 : (inject_Z hi <= inject_Z (snd seg))%Q)
    by (rewrite <- Zle_Qle; lia).
  assert (Q3 : (inject_Z lo < inject_Z hi)%Q) by (rewrite <- Zlt_Qlt; lia).
  split.
  - apply Qle_shift_div_l; [reflexivity|]. lra.
  - apply Qlt_shift_div_r; [reflexivity|]. lra.
Qed.

Lemma insert_in_one_piece (p : Z * Z -> nat -> bool) (x : nat)
      (l : list nat) (segs : list (Z * Z)) :
  StronglySorted before segs ->
  (forall seg seg' i, before seg seg' -> p seg i = true -> p seg' i = false) ->
  (exists seg, In seg segs /\ p seg x = true) ->
  Permutation (concat (map (fun seg => filter (p seg) (x :: l)) segs))
              (x :: concat (map (fun seg => filter (p seg) l) segs)).
Proof.
  intros Hsort Hdisj. induction Hsort as [|s segs Hsort IH Hall];
    intros (seg & Hin & Hseg); [contradiction|].
  cbn [map concat]. rewrite Forall_forall in Hall.
  change (filter (p s) (x :: l))
    with (if p s x then x :: filter (p s) l else filter (p s) l).
  destruct (p s x) eqn:Es.
  - cbn [app]. constructor. apply Permutation_app_head.
    assert (E : map (fun seg0 => filter (p seg0) (x :: l)) segs =
                map (fun seg0 => filter (p seg0) l) segs).
    { apply map_ext_in. intros s' Hs'. cbn [filter].
      now rewrite (Hdisj s s' x (Hall _ Hs') Es). }
    now rewrite E.
  - destruct Hin as [->|Hin]; [congruence|].
    rewrite (IH (ex_intro _ seg (conj Hin Hseg))).
    symmetry. apply Permutation_middle.
Qed.

(** Disjoint segments that hold every index cut the index list into pieces
    that make it up again. *)
Lemma pieces_partition (p : Z * Z -> nat -> bool) (l : list nat)
      (segs : list (Z * Z)) :
  StronglySorted before segs ->
  (forall seg seg' i, before seg seg' -> p seg i = true -> p seg' i = false) ->
  (forall i, In i l -> exists seg, In seg segs /\ p seg i = true) ->
  Permutation (concat (map (fun seg => filter (p seg) l) segs)) l.
Proof.
  intros Hsort Hdisj. induction l as [|x l IH]; intros Hcover.
  - cbn [filter]. clear. induction segs as [|s segs IHs]; [constructor|].
    exact IHs.
  - rewrite (insert_in_one_piece p x l segs Hsort Hdisj
               (Hcover x (or_introl eq_refl))).
    constructor. apply IH. intros i Hi. apply Hcover. now right.
Qed.

Lemma concat_permutation (segs : list (Z * Z)) (outs : list (list nat))
      (pieces : Z * Z -> list nat) :
  Forall2 (fun seg out => Permutation out (pieces seg)) segs outs ->
  Permutation (concat outs) (concat (map pieces segs)).
Proof.
  induction 1 as [|seg out segs outs Hp _ IH]; cbn [map concat];
    [constructor|].
  now apply Permutation_app.
Qed.

Section Complete.

Variable sort : (nat -> nat -> bool) -> list nat -> list nat.
Hypothesis sort_permutes : forall comp l, Permutation (sort comp l) l.
Variable leaf : list LayoutBox -> nat -> nat -> bool.
Variables axisA axisB : Z.
Variables (pageWidth pageHeight : Z) (config : XYCutConfig).
Hypothesis minVal_zero : minValOf config = 0.

Let cut := cutWith sort leaf axisA axisB.

Lemma cutWith_permutation (fuel : nat) :
  forall boxes indices result r,
    Forall (fun b => moved pageWidth pageHeight 0 0 b b) boxes ->
    cut fuel boxes indices pageWidth pageHeight config result = Done r ->
    exists out, r = result ++ out /\ Permutation out indices.
Proof.
  induction fuel as [|fuel IH]; intros boxes indices result r Hgrid Hrun;
    destruct indices as [|i [|j rest]]; cbn [cut cutWith] in Hrun;
    try (inversion Hrun; subst; exists []; rewrite app_nil_r;
         split; [reflexivity|constructor]);
    try (inversion Hrun; subst; exists [i]; split; reflexivity);
    try discriminate.
  unfold cut in Hrun. cbn [cutWith] in Hrun.
  destruct (gather boxes (i :: j :: rest)) as [sub| |] eqn:Eg;
    cbn [bind] in Hrun; try discriminate.
  destruct (gather_spec _ _ _ Eg) as [-> Hrange].
  rewrite minVal_zero in Hrun.
  assert (Hsplit : forall axis proj,
    projectionByBboxes (map (boxAt boxes) (i :: j :: rest)) axis
                       (page_of axis pageWidth pageHeight) = Done proj ->
    for_each
      (splitProjectionProfile proj 0
         (minGapOf (page_of axis pageWidth pageHeight) config))
      (fun seg res =>
         cutWith sort leaf axisA axisB fuel boxes
           (group (center_of axis) seg (i :: j :: rest)
                  (map (boxAt boxes) (i :: j :: rest)))
           pageWidth pageHeight config res)
      result = Done r ->
    exists out, r = result ++ out /\ Permutation out (i :: j :: rest)).
  { intros axis proj Hp Hfor.
    pose (p := fun (seg : Z * Z) k =>
                 in_segment (center_of axis (boxAt boxes k)) seg).
    apply (for_each_concat _ _
             (fun seg out =>
                Permutation out (filter (p seg) (i :: j :: rest)))) in Hfor.
    - destruct Hfor as (outs & -> & Houts).
      exists (concat outs). split; [reflexivity|].
      rewrite (concat_permutation _ _ _ Houts).
      apply pieces_partition.
      + apply split_sorted.
      + intros seg seg' k. apply in_segment_disjoint.
      + intros k Hk. unfold p.
        apply (grid_box_in_segment axis _ _ _ proj (boxAt boxes k) Hp).
        * now apply in_map.
        * rewrite Forall_forall in Hgrid, Hrange.
          assert (Hb : In (boxAt boxes k) boxes)
            by (apply nth_In; now apply Hrange).
          pose proof (moved_axis _ _ _ _ _ _ axis (Hgrid _ Hb)) as Hs.
          unfold offset_of in Hs. now destruct (axis =? 0).
    - intros seg res r' _ Hcall. rewrite group_as_filter in Hcall.
      now apply IH in Hcall. }
  destruct (projectionByBboxes _ axisA _) as [projA| |] eqn:EA;
    cbn [bind] in Hrun; try discriminate.
  destruct (1 <? length (splitProjectionProfile projA _ _))%nat;
    [now apply (Hsplit axisA projA)|].
  destruct (projectionByBboxes _ axisB _) as [projB| |] eqn:EB;
    cbn [bind] in Hrun; try discriminate.
  destruct (1 <? length (splitProjectionProfile projB _ _))%nat;
    [now apply (Hsplit axisB projB)|].
  inversion Hrun; subst. eexists. split; [reflexivity|].
  apply sort_permutes.
Qed.

End Complete.

Lemma on_grid_unmoved (W H : Z) (b : LayoutBox) :
  on_grid W H b -> moved W H 0 0 b b.
Proof.
  intros (a0 & b0 & a1 & b1 & X0 & Y0 & X1 & Y1 & Hb). split.
  - exists a0, a1. unfold axis_lo, axis_hi. cbn [Z.eqb].
    rewrite !Z.add_0_r. repeat split; try assumption; lia.
  - exists b0, b1. unfold axis_lo, axis_hi. cbn [Z.eqb].
    rewrite !Z.add_0_r. repeat split; try assumption; lia.
Qed.


Lemma xycutPlusSort_cases sort (boxes : list LayoutBox) (W H : Z)
      (config : XYCutConfig) :
  boxes <> [] ->
  exists leaf axisA axisB,
    xycutPlusSort sort boxes W H config =
    cutWith sort leaf axisA axisB (length boxes) boxes
            (seq 0 (length boxes)) W H config [].
Proof.
  intros Hne. unfold xycutPlusSort. destruct boxes as [|b boxes];
    [contradiction|].
  destruct (match direction config with
            | AUTO => detectTextDirection (b :: boxes)
            | d => d
            end).
  - exists leafLessXY, 0, 1. apply recursiveXYCut_cutWith.
  - exists leafLessYX, 1, 0. apply recursiveYXCut_cutWith.
  - exists leafLessYX, 1, 0. apply recursiveYXCut_cutWith.
Qed.

Lemma seq_in_range (n : nat) : Forall (fun i => (i < n)%nat) (seq 0 n).
Proof. apply Forall_forall. intros i Hi. apply in_seq in Hi. lia. Qed.

End XYCutFacts.

(** ** The order of the pieces of a cut *)

Module CutOrderFacts.

Import Profile ProfileFacts XYCut XYCutFacts.

(** [r] is [result] followed by one piece per segment, in the order of the
    segments; the piece of a segment is a permutation of the indices of the
    cluster whose box has its center in that segment. *)
Definition read_by_segments (center : LayoutBox -> Q) (boxes : list LayoutBox)
           (indices : list nat) (segs : list (Z * Z))
           (result r : list nat) : Prop :=
  exists outs,
    r = result ++ concat outs /\
    Forall2 (fun seg out =>
               Permutation out
                 (filter (fun i => in_segment (center (boxAt boxes i)) seg)
                         indices))
            segs outs.

Section Shape.

Variable sort : (nat -> nat -> bool) -> list nat -> list nat.
Hypothesis sort_permutes : forall comp l, Permutation (sort comp l) l.
Variable leaf : list LayoutBox -> nat -> nat -> bool.
Variables axisA axisB : Z.
Variables (W H : Z) (cfg : XYCutConfig).
Hypothesis minVal_zero : minValOf cfg = 0.

Let cut := cutWith sort leaf axisA axisB.

Lemma for_each_read (axis : Z) (fuel : nat) boxes indices segs result r :
  Forall (fun b => moved W H 0 0 b b) boxes ->
  for_each segs
    (fun seg res =>
       cut fuel boxes
         (group (center_of axis) seg indices (map (boxAt boxes) indices))
         W H cfg res)
    result = Done r ->
  read_by_segments (center_of axis) boxes indices segs result r.
Proof.
  intros Hgrid Hfor.
  apply (for_each_concat _ _
           (fun seg out =>
              Permutation out
                (filter (fun i => in_segment
                                    (center_of axis (boxAt boxes i)) seg)
                        indices))) in Hfor; [exact Hfor|].
  intros seg res r' _ Hcall. rewrite group_as_filter in Hcall.
  exact (cutWith_permutation sort sort_permutes leaf axisA axisB W H cfg
           minVal_zero fuel boxes _ res r' Hgrid Hcall).
Qed.

(** The three ways a cluster of two or more boxes on the pixel grid is
    handled; the cut returns in each of them. *)
Lemma cutWith_shape (fuel : nat) boxes indices result :
  Forall (fun b => moved W H 0 0 b b) boxes ->
  Forall (fun i => (i < length boxes)%nat) indices ->
  (2 <= length indices)%nat -> (length indices <= S fuel)%nat ->
  exists r projA,
    cut (S fuel) boxes indices W H cfg result = Done r /\
    projectionByBboxes (map (boxAt boxes) indices) axisA
                       (page_of axisA W H) = Done projA /\
    let segsA :=
      splitProjectionProfile projA (minValOf cfg)
                             (minGapOf (page_of axisA W H) cfg) in
    ((2 <= length segsA)%nat ->
     read_by_segments (center_of axisA) boxes indices segsA result r) /\
    ((length segsA <= 1)%nat ->
     exists projB,
       projectionByBboxes (map (boxAt boxes) indices) axisB
                          (page_of axisB W H) = Done projB /\
       let segsB :=
         splitProjectionProfile projB (minValOf cfg)
                                (minGapOf (page_of axisB W H) cfg) in
       ((2 <= length segsB)%nat ->
        read_by_segments (center_of axisB) boxes indices segsB result r) /\
       ((length segsB <= 1)%nat ->
        r = result ++ sort (leaf boxes) indices)).
Proof.
  intros Hgrid Hrange Hlen Hfuel.
  assert (Hpage : 0 <= W /\ 0 <= H).
  { destruct indices as [|i rest]; [cbn in Hlen; lia|].
    inversion Hrange as [|? ? Hi _]; subst.
    destruct boxes as [|b boxes']; [cbn in Hi; lia|].
    inversion Hgrid as [|? ? [(lo & hi & _ & _ & _ & _ & Hx)
                               (lo' & hi' & _ & _ & _ & _ & Hy)] _].
    lia. }
  destruct (cutWith_done sort leaf axisA axisB (S fuel) boxes indices
              W H cfg result Hfuel Hrange (proj1 Hpage) (proj2 Hpage))
    as (r & Hrun).
  exists r.
  destruct indices as [|i [|j rest]]; cbn in Hlen; try lia.
  pose proof Hrun as Hcut. cbn [cutWith] in Hrun.
  destruct (gather boxes (i :: j :: rest)) as [sub| |] eqn:Eg;
    cbn [bind] in Hrun; try discriminate.
  destruct (gather_spec _ _ _ Eg) as [-> _].
  destruct (projectionByBboxes _ axisA _) as [projA| |];
    cbn [bind] in Hrun; try discriminate.
  exists projA. split; [exact Hcut|]. split; [reflexivity|]. cbv zeta.
  destruct (1 <? length (splitProjectionProfile projA _ _))%nat eqn:EA.
  { apply Nat.ltb_lt in EA. split; [|lia].
    intros _. exact (for_each_read axisA fuel _ _ _ _ _ Hgrid Hrun). }
  apply Nat.ltb_ge in EA. split; [lia|]. intros _.
  destruct (projectionByBboxes _ axisB _) as [projB| |];
    cbn [bind] in Hrun; try discriminate.
  exists projB. split; [reflexivity|]. cbv zeta.
  destruct (1 <? length (splitProjectionProfile projB _ _))%nat eqn:EB.
  { apply Nat.ltb_lt in EB. split; [|lia].
    intros _. exact (for_each_read axisB fuel _ _ _ _ _ Hgrid Hrun). }
  apply Nat.ltb_ge in EB. split; [lia|]. intros _.
  now inversion Hrun.
Qed.

End Shape.

(** *** Leaf clusters of stacked boxes and of boxes on one line *)

(** Two boxes whose vertical extents do not overlap. *)
Definition stacked (a b : LayoutBox) : Prop :=
  (y1 a <= y0 b)%Q \/ (y1 b <= y0 a)%Q.

Lemma Qltb_false_iff (x y : Q) : Qltb x y = false <-> (y <= x)%Q.
Proof.
  rewrite <- not_true_iff_false, Qltb_iff. split.
  - apply Qnot_lt_le.
  - intros H H'. exact (Qle_not_lt _ _ H H').
Qed.

Lemma stacked_not_same_line (a b : LayoutBox) :
  (0 <= height a)%Q -> (0 <= height b)%Q -> stacked a b ->
  ~ same_line a b.
Proof.
  unfold stacked, same_line, height, center_y. intros Ha Hb Hs Hl.
  assert (Hmin : (Qmin (y1 a - y0 a) (y1 b - y0 b) <= y1 a - y0 a)%Q)
    by apply Q.le_min_l.
  assert (Hmin' : (Qmin (y1 a - y0 a) (y1 b - y0 b) <= y1 b - y0 b)%Q)
    by apply Q.le_min_r.
  revert Hl. apply Qle_not_lt.
  set (m := Qmin (y1 a - y0 a) (y1 b - y0 b)) in *.
  set (d := ((y0 a + y1 a) / 2 - (y0 b + y1 b) / 2)%Q).
  assert (Ed : (d == (y0 a + y1 a - y0 b - y1 b) * (1 # 2))%Q)
    by (unfold d; field).
  destruct Hs as [Hs|Hs].
  - apply Qle_trans with (- d)%Q; [rewrite Ed; lra|].
    rewrite <- Qabs_opp. apply Qle_Qabs.
  - apply Qle_trans with d; [rewrite Ed; lra|apply Qle_Qabs].
Qed.

(** On a cluster of pairwise stacked boxes the comparator of
    [recursiveXYCut] compares the vertical centers. *)
Lemma leafLessXY_stacked (boxes : list LayoutBox) (indices : list nat) :
  (forall a, In a indices -> (0 <= height (boxAt boxes a))%Q) ->
  (forall a b, In a indices -> In b indices -> a <> b ->
               stacked (boxAt boxes a) (boxAt boxes b)) ->
  forall a b, In a indices -> In b indices ->
              leafLessXY boxes a b
              = Qltb (center_y (boxAt boxes a)) (center_y (boxAt boxes b)).
Proof.
  intros Hh Hst a b Ha Hb.
  destruct (Nat.eq_dec a b) as [<-|Hab].
  - rewrite (Qltb_irrefl_eq (center_y _) (center_y _)) by reflexivity.
    apply not_true_iff_false. rewrite leafLessXY_iff.
    intros [[_ H]|[_ H]]; exact (Qlt_irrefl _ H).
  - pose proof (stacked_not_same_line _ _ (Hh a Ha) (Hh b Hb)
                  (Hst a b Ha Hb Hab)) as Hns.
    destruct (Qltb (center_y (boxAt boxes a)) (center_y (boxAt boxes b)))
      eqn:E.
    + apply leafLessXY_iff. right. split; [exact Hns|].
      now apply Qltb_iff.
    + apply not_true_iff_false. rewrite leafLessXY_iff.
      apply Qltb_false_iff in E.
      intros [[Hl _]|[_ Hlt]]; [now apply Hns|].
      exact (Qle_not_lt _ _ E Hlt).
Qed.

(** On a cluster of boxes that are pairwise on the same line the
    comparator of [recursiveXYCut] compares the horizontal centers. *)
Lemma leafLessXY_one_line (boxes : list LayoutBox) (indices : list nat) :
  (forall a b, In a indices -> In b indices -> a <> b ->
               same_line (boxAt boxes a) (boxAt boxes b)) ->
  forall a b, In a indices -> In b indices ->
              leafLessXY boxes a b
              = Qltb (center_x (boxAt boxes a)) (center_x (boxAt boxes b)).
Proof.
  intros Hline a b Ha Hb.
  destruct (Nat.eq_dec a b) as [<-|Hab].
  - rewrite (Qltb_irrefl_eq (center_x _) (center_x _)) by reflexivity.
    apply not_true_iff_false. rewrite leafLessXY_iff.
    intros [[_ H]|[_ H]]; exact (Qlt_irrefl _ H).
  - pose proof (Hline a b Ha Hb Hab) as Hs.
    destruct (Qltb (center_x (boxAt boxes a)) (center_x (boxAt boxes b)))
      eqn:E.
    + apply leafLessXY_iff. left. split; [exact Hs|].
      now apply Qltb_iff.
    + apply not_true_iff_false. rewrite leafLessXY_iff.
      apply Qltb_false_iff in E.
      intros [[_ Hlt]|[Hn _]]; [|now apply Hn].
      exact (Qle_not_lt _ _ E Hlt).
Qed.

Lemma by_key_strict_weak (key : nat -> Q) (comp : nat -> nat -> bool)
      (l : list nat) :
  (forall a b, In a l -> In b l -> comp a b = Qltb (key a) (key b)) ->
  strict_weak_on comp l.
Proof.
  intros Hc. split.
  - intros a Ha. rewrite (Hc a a Ha Ha).
    now apply Qltb_irrefl_eq.
  - intros a b c Ha Hb Hc'. rewrite (Hc a b), (Hc b c), (Hc a c)
      by assumption.
    rewrite !Qltb_iff. apply Qlt_trans.
  - intros a b c Ha Hb Hc'. unfold incomparable.
    rewrite (Hc a b), (Hc b a), (Hc b c), (Hc c b), (Hc a c), (Hc c a)
      by assumption.
    rewrite !Qltb_false_iff. intros [H1 H2] [H3 H4].
    split; eapply Qle_trans; eassumption.
Qed.

Lemma StronglySorted_impl_in {A : Type} (R R' : A -> A -> Prop)
      (l : list A) :
  (forall a b, In a l -> In b l -> R a b -> R' a b) ->
  StronglySorted R l -> StronglySorted R' l.
Proof.
  intros Himp Hs. induction Hs as [|a l Hs IH Hall]; [constructor|].
  constructor.
  - apply IH. intros x y Hx Hy. apply Himp; now right.
  - rewrite Forall_forall in *. intros x Hx.
    apply Himp; [now left|now right|now apply Hall].
Qed.

(** Two columns, and two lines of text set close to each other. *)
Definition two_columns : list LayoutBox :=
  [box 600 0 700 500; box 0 0 100 500].

Definition two_lines : list LayoutBox :=
  [box 300 30 900 50; box 0 0 1000 20].

(** Two words of one line, the second one listed first. *)
Definition two_words : list LayoutBox :=
  [box 120 2 300 22; box 0 0 100 20].

Definition horizontalDefault : XYCutConfig :=
  mkXYCutConfig HORIZONTAL (1 # 20) 0.

Definition verticalDefault : XYCutConfig :=
  mkXYCutConfig VERTICAL (1 # 20) 0.

Lemma two_lines_is_leaf :
  is_leaf two_lines [0; 1]%nat 1000 1000 horizontalDefault.
Proof.
  split; [cbn; lia|].
  eexists _, _, _. split; [reflexivity|].
  split; [vm_compute; reflexivity|]. split; [vm_compute; reflexivity|].
  split; vm_compute; lia.
Qed.

Lemma two_words_is_leaf :
  is_leaf two_words [0; 1]%nat 1000 1000 horizontalDefault.
Proof.
  split; [cbn; lia|].
  eexists _, _, _. split; [reflexivity|].
  split; [vm_compute; reflexivity|]. split; [vm_compute; reflexivity|].
  split; vm_compute; lia.
Qed.

End CutOrderFacts.

(** ** Categories and boxes *)

Module TypesFacts.

Import Types.

Lemma categoryValue_inj (a b : LayoutCategory) :
  categoryValue a = categoryValue b -> a = b.
Proof. destruct a, b; cbn; intros E; try reflexivity; discriminate E. Qed.

Lemma categoryEq_iff (a b : LayoutCategory) : categoryEq a b = true <-> a = b.
Proof.
  unfold categoryEq. rewrite Z.eqb_eq. split.
  - apply categoryValue_inj.
  - now intros ->.
Qed.

(** Lists split by a test that sends every element to one of two sides. *)
Lemma filter_split_perm {A : Type} (p : A -> bool) (l : list A) :
  Permutation (filter p l ++ filter (fun a => negb (p a)) l) l.
Proof.
  induction l as [|a l IH]; [constructor|].
  cbn [filter]. destruct (p a); cbn [negb app].
  - now constructor.
  - symmetry. apply Permutation_cons_app. now symmetry.
Qed.

(** The categories that no stage of the page pipeline picks up. *)
Definition unclaimed (cat : LayoutCategory) : bool :=
  match cat with
  | FIGURE_CAPTION | TABLE_CAPTION | TABLE_FOOTNOTE | STAMP | TOC
  | SEPARATOR | UNKNOWN => true
  | _ => false
  end.

Lemma Permutation_into {A : Type} (a : A) (l l1 l2 : list A) :
  Permutation (l1 ++ l2) l -> Permutation (l1 ++ a :: l2) (a :: l).
Proof.
  intros H. symmetry. apply Permutation_cons_app. now symmetry.
Qed.

(** The four selections of the page pipeline hold no more boxes than
    there are. *)
Lemma selections_length (r : LayoutResult) :
  (length (getTextBoxes r) + length (getTableBoxes r)
   + length (getBoxesByCategory r FIGURE)
   + length (getUnsupportedBoxes r) <= length (boxes r))%nat.
Proof.
  destruct r as [l]. unfold getTextBoxes, getTableBoxes,
    getBoxesByCategory, getUnsupportedBoxes. cbn [boxes].
  induction l as [|b l IH]; [cbn; lia|].
  cbn [filter]. destruct (category b); cbn; lia.
Qed.

(** *** Truncation of sums and scaled quotients *)

Lemma truncQ_add_bounds (p q : Q) :
  (0 <= p)%Q -> (0 <= q)%Q ->
  truncQ (p + q) - 1 <= truncQ p + truncQ q <= truncQ (p + q).
Proof.
  intros Hp Hq.
  rewrite !truncQ_nonneg by lra.
  pose proof (Qfloor_le p) as Lp. pose proof (Qfloor_le q) as Lq.
  pose proof (Qlt_floor p) as Up. pose proof (Qlt_floor q) as Uq.
  pose proof (Qfloor_le (p + q)) as Ls.
  pose proof (Qlt_floor (p + q)) as Us.
  rewrite inject_Z_plus in Up, Uq, Us.
  change (inject_Z 1) with 1%Q in Up, Uq, Us.
  split.
  - assert (H : (inject_Z (Qfloor (p + q))
                 < inject_Z (Qfloor p + Qfloor q + 2))%Q).
    { rewrite !inject_Z_plus. change (inject_Z 2) with 2%Q. lra. }
    rewrite <- Zlt_Qlt in H. lia.
  - assert (H : (inject_Z (Qfloor p + Qfloor q)
                 < inject_Z (Qfloor (p + q) + 1))%Q).
    { rewrite !inject_Z_plus. change (inject_Z 1) with 1%Q. lra. }
    rewrite <- Zlt_Qlt in H. lia.
Qed.

Lemma scaled_bounds (c : Q) (page : Z) :
  0 < page -> (0 <= c)%Q -> (c <= inject_Z page)%Q ->
  (0 <= c / inject_Z page * 1000)%Q /\ (c / inject_Z page * 1000 <= 1000)%Q.
Proof.
  intros Hpage H0 H1.
  assert (Hp : (0 < inject_Z page)%Q) by (rewrite <- (Zlt_Qlt 0); exact Hpage).
  assert (Hq0 : (0 <= c / inject_Z page)%Q) by (apply Qle_shift_div_l; lra).
  assert (Hq1 : (c / inject_Z page <= 1)%Q) by (apply Qle_shift_div_r; lra).
  split; lra.
Qed.

Lemma scaled_mono (c d : Q) (page : Z) :
  0 < page -> (c <= d)%Q ->
  (c / inject_Z page * 1000 <= d / inject_Z page * 1000)%Q.
Proof.
  intros Hpage H.
  assert (Hp : (0 < inject_Z page)%Q) by (rewrite <- (Zlt_Qlt 0); exact Hpage).
  apply Qmult_le_compat_r; [|lra].
  unfold Qdiv. apply Qmult_le_compat_r; [exact H|].
  apply Qlt_le_weak, Qinv_lt_0_compat, Hp.
Qed.

End TypesFacts.

(** ** The page pipeline *)

Module PipelineFacts.

Import Types Config Pipeline TypesFacts.
Import String.StringSyntax.
Local Open Scope string_scope.

(** *** Elements up to their reading order *)

Definition same_content (e e' : ContentElement.t) : Prop :=
  setReadingOrder 0 e = setReadingOrder 0 e'.

Lemma same_content_refl e : same_content e e.
Proof. reflexivity. Qed.

Lemma same_content_set i e : same_content (setReadingOrder i e) e.
Proof. reflexivity. Qed.

Lemma same_content_trans e1 e2 e3 :
  same_content e1 e2 -> same_content e2 e3 -> same_content e1 e3.
Proof. unfold same_content. congruence. Qed.

Lemma same_content_fields e e' :
  same_content e e' ->
  ContentElement.type e = ContentElement.type e' /\
  ContentElement.text e = ContentElement.text e' /\
  ContentElement.imagePath e = ContentElement.imagePath e' /\
  ContentElement.html e = ContentElement.html e' /\
  ContentElement.layoutBox e = ContentElement.layoutBox e' /\
  ContentElement.pageIndex e = ContentElement.pageIndex e' /\
  ContentElement.confidence e = ContentElement.confidence e' /\
  ContentElement.skipped e = ContentElement.skipped e'.
Proof.
  destruct e, e'. unfold same_content, setReadingOrder. cbn.
  intros E. inversion E. repeat split; reflexivity.
Qed.

(** *** The loop that rebuilds the elements *)

Lemma assign_length {A : Type} (v : list A) idx e :
  length (assign v idx e) = length v.
Proof.
  revert idx. induction v as [|a v IH]; intros [|idx]; cbn; auto.
Qed.

Lemma assign_same (v v0 : list ContentElement.t) idx e e' :
  Forall2 same_content v v0 ->
  nth_error v idx = Some e -> same_content e' e ->
  Forall2 same_content (assign v idx e') v0.
Proof.
  intros H. revert idx. induction H as [|a b v v0 Hab H IH];
    intros [|idx] Hn He; cbn in *; try discriminate.
  - inversion Hn; subst. constructor; [|assumption].
    eapply same_content_trans; eassumption.
  - constructor; [assumption|]. now apply IH.
Qed.

Lemma Forall2_nth_error_left {A B : Type} (R : A -> B -> Prop) l l' n a :
  Forall2 R l l' -> nth_error l n = Some a ->
  exists b, nth_error l' n = Some b /\ R a b.
Proof.
  intros H. revert n. induction H as [|x y l l' Hxy H IH];
    intros [|n] Hn; cbn in *; try discriminate.
  - inversion Hn; subst. eauto.
  - now apply IH.
Qed.

(** The elements picked by a list of indices, numbered from [i]. *)
Inductive picked (elements : list ContentElement.t)
  : Z -> list nat -> list ContentElement.t -> Prop :=
| picked_nil i : picked elements i [] []
| picked_cons i idx rest e e' out :
    nth_error elements idx = Some e ->
    same_content e' e ->
    ContentElement.readingOrder e' = i ->
    picked elements (i + 1) rest out ->
    picked elements i (idx :: rest) (e' :: out).

Lemma reorder_picks (elements0 : list ContentElement.t) :
  forall sortedIndices i elements sortedElements,
    Forall2 same_content elements elements0 ->
    Forall (fun idx => (idx < length elements0)%nat) sortedIndices ->
    exists out,
      reorder sortedIndices i elements sortedElements
      = Done (sortedElements ++ out) /\
      picked elements0 i sortedIndices out.
Proof.
  induction sortedIndices as [|idx rest IH];
    intros i elements acc Hsame Hrange.
  - exists []. rewrite app_nil_r. split; [reflexivity|constructor].
  - inversion Hrange as [|? ? Hidx Hrest]; subst. cbn [reorder].
    assert (Hlen : length elements = length elements0)
      by (eapply Forall2_length; eassumption).
    destruct (nth_error elements idx) as [e|] eqn:En.
    2:{ apply nth_error_None in En. lia. }
    destruct (Forall2_nth_error_left _ _ _ _ _ Hsame En) as (e0 & En0 & He).
    destruct (IH (i + 1) (assign elements idx (setReadingOrder i e))
                 (acc ++ [setReadingOrder i e])) as (out & Hrun & Hout).
    + eapply assign_same; [eassumption|eassumption|apply same_content_set].
    + assumption.
    + exists (setReadingOrder i e :: out). split.
      * rewrite Hrun, <- app_assoc. reflexivity.
      * econstructor; [exact En0| |reflexivity|exact Hout].
        eapply same_content_trans; [apply same_content_set|exact He].
Qed.

Lemma Forall2_refl {A : Type} (R : A -> A -> Prop) (l : list A) :
  (forall a, R a a) -> Forall2 R l l.
Proof. intros H. induction l; constructor; auto. Qed.

Lemma picked_length elements i idxs out :
  picked elements i idxs out -> length out = length idxs.
Proof. induction 1; cbn; congruence. Qed.

Lemma picked_numbering elements i idxs out :
  picked elements i idxs out ->
  forall k e, nth_error out k = Some e ->
              ContentElement.readingOrder e = i + Z.of_nat k.
Proof.
  induction 1 as [|i idx rest e e' out Hn Hs Hr Hp IH]; intros k x Hk.
  - destruct k; discriminate.
  - destruct k as [|k]; cbn in Hk.
    + inversion Hk; subst. lia.
    + rewrite (IH _ _ Hk). lia.
Qed.

Lemma picked_in elements i idxs out :
  picked elements i idxs out ->
  forall e', In e' out ->
             exists e, In e elements /\ same_content e' e.
Proof.
  induction 1 as [|i idx rest e e' out Hn Hs Hr Hp IH]; intros x Hx.
  - destruct Hx.
  - destruct Hx as [<-|Hx].
    + exists e. split; [eapply nth_error_In; eassumption|assumption].
    + now apply IH.
Qed.

Definition blank : ContentElement.t :=
  ContentElement.make XYCut.defaultBox.

Lemma picked_map elements i idxs out :
  picked elements i idxs out ->
  map (setReadingOrder 0) out =
  map (fun idx => setReadingOrder 0 (nth idx elements blank)) idxs.
Proof.
  induction 1 as [|i idx rest e e' out Hn Hs Hr Hp IH]; [reflexivity|].
  cbn [map]. rewrite IH. f_equal.
  rewrite (nth_error_nth _ _ _ Hn). exact Hs.
Qed.

Lemma map_nth_seq {A : Type} (l : list A) (d : A) :
  map (fun idx => nth idx l d) (seq 0 (length l)) = l.
Proof.
  induction l as [|a l IH]; [reflexivity|].
  cbn [length seq map nth]. f_equal.
  rewrite <- seq_shift, map_map. exact IH.
Qed.

Lemma picked_permutation elements idxs out :
  picked elements 0 idxs out ->
  Permutation idxs (seq 0 (length elements)) ->
  Permutation (map (setReadingOrder 0) out)
              (map (setReadingOrder 0) elements).
Proof.
  intros Hp Hperm. rewrite (picked_map _ _ _ _ Hp).
  transitivity
    (map (setReadingOrder 0)
         (map (fun idx => nth idx elements blank)
              (seq 0 (length elements)))).
  - rewrite map_map. now apply Permutation_map.
  - now rewrite map_nth_seq.
Qed.

(** *** What [xycutPlusSort] returns to the page code *)

Section Sorted.

Variable sort : (nat -> nat -> bool) -> list nat -> list nat.
Hypothesis sort_permutes : forall comp l, Permutation (sort comp l) l.

Lemma xycutPlusSort_output (boxes : list LayoutBox) (W H : Z)
      (config : XYCutConfig) :
  0 <= W -> 0 <= H ->
  exists out,
    XYCut.xycutPlusSort sort boxes W H config = Done out /\
    NoDup out /\
    Forall (fun i => (i < length boxes)%nat) out.
Proof.
  intros HW HH. destruct boxes as [|b boxes].
  - exists []. repeat split; constructor.
  - destruct (XYCutFacts.xycutPlusSort_cases sort (b :: boxes) W H config)
      as (leaf & axisA & axisB & ->); [discriminate|].
    destruct (XYCutFacts.cutWith_done
                sort leaf axisA axisB (length (b :: boxes))
                (b :: boxes) (seq 0 (length (b :: boxes))) W H config [])
      as (r & Hr);
      [now rewrite length_seq|apply XYCutFacts.seq_in_range|assumption..|].
    destruct (XYCutFacts.cutWith_output
                sort sort_permutes leaf
                axisA axisB _ _ _ _ _ _ _ r (seq_NoDup _ 0) Hr)
      as (out & -> & Hnd & Hincl).
    exists out. split; [exact Hr|]. split; [exact Hnd|].
    apply Forall_forall. intros i Hi. apply Hincl, in_seq in Hi. lia.
Qed.

Lemma xycutPlusSort_permutation (boxes : list LayoutBox) (W H : Z)
      (config : XYCutConfig) :
  XYCut.minValOf config = 0 ->
  Forall (XYCutFacts.on_grid W H) boxes ->
  forall out,
    XYCut.xycutPlusSort sort boxes W H config = Done out ->
    Permutation out (seq 0 (length boxes)).
Proof.
  intros Hval Hgrid out Hrun. destruct boxes as [|b boxes].
  - cbn in Hrun. inversion Hrun. constructor.
  - destruct (XYCutFacts.xycutPlusSort_cases sort (b :: boxes) W H config)
      as (leaf & axisA & axisB & E); [discriminate|].
    rewrite E in Hrun.
    destruct (XYCutFacts.cutWith_permutation
                sort sort_permutes leaf
                axisA axisB W H config Hval (length (b :: boxes))
                (b :: boxes) (seq 0 (length (b :: boxes))) [] out)
      as (out' & -> & Hperm); [|exact Hrun|exact Hperm].
    eapply Forall_impl; [|exact Hgrid]. apply XYCutFacts.on_grid_unmoved.
Qed.

End Sorted.

(** *** The reading-order step *)

Section Step3.

Variable Mat : Type.
Variables cols rows : Mat -> Z.
Variable sort : (nat -> nat -> bool) -> list nat -> list nat.
Hypothesis sort_permutes : forall comp l, Permutation (sort comp l) l.

Lemma readingOrderSort_cases (p : DocPipeline.t) (image : Mat)
      (elements : list ContentElement.t) :
  0 <= cols image -> 0 <= rows image ->
  (readingOrderSort Mat cols rows sort p image elements = Done elements /\
   (enableReadingOrder (stages (DocPipeline.config_ p)) = false \/
    elements = [])) \/
  (enableReadingOrder (stages (DocPipeline.config_ p)) = true /\
   exists idxs sorted,
     XYCut.xycutPlusSort sort (map ContentElement.layoutBox elements)
                         (cols image) (rows image) defaultConfig
     = Done idxs /\
     NoDup idxs /\
     readingOrderSort Mat cols rows sort p image elements = Done sorted /\
     picked elements 0 idxs sorted).
Proof.
  intros HW HH. unfold readingOrderSort.
  destruct (enableReadingOrder (stages (DocPipeline.config_ p)));
    [|left; split; [reflexivity|now left]].
  destruct elements as [|e elements];
    [left; split; [reflexivity|now right]|].
  right. split; [reflexivity|]. cbn [andb negb].
  destruct (xycutPlusSort_output
              sort sort_permutes
              (map ContentElement.layoutBox (e :: elements))
              (cols image) (rows image) defaultConfig HW HH)
    as (idxs & Hrun & Hnd & Hrange).
  rewrite length_map in Hrange.
  destruct (reorder_picks (e :: elements) idxs 0 (e :: elements) [])
    as (sorted & Hre & Hp);
    [apply Forall2_refl, same_content_refl|exact Hrange|].
  exists idxs, sorted. rewrite Hrun. cbn [bind].
  repeat split; assumption.
Qed.

Lemma readingOrderSort_length (p : DocPipeline.t) (image : Mat)
      (elements sorted : list ContentElement.t) :
  0 <= cols image -> 0 <= rows image ->
  readingOrderSort Mat cols rows sort p image elements = Done sorted ->
  (length sorted <= length elements)%nat.
Proof.
  intros HW HH Hrun.
  destruct (readingOrderSort_cases p image elements HW HH)
    as [[E _]|(_ & idxs & sorted' & Hx & Hnd & E & Hp)];
    rewrite E in Hrun; inversion Hrun; subst; [lia|].
  rewrite (picked_length _ _ _ _ Hp).
  destruct (xycutPlusSort_output
              sort sort_permutes (map ContentElement.layoutBox elements)
              (cols image) (rows image) defaultConfig HW HH)
    as (idxs' & Hx' & _ & Hrange).
  rewrite Hx in Hx'. inversion Hx'; subst idxs'.
  rewrite length_map in Hrange.
  apply Nat.le_trans with (length (seq 0 (length elements)));
    [|now rewrite length_seq].
  apply NoDup_incl_length; [exact Hnd|].
  intros i Hi. apply in_seq. rewrite Forall_forall in Hrange.
  specialize (Hrange i Hi). lia.
Qed.

Lemma readingOrderSort_done (p : DocPipeline.t) (image : Mat)
      (elements : list ContentElement.t) :
  0 <= cols image -> 0 <= rows image ->
  exists sorted,
    readingOrderSort Mat cols rows sort p image elements = Done sorted.
Proof.
  intros HW HH.
  destruct (readingOrderSort_cases p image elements HW HH)
    as [[E _]|(_ & idxs & sorted & _ & _ & E & _)]; eauto.
Qed.

Lemma readingOrderSort_keeps (P : ContentElement.t -> Prop)
      (p : DocPipeline.t) (image : Mat)
      (elements sorted : list ContentElement.t) :
  (forall e e', same_content e' e -> P e -> P e') ->
  0 <= cols image -> 0 <= rows image ->
  Forall P elements ->
  readingOrderSort Mat cols rows sort p image elements = Done sorted ->
  Forall P sorted.
Proof.
  intros HP HW HH Hall Hrun.
  destruct (readingOrderSort_cases p image elements HW HH)
    as [[E _]|(_ & idxs & sorted' & _ & _ & E & Hp)];
    rewrite E in Hrun; inversion Hrun; subst; [assumption|].
  apply Forall_forall. intros e' He'.
  destruct (picked_in _ _ _ _ Hp e' He') as (e & He & Hs).
  apply (HP e e' Hs). rewrite Forall_forall in Hall. now apply Hall.
Qed.

End Step3.

(** *** The stages of step 2 *)

(** The type of the element that the page code makes of a box, by the
    category of the box; [None] for the categories it makes nothing of. *)
Definition elementType (cat : LayoutCategory)
  : option ContentElement.Type_ :=
  match cat with
  | TITLE => Some ContentElement.TITLE
  | TEXT | CONTENT | LIST | CODE | ABSTRACT | REFERENCE | INDEX | HEADER
  | FOOTER => Some ContentElement.TEXT
  | TABLE => Some ContentElement.TABLE
  | FIGURE => Some ContentElement.IMAGE
  | EQUATION | INTERLINE_EQUATION => Some ContentElement.EQUATION
  | _ => None
  end.

Section Step2.

Variable Mat : Type.
Variables cols rows : Mat -> Z.
Variable rectAnd : cv.Rect -> cv.Rect -> cv.Rect.
Variable crop : Mat -> cv.Rect -> Mat.
Variable estimateTableType : Mat -> TableType.t.

(** The figure boxes that [saveExtractedImages] keeps, each with its
    position among the figure boxes of the page, counted from [i]. *)
Fixpoint keptFigures (image : Mat) (figureBoxes : list LayoutBox) (i : Z)
  : list (Z * LayoutBox) :=
  match figureBoxes with
  | [] => []
  | box :: rest =>
      let roi := rectAnd (toRect box) (pageRect Mat cols rows image) in
      if (cv.width roi <=? 0) || (cv.height roi <=? 0) then
        keptFigures image rest (i + 1)
      else (i, box) :: keptFigures image rest (i + 1)
  end.

Definition imageElement (pageIndex : Z) (ib : Z * LayoutBox)
  : ContentElement.t :=
  ContentElement.mk ContentElement.IMAGE String.EmptyString
                    (figureFilename pageIndex (fst ib)) String.EmptyString
                    (snd ib) pageIndex 0 0 false.

Definition imageFile (p : DocPipeline.t) (image : Mat) (pageIndex : Z)
           (ib : Z * LayoutBox) : String.string * Mat :=
  (figureFilepath (DocPipeline.config_ p)
                  (figureFilename pageIndex (fst ib)),
   crop image (rectAnd (toRect (snd ib)) (pageRect Mat cols rows image))).

Lemma saveLoop_closed (p : DocPipeline.t) (image : Mat) (pageIndex : Z) :
  forall figureBoxes i elements written,
    saveLoop Mat cols rows rectAnd crop p image figureBoxes i pageIndex
             elements written =
    (elements ++ map (imageElement pageIndex)
                     (keptFigures image figureBoxes i),
     written ++ map (imageFile p image pageIndex)
                    (keptFigures image figureBoxes i)).
Proof.
  induction figureBoxes as [|box rest IH]; intros i elements written.
  - cbn. now rewrite !app_nil_r.
  - cbn [saveLoop keptFigures].
    destruct ((cv.width _ <=? 0) || (cv.height _ <=? 0)).
    + apply IH.
    + rewrite IH. cbn [map]. now rewrite <- !app_assoc.
Qed.

Lemma keptFigures_spec (image : Mat) :
  forall figureBoxes i ib,
    In ib (keptFigures image figureBoxes i) ->
    i <= fst ib /\
    nth_error figureBoxes (Z.to_nat (fst ib - i)) = Some (snd ib) /\
    negb ((cv.width (rectAnd (toRect (snd ib))
                             (pageRect Mat cols rows image)) <=? 0)
          || (cv.height (rectAnd (toRect (snd ib))
                                 (pageRect Mat cols rows image)) <=? 0))
    = true.
Proof.
  induction figureBoxes as [|box rest IH]; intros i ib Hin; [destruct Hin|].
  cbn [keptFigures] in Hin.
  assert (Hrest : In ib (keptFigures image rest (i + 1)) ->
                  i <= fst ib /\
                  nth_error (box :: rest) (Z.to_nat (fst ib - i))
                  = Some (snd ib) /\
                  negb ((cv.width (rectAnd (toRect (snd ib))
                                     (pageRect Mat cols rows image)) <=? 0)
                        || (cv.height (rectAnd (toRect (snd ib))
                                     (pageRect Mat cols rows image)) <=? 0))
                  = true).
  { intros H. destruct (IH _ _ H) as (Hi & Hn & Hroi).
    split; [lia|]. split; [|exact Hroi].
    replace (Z.to_nat (fst ib - i)) with (S (Z.to_nat (fst ib - (i + 1))))
      by lia.
    exact Hn. }
  destruct ((cv.width _ <=? 0) || (cv.height _ <=? 0)) eqn:Eroi;
    [now apply Hrest|].
  destruct Hin as [<-|Hin]; [|now apply Hrest].
  cbn [fst snd]. split; [lia|]. split.
  - now replace (i - i) with 0 by lia.
  - now rewrite Eroi.
Qed.

Lemma keptFigures_length (image : Mat) :
  forall figureBoxes i,
    length (keptFigures image figureBoxes i) =
    length (filter
              (fun box =>
                 negb ((cv.width (rectAnd (toRect box)
                                    (pageRect Mat cols rows image)) <=? 0)
                       || (cv.height (rectAnd (toRect box)
                                    (pageRect Mat cols rows image)) <=? 0)))
              figureBoxes).
Proof.
  induction figureBoxes as [|box rest IH]; intros i; [reflexivity|].
  cbn [keptFigures filter].
  destruct ((cv.width _ <=? 0) || (cv.height _ <=? 0)); cbn [negb length];
    now rewrite IH.
Qed.

Lemma keptFigures_positions (image : Mat) :
  forall figureBoxes i,
    NoDup (map fst (keptFigures image figureBoxes i)).
Proof.
  induction figureBoxes as [|box rest IH]; intros i; [constructor|].
  cbn [keptFigures].
  destruct ((cv.width _ <=? 0) || (cv.height _ <=? 0)); [apply IH|].
  cbn [map fst]. constructor; [|apply IH].
  intros Hin. apply in_map_iff in Hin. destruct Hin as (ib & E & Hin).
  apply keptFigures_spec in Hin. lia.
Qed.

(** The elements of step 2, stage by stage. *)
Lemma processCategories_closed (p : DocPipeline.t) (image : Mat)
      (pageIndex : Z) (layoutResult : LayoutResult) :
  processCategories Mat cols rows rectAnd crop estimateTableType p image
                    pageIndex layoutResult =
  (((if DocPipeline.ocrPipeline_ p
        && enableOcr (stages (DocPipeline.config_ p)) then
       runOcrOnRegions Mat image (getTextBoxes layoutResult)
     else []) ++
    (match DocPipeline.tableRecognizer_ p with
     | Some _ =>
         if enableWiredTable (stages (DocPipeline.config_ p)) then
           runTableRecognition Mat cols rows rectAnd crop estimateTableType
                               p image (getTableBoxes layoutResult)
         else []
     | None => []
     end) ++
    (if saveImages (runtime (DocPipeline.config_ p)) then
       map (imageElement pageIndex)
           (keptFigures image (getBoxesByCategory layoutResult FIGURE) 0)
     else [])) ++
   handleUnsupportedElements (getUnsupportedBoxes layoutResult),
   if saveImages (runtime (DocPipeline.config_ p)) then
     map (imageFile p image pageIndex)
         (keptFigures image (getBoxesByCategory layoutResult FIGURE) 0)
   else []).
Proof.
  unfold processCategories, saveExtractedImages.
  rewrite saveLoop_closed.
  destruct (saveImages (runtime (DocPipeline.config_ p)));
    destruct (DocPipeline.tableRecognizer_ p);
    destruct (enableWiredTable (stages (DocPipeline.config_ p)));
    cbn [fst snd app]; rewrite ?app_nil_r, <- ?app_assoc; reflexivity.
Qed.

Lemma keptFigures_le (image : Mat) :
  forall figureBoxes i,
    (length (keptFigures image figureBoxes i) <= length figureBoxes)%nat.
Proof.
  induction figureBoxes as [|box rest IH]; intros i; [cbn; lia|].
  cbn [keptFigures]. specialize (IH (i + 1)).
  destruct ((cv.width _ <=? 0) || (cv.height _ <=? 0)); cbn [length]; lia.
Qed.

Lemma processCategories_length (p : DocPipeline.t) (image : Mat)
      (pageIndex : Z) (layoutResult : LayoutResult) :
  (length (fst (processCategories Mat cols rows rectAnd crop
                  estimateTableType p image pageIndex layoutResult))
   <= length (boxes layoutResult))%nat.
Proof.
  rewrite processCategories_closed. cbn [fst].
  pose proof (selections_length layoutResult) as Hsel.
  pose proof (keptFigures_le image
                (getBoxesByCategory layoutResult FIGURE) 0) as Hfig.
  rewrite !length_app.
  unfold handleUnsupportedElements. rewrite length_map.
  assert (H1 : (length (if DocPipeline.ocrPipeline_ p
                           && enableOcr (stages (DocPipeline.config_ p))
                        then runOcrOnRegions Mat image
                                             (getTextBoxes layoutResult)
                        else [])
                <= length (getTextBoxes layoutResult))%nat).
  { destruct (_ && _); [|cbn; lia].
    unfold runOcrOnRegions. now rewrite length_map. }
  assert (H2 : (length (match DocPipeline.tableRecognizer_ p with
                        | Some _ =>
                            if enableWiredTable
                                 (stages (DocPipeline.config_ p))
                            then runTableRecognition
                                   Mat cols rows rectAnd crop
                                   estimateTableType p image
                                   (getTableBoxes layoutResult)
                            else []
                        | None => []
                        end)
                <= length (getTableBoxes layoutResult))%nat).
  { destruct (DocPipeline.tableRecognizer_ p); [|cbn; lia].
    destruct (enableWiredTable _); [|cbn; lia].
    unfold runTableRecognition. now rewrite length_map. }
  assert (H3 : (length (if saveImages (runtime (DocPipeline.config_ p))
                        then map (imageElement pageIndex)
                                 (keptFigures image
                                    (getBoxesByCategory layoutResult
                                                        FIGURE) 0)
                        else [])
                <= length (getBoxesByCategory layoutResult FIGURE))%nat).
  { destruct (saveImages _); [|cbn; lia]. now rewrite length_map. }
  lia.
Qed.

(** A property that every stage gives its elements holds of every element
    of step 2. *)
Lemma processCategories_forall (P : ContentElement.t -> Prop)
      (p : DocPipeline.t) (image : Mat) (pageIndex : Z)
      (layoutResult : LayoutResult) :
  Forall P (runOcrOnRegions Mat image (getTextBoxes layoutResult)) ->
  Forall P (runTableRecognition Mat cols rows rectAnd crop
              estimateTableType p image (getTableBoxes layoutResult)) ->
  Forall P (map (imageElement pageIndex)
                (keptFigures image
                   (getBoxesByCategory layoutResult FIGURE) 0)) ->
  Forall P (handleUnsupportedElements (getUnsupportedBoxes layoutResult)) ->
  Forall P (fst (processCategories Mat cols rows rectAnd crop
                   estimateTableType p image pageIndex layoutResult)).
Proof.
  intros H1 H2 H3 H4. rewrite processCategories_closed. cbn [fst].
  apply Forall_app; split; [|assumption].
  apply Forall_app; split; [|apply Forall_app; split].
  - destruct (_ && _); [assumption|constructor].
  - destruct (DocPipeline.tableRecognizer_ p); [|constructor].
    destruct (enableWiredTable _); [assumption|constructor].
  - destruct (saveImages _); [assumption|constructor].
Qed.

End Step2.

(** *** The whole page *)

Section Page.

Variable Mat : Type.
Variables cols rows : Mat -> Z.
Variable rectAnd : cv.Rect -> cv.Rect -> cv.Rect.
Variable crop : Mat -> cv.Rect -> Mat.
Variable detect : Mat -> LayoutResult.
Variable estimateTableType : Mat -> TableType.t.
Variable sort : (nat -> nat -> bool) -> list nat -> list nat.
Hypothesis sort_permutes : forall comp l, Permutation (sort comp l) l.

(** [processPage] returns; what holds of the elements of every stage, and
    does not depend on the reading order, holds of the elements of the
    page. *)
Lemma processPage_forall (P : ContentElement.t -> Prop)
      (p : DocPipeline.t) (pageImage : PageImage.t Mat) :
  let image := PageImage.image pageImage in
  let layoutResult := detectLayout Mat detect p image in
  (forall e e', same_content e' e -> P e -> P e') ->
  Forall P (fst (processCategories
                   Mat cols rows rectAnd crop estimateTableType p image
                   (PageImage.pageIndex pageImage) layoutResult)) ->
  0 <= cols image -> 0 <= rows image ->
  exists elements,
    processPage Mat cols rows rectAnd crop detect estimateTableType sort
                p pageImage =
    Done (PageResult.mk (PageImage.pageIndex pageImage) layoutResult
                        elements [],
          snd (processCategories
                 Mat cols rows rectAnd crop estimateTableType p image
                 (PageImage.pageIndex pageImage) layoutResult)) /\
    readingOrderSort
      Mat cols rows sort p image
      (fst (processCategories
              Mat cols rows rectAnd crop estimateTableType p image
              (PageImage.pageIndex pageImage) layoutResult))
    = Done elements /\
    Forall P elements.
Proof.
  intros image layoutResult HP Hall HW HH. unfold processPage.
  fold image. fold layoutResult.
  destruct (readingOrderSort_done
              Mat cols rows sort sort_permutes p image
              (fst (processCategories
                      Mat cols rows rectAnd crop estimateTableType p image
                      (PageImage.pageIndex pageImage) layoutResult))
              HW HH) as (sorted & Hrun).
  exists sorted. rewrite Hrun. cbn [bind].
  split; [reflexivity|]. split; [reflexivity|].
  eapply (readingOrderSort_keeps Mat cols rows sort sort_permutes P);
    eassumption.
Qed.

End Page.

(** *** File names *)

Fixpoint occurs (c : Ascii.ascii) (s : String.string) : bool :=
  match s with
  | String.EmptyString => false
  | String.String a s' => Ascii.eqb a c || occurs c s'
  end.

Lemma append_cancel_l (a x y : String.string) :
  String.append a x = String.append a y -> x = y.
Proof.
  induction a as [|c a IH]; cbn; intros E; [exact E|].
  inversion E. now apply IH.
Qed.

Lemma append_split_at (c : Ascii.ascii) :
  forall s s' r r',
    occurs c s = false -> occurs c s' = false ->
    String.append s (String.String c r)
    = String.append s' (String.String c r') ->
    s = s' /\ r = r'.
Proof.
  induction s as [|a s IH]; intros [|a' s'] r r' Hs Hs' E;
    cbn in *.
  - inversion E. now split.
  - inversion E; subst. rewrite Ascii.eqb_refl in Hs'. discriminate.
  - inversion E; subst. rewrite Ascii.eqb_refl in Hs. discriminate.
  - inversion E; subst.
    apply orb_false_iff in Hs, Hs'.
    destruct (IH s' r r') as [-> ->]; tauto.
Qed.

Lemma occurs_uint (c : Ascii.ascii) (d : Decimal.uint) :
  occurs c "0123456789" = false ->
  occurs c (DecimalString.NilEmpty.string_of_uint d) = false.
Proof.
  intros Hc. cbn in Hc.
  repeat (apply orb_false_iff in Hc; destruct Hc as [? Hc]).
  induction d; cbn; try reflexivity; apply orb_false_iff; split;
    assumption.
Qed.

Lemma occurs_to_string (c : Ascii.ascii) (z : Z) :
  occurs c "-0123456789" = false -> occurs c (to_string z) = false.
Proof.
  intros Hc. cbn [occurs] in Hc. apply orb_false_iff in Hc.
  destruct Hc as [Hm Hd]. unfold to_string.
  destruct (Z.to_int z); cbn [DecimalString.NilEmpty.string_of_int occurs].
  - now apply occurs_uint.
  - rewrite Hm. now apply occurs_uint.
Qed.

Lemma to_string_inj (a b : Z) : to_string a = to_string b -> a = b.
Proof.
  unfold to_string. intros E. apply DecimalZ.to_int_inj.
  pose proof (DecimalString.NilEmpty.isi (Z.to_int a)) as Ha.
  pose proof (DecimalString.NilEmpty.isi (Z.to_int b)) as Hb.
  rewrite E in Ha. congruence.
Qed.

Lemma figureFilename_inj (pageIndex i pageIndex' i' : Z) :
  figureFilename pageIndex i = figureFilename pageIndex' i' ->
  pageIndex = pageIndex' /\ i = i'.
Proof.
  unfold figureFilename. intros E.
  apply (append_cancel_l "page") in E.
  simpl (String.append "_fig" _) in E.
  apply append_split_at in E;
    [|apply occurs_to_string; reflexivity..].
  destruct E as [Ep E]. apply to_string_inj in Ep.
  apply (append_cancel_l "fig") in E.
  apply append_split_at in E;
    [|apply occurs_to_string; reflexivity..].
  destruct E as [Ei _]. apply to_string_inj in Ei. now split.
Qed.

(** *** The pages of a document *)

Lemma countSkipped_spec (pages : list PageResult.t) :
  forall count,
    countSkipped pages count =
    count + Z.of_nat (length (filter ContentElement.skipped
                                (concat (map PageResult.elements pages)))).
Proof.
  assert (Hin : forall l n,
             fold_left
               (fun m elem => if ContentElement.skipped elem then m + 1
                              else m) l n
             = n + Z.of_nat (length (filter ContentElement.skipped l))).
  { induction l as [|e l IH]; intros n; cbn [fold_left filter].
    - cbn. lia.
    - rewrite IH. destruct (ContentElement.skipped e); cbn [length]; lia. }
  unfold countSkipped.
  induction pages as [|pg pages IH]; intros count;
    cbn [fold_left map concat].
  - cbn. lia.
  - rewrite IH, Hin, filter_app, length_app. lia.
Qed.

(** [result.skippedElements = n] *)
Definition withSkipped (n : Z) (result : DocumentResult.t)
  : DocumentResult.t :=
  DocumentResult.mk
    (DocumentResult.pages result) (DocumentResult.markdown result)
    (DocumentResult.contentListJson result)
    (DocumentResult.totalPages result)
    (DocumentResult.processedPages result) n.

Section Document.

Variable Mat : Type.
Variables cols rows : Mat -> Z.
Variable rectAnd : cv.Rect -> cv.Rect -> cv.Rect.
Variable crop : Mat -> cv.Rect -> Mat.
Variable detect : Mat -> LayoutResult.
Variable estimateTableType : Mat -> TableType.t.
Variable sort : (nat -> nat -> bool) -> list nat -> list nat.

Let page := processPage Mat cols rows rectAnd crop detect
                        estimateTableType sort.
Let pages_loop := processPages Mat cols rows rectAnd crop detect
                               estimateTableType sort.

(** The loop over the pages leaves the count of skipped elements alone. *)
Lemma processPages_skipped (p : DocPipeline.t) :
  forall pageImages result written r w,
    pages_loop p pageImages result written = Done (r, w) ->
    DocumentResult.skippedElements r
    = DocumentResult.skippedElements result.
Proof.
  induction pageImages as [|img rest IH]; intros result written r w Hrun;
    cbn in Hrun.
  - inversion Hrun. reflexivity.
  - destruct (processPage _ _ _ _ _ _ _ _ p img) as [pw| |];
      cbn [bind] in Hrun; try discriminate.
    apply IH in Hrun. exact Hrun.
Qed.

Hypothesis sort_permutes : forall comp l, Permutation (sort comp l) l.
Hypothesis extent : forall m, 0 <= cols m /\ 0 <= rows m.

Lemma processPage_returns (p : DocPipeline.t) (img : PageImage.t Mat) :
  exists res w, page p img = Done (res, w).
Proof.
  destruct (processPage_forall
              Mat cols rows rectAnd crop detect estimateTableType sort
              sort_permutes (fun _ => True) p img)
    as (elements & E & _); auto.
  - apply Forall_forall. auto.
  - apply extent.
  - apply extent.
  - eexists. eexists. exact E.
Qed.

Lemma processPages_spec (p : DocPipeline.t) :
  forall pageImages result written,
    exists prs ws,
      pages_loop p pageImages result written =
      Done (DocumentResult.mk
              (DocumentResult.pages result ++ prs)
              (DocumentResult.markdown result)
              (DocumentResult.contentListJson result)
              (DocumentResult.totalPages result)
              (DocumentResult.processedPages result
               + Z.of_nat (length pageImages))
              (DocumentResult.skippedElements result),
            written ++ ws) /\
      Forall2 (fun img pr => exists w, page p img = Done (pr, w))
              pageImages prs.
Proof.
  induction pageImages as [|img rest IH]; intros result written.
  - exists [], []. split; [|constructor]. cbn.
    rewrite !app_nil_r, Z.add_0_r. now destruct result.
  - destruct (processPage_returns p img) as (res & w & E).
    unfold pages_loop. cbn [processPages]. fold page. rewrite E.
    cbn [bind fst snd]. fold pages_loop.
    destruct (IH (DocumentResult.mk
                    (DocumentResult.pages result ++ [res])
                    (DocumentResult.markdown result)
                    (DocumentResult.contentListJson result)
                    (DocumentResult.totalPages result)
                    (DocumentResult.processedPages result + 1)
                    (DocumentResult.skippedElements result))
                 (written ++ w)) as (prs & ws & Hrun & Hall).
    exists (res :: prs), (w ++ ws). split.
    + rewrite Hrun. cbn [DocumentResult.pages DocumentResult.markdown
        DocumentResult.contentListJson DocumentResult.totalPages
        DocumentResult.processedPages DocumentResult.skippedElements].
      rewrite <- !app_assoc. cbn [app length].
      do 2 f_equal. f_equal. lia.
    + constructor; [|exact Hall]. exists w. exact E.
Qed.

End Document.

(** *** Initialization *)

Lemma empty_iff (s : String.string) :
  empty s = true <-> s = String.EmptyString.
Proof. destruct s; cbn; split; congruence. Qed.

Lemma initialize_spec (fs_exists : String.string -> bool)
      (ocrInitialize : bool) (cfg : PipelineConfig) :
  let r := initialize ocrInitialize fs_exists (construct cfg) in
  (snd r = true <->
   validate fs_exists cfg = String.EmptyString /\
   (enableOcr (stages cfg) = true -> ocrInitialize = true)) /\
  DocPipeline.config_ (fst r) = cfg /\
  DocPipeline.initialized_ (fst r) = snd r /\
  (snd r = true ->
   DocPipeline.pdfRenderer_ (fst r) = enablePdfRender (stages cfg) /\
   DocPipeline.layoutDetector_ (fst r) = enableLayout (stages cfg) /\
   DocPipeline.tableRecognizer_ (fst r)
   = (if enableWiredTable (stages cfg) then Some (TableRecognizer.mk true)
      else None) /\
   DocPipeline.ocrPipeline_ (fst r) = enableOcr (stages cfg)).
Proof.
  unfold initialize, construct. cbn [DocPipeline.config_
    DocPipeline.initialized_ DocPipeline.pdfRenderer_
    DocPipeline.layoutDetector_ DocPipeline.tableRecognizer_
    DocPipeline.ocrPipeline_].
  destruct (empty (validate fs_exists cfg)) eqn:Ev; cbn [negb].
  - apply empty_iff in Ev. rewrite Ev.
    destruct (enableOcr (stages cfg)), ocrInitialize,
      (enablePdfRender (stages cfg)), (enableLayout (stages cfg)),
      (enableWiredTable (stages cfg));
      cbn; repeat split; intros; try reflexivity; try discriminate;
      try tauto;
      try (match goal with H : _ /\ _ |- _ => destruct H as [_ H] end;
           discriminate (H eq_refl)).
  - assert (Hne : validate fs_exists cfg <> String.EmptyString).
    { intros E. apply empty_iff in E. congruence. }
    cbn. repeat split; intros; try reflexivity; try discriminate; tauto.
Qed.

Lemma NoDup_map_injective {A B : Type} (f : A -> B) (l : list A) :
  (forall x y, In x l -> In y l -> f x = f y -> x = y) ->
  NoDup l -> NoDup (map f l).
Proof.
  intros Hf Hnd. induction Hnd as [|a l Ha Hnd IH]; [constructor|].
  cbn [map]. constructor.
  - intros Hin. apply in_map_iff in Hin. destruct Hin as (b & E & Hb).
    apply Hf in E; [subst; contradiction|now right|now left].
  - apply IH. intros x y Hx Hy. apply Hf; now right.
Qed.

Lemma figureFilepath_inj (config : PipelineConfig) (a b : String.string) :
  figureFilepath config a = figureFilepath config b -> a = b.
Proof.
  unfold figureFilepath. intros E.
  apply append_cancel_l in E. now apply (append_cancel_l "/") in E.
Qed.

(** *** Sample data *)

(** An image, by its width and height; a crop has the extent of its
    rectangle. *)
Definition sampleCols (m : nat * nat) : Z := Z.of_nat (fst m).
Definition sampleRows (m : nat * nat) : Z := Z.of_nat (snd m).

Definition sampleRectAnd (a b : cv.Rect) : cv.Rect :=
  let x := Z.max (cv.x a) (cv.x b) in
  let y := Z.max (cv.y a) (cv.y b) in
  let w := Z.min (cv.x a + cv.width a) (cv.x b + cv.width b) - x in
  let h := Z.min (cv.y a + cv.height a) (cv.y b + cv.height b) - y in
  if (w <=? 0) || (h <=? 0) then cv.mkRect 0 0 0 0 else cv.mkRect x y w h.

Definition sampleCrop (m : nat * nat) (r : cv.Rect) : nat * nat :=
  (Z.to_nat (cv.width r), Z.to_nat (cv.height r)).

Definition sampleDetect (m : nat * nat) : LayoutResult :=
  mkLayoutResult
    [mkLayoutBox 100 50 900 100 TITLE (9 # 10) 0;
     mkLayoutBox 100 150 900 400 TEXT (8 # 10) 1;
     mkLayoutBox 100 450 500 700 FIGURE (7 # 10) 2;
     mkLayoutBox 100 710 500 730 FIGURE_CAPTION (7 # 10) 3;
     mkLayoutBox 550 450 900 700 TABLE (6 # 10) 4;
     mkLayoutBox 100 800 900 850 EQUATION (5 # 10) 5].

Definition sampleEstimate (m : nat * nat) : TableType.t := TableType.WIRED.

Definition sampleRender (path : String.string)
  : list (PageImage.t (nat * nat)) :=
  [PageImage.mk (1000%nat, 1000%nat) 0 200 1 500 500;
   PageImage.mk (1000%nat, 1000%nat) 1 200 1 500 500].

Definition sampleRenderFromMemory (data : list Z)
  : list (PageImage.t (nat * nat)) :=
  sampleRender "document.pdf".

Definition sampleWriter (result : DocumentResult.t) : String.string :=
  to_string (Z.of_nat (length (DocumentResult.pages result))).

Definition sampleExists (path : String.string) : bool := true.

Definition samplePath : String.string := "document.pdf".


Definition sampleElements : list ContentElement.t :=
  [ContentElement.make (XYCutFacts.box 600 0 700 500);
   ContentElement.make (XYCutFacts.box 0 0 100 500)].

Definition sampleConfig : PipelineConfig := Default ".".

Definition samplePipeline : DocPipeline.t :=
  DocPipeline.mk sampleConfig true true true
                 (Some (TableRecognizer.mk true)) true.

End PipelineFacts.

(** ** Base64 decoding *)

Module ServerFacts.

Import Server.
Import String.StringSyntax.
Local Open Scope string_scope.

(** The 6-bit values that the loop reads: those of the characters of the
    alphabet before the first ['=']. *)
Fixpoint sextets (encoded : String.string) : list Z :=
  match encoded with
  | String.EmptyString => []
  | String.String c rest =>
      if Ascii.eqb c padChar then []
      else
        match find c base64Chars with
        | None => sextets rest
        | Some pos => Z.of_nat pos :: sextets rest
        end
  end.

(** Four 6-bit values make three bytes; three make two, two make one and
    a single one makes none. *)
Fixpoint groups (l : list Z) : list Z :=
  match l with
  | a :: b :: c :: d :: rest =>
      (a * 4 + b / 16) :: (b mod 16 * 16 + c / 4) :: (c mod 4 * 64 + d)
      :: groups rest
  | [a; b; c] => [a * 4 + b / 16; b mod 16 * 16 + c / 4]
  | [a; b] => [a * 4 + b / 16]
  | _ => []
  end.

(** The bytes still to come when [k] bits, of value [pend], wait in the
    accumulator. *)
Fixpoint pending (k pend : Z) (l : list Z) : list Z :=
  match l with
  | [] => []
  | s :: l' =>
      if k =? 0 then pending 6 s l'
      else
        (pend * 64 + s) / 2 ^ (k - 2)
        :: pending (k - 2) ((pend * 64 + s) mod 2 ^ (k - 2)) l'
  end.

Lemma find_bound (c : Ascii.ascii) :
  forall s pos, find c s = Some pos -> (pos < String.length s)%nat.
Proof.
  induction s as [|a s IH]; intros pos H; cbn in H; [discriminate|].
  destruct (Ascii.eqb a c).
  - inversion H. cbn. lia.
  - destruct (find c s) as [n|]; [|discriminate].
    inversion H. cbn. specialize (IH n eq_refl). lia.
Qed.

Lemma sextets_range (encoded : String.string) :
  Forall (fun s => 0 <= s < 64) (sextets encoded).
Proof.
  induction encoded as [|c rest IH]; [constructor|]. cbn [sextets].
  destruct (Ascii.eqb c padChar); [constructor|].
  destruct (find c base64Chars) as [pos|] eqn:E; [|exact IH].
  constructor; [|exact IH]. apply find_bound in E. cbn in E. lia.
Qed.

(** One step of the loop on the accumulator. *)
Lemma step_first (v s : Z) :
  0 <= s < 64 -> (wrap (wrap (Z.shiftl v 6) + s)) mod 64 = s.
Proof.
  intros Hs. unfold wrap. rewrite Z.shiftl_mul_pow2 by lia.
  change (2 ^ 6) with 64. change (2 ^ 31) with 2147483648.
  change (2 ^ 32) with 4294967296.
  Z.div_mod_to_equations. lia.
Qed.

Lemma step_byte (k v pend s : Z) :
  k = 2 \/ k = 4 \/ k = 6 ->
  v mod 2 ^ k = pend -> 0 <= s < 64 ->
  Z.land (Z.shiftr (wrap (wrap (Z.shiftl v 6) + s)) (k - 2)) 255
  = (pend * 64 + s) / 2 ^ (k - 2) /\
  (wrap (wrap (Z.shiftl v 6) + s)) mod 2 ^ (k - 2)
  = (pend * 64 + s) mod 2 ^ (k - 2).
Proof.
  intros Hk Hv Hs. subst pend.
  change 255 with (Z.ones 8). rewrite Z.land_ones by lia.
  rewrite Z.shiftr_div_pow2 by lia.
  unfold wrap. rewrite Z.shiftl_mul_pow2 by lia.
  change (2 ^ 6) with 64. change (2 ^ 31) with 2147483648.
  change (2 ^ 32) with 4294967296. change (2 ^ 8) with 256.
  destruct Hk as [-> | [-> | ->]]; cbn [Z.sub Z.add Z.opp Z.pos_sub
    Pos.pred_double Z.succ_double Z.pred_double Z.double];
    [change (2 ^ 2) with 4; change (2 ^ 0) with 1
    |change (2 ^ 4) with 16; change (2 ^ 2) with 4
    |change (2 ^ 6) with 64; change (2 ^ 4) with 16];
    split; Z.div_mod_to_equations; lia.
Qed.

Lemma decodeLoop_pending :
  forall encoded st k pend,
    k = 0 \/ k = 2 \/ k = 4 \/ k = 6 ->
    bits st = k - 8 -> val st mod 2 ^ k = pend ->
    decoded (decodeLoop encoded st)
    = decoded st ++ pending k pend (sextets encoded).
Proof.
  induction encoded as [|c rest IH]; intros st k pend Hk Hb Hv;
    cbn [decodeLoop sextets].
  - cbn. now rewrite app_nil_r.
  - destruct (Ascii.eqb c padChar); [cbn; now rewrite app_nil_r|].
    destruct (find c base64Chars) as [pos|] eqn:E;
      [|now apply IH].
    assert (Hs : 0 <= Z.of_nat pos < 64)
      by (apply find_bound in E; cbn in E; lia).
    cbn [pending]. rewrite Hb.
    destruct Hk as [-> |Hk].
    + cbn [Z.eqb Z.sub Z.add Z.opp Z.pos_sub Z.leb Z.compare
           Pos.pred_double Z.succ_double Z.pred_double Z.double].
      rewrite (IH _ 6 (Z.of_nat pos)); cbn [decoded val bits];
        [reflexivity|tauto|reflexivity|].
      change (2 ^ 6) with 64. now apply step_first.
    + destruct (step_byte k (val st) pend (Z.of_nat pos) Hk Hv Hs)
        as [Hbyte Hrest].
      replace (k - 8 + 6) with (k - 2) by lia.
      replace (0 <=? k - 2) with true by (symmetry; apply Z.leb_le; lia).
      replace (k =? 0) with false by (symmetry; apply Z.eqb_neq; lia).
      rewrite (IH _ (k - 2) ((pend * 64 + Z.of_nat pos) mod 2 ^ (k - 2)));
        cbn [decoded val bits]; [|lia|lia|exact Hrest].
      rewrite Hbyte, <- app_assoc. reflexivity.
Qed.

(** The bounds of the first values of a list, for [lia]. *)
Ltac bounds H :=
  repeat match type of H with
         | Forall _ (_ :: _) =>
             let H1 := fresh "Hb" in
             apply Forall_cons_iff in H; destruct H as [H1 H]
         end.

Lemma pending_groups :
  forall n l, (length l <= n)%nat ->
              Forall (fun s => 0 <= s < 64) l ->
              pending 0 0 l = groups l.
Proof.
  induction n as [|n IH]; intros l Hlen Hall.
  - destruct l; [reflexivity|cbn in Hlen; lia].
  - destruct l as [|a [|b [|c [|d rest]]]]; try reflexivity; bounds Hall;
      cbn [pending Z.eqb Z.sub Z.add Z.opp Z.pos_sub
           Pos.pred_double Z.succ_double Z.pred_double Z.double groups];
      change (2 ^ 4) with 16; change (2 ^ 2) with 4;
      change (2 ^ 0) with 1.
    + f_equal. Z.div_mod_to_equations. lia.
    + f_equal; [|f_equal]; Z.div_mod_to_equations; lia.
    + rewrite Z.mod_1_r.
      rewrite (IH rest); [|cbn in Hlen; lia|exact Hall].
      f_equal; [|f_equal; [|f_equal]]; Z.div_mod_to_equations; lia.
Qed.

Lemma decode_groups (encoded : String.string) :
  base64Decode encoded = groups (sextets encoded).
Proof.
  unfold base64Decode.
  rewrite (decodeLoop_pending encoded _ 0 0); cbn [decoded bits val];
    [|tauto|reflexivity|reflexivity].
  cbn [app]. apply (pending_groups (length (sextets encoded)));
    [lia|apply sextets_range].
Qed.

Lemma groups_length :
  forall n l, (length l <= n)%nat ->
              length (groups l) = (length l * 3 / 4)%nat.
Proof.
  induction n as [|n IH]; intros l Hlen.
  - destruct l; [reflexivity|cbn in Hlen; lia].
  - destruct l as [|a [|b [|c [|d rest]]]]; try reflexivity.
    cbn [groups length]. rewrite (IH rest) by (cbn in Hlen; lia).
    replace (S (S (S (S (length rest)))) * 3)%nat
      with (length rest * 3 + 3 * 4)%nat by lia.
    rewrite Nat.div_add by lia. lia.
Qed.

Lemma groups_range :
  forall n l, (length l <= n)%nat ->
              Forall (fun s => 0 <= s < 64) l ->
              Forall (fun b => 0 <= b < 256) (groups l).
Proof.
  induction n as [|n IH]; intros l Hlen Hall.
  - destruct l; [constructor|cbn in Hlen; lia].
  - destruct l as [|a [|b [|c [|d rest]]]]; cbn [groups]; bounds Hall;
      repeat (constructor; [Z.div_mod_to_equations; lia|]);
      try constructor.
    apply IH; [cbn in Hlen; lia|exact Hall].
Qed.

(** *** The standard encoding

    The encoder is not part of the repository: this is the base64
    encoding of RFC 4648 (section 4), written down to state what the
    decoder inverts. *)

Definition sextetChar (n : Z) : Ascii.ascii :=
  nth (Z.to_nat n) (String.list_ascii_of_string base64Chars) padChar.

Fixpoint base64Encode (bytes : list Z) : String.string :=
  match bytes with
  | [] => String.EmptyString
  | [a] =>
      String.String (sextetChar (a / 4))
        (String.String (sextetChar (a mod 4 * 16))
           (String.String padChar
              (String.String padChar String.EmptyString)))
  | [a; b] =>
      String.String (sextetChar (a / 4))
        (String.String (sextetChar (a mod 4 * 16 + b / 16))
           (String.String (sextetChar (b mod 16 * 4))
              (String.String padChar String.EmptyString)))
  | a :: b :: c :: rest =>
      String.String (sextetChar (a / 4))
        (String.String (sextetChar (a mod 4 * 16 + b / 16))
           (String.String (sextetChar (b mod 16 * 4 + c / 64))
              (String.String (sextetChar (c mod 64))
                 (base64Encode rest))))
  end.

Lemma sextetChar_found (n : Z) :
  0 <= n < 64 ->
  Ascii.eqb (sextetChar n) padChar = false /\
  find (sextetChar n) base64Chars = Some (Z.to_nat n).
Proof.
  intros Hn.
  assert (Hall : forallb
                   (fun k =>
                      negb (Ascii.eqb (sextetChar (Z.of_nat k)) padChar)
                      && match find (sextetChar (Z.of_nat k)) base64Chars
                         with
                         | Some pos => Nat.eqb pos k
                         | None => false
                         end)
                   (seq 0 64) = true) by (vm_compute; reflexivity).
  rewrite forallb_forall in Hall.
  specialize (Hall (Z.to_nat n)).
  rewrite Z2Nat.id in Hall by lia.
  assert (Hin : In (Z.to_nat n) (seq 0 64)) by (apply in_seq; lia).
  apply Hall, andb_true_iff in Hin. destruct Hin as [Hpad Hfind].
  split; [now apply negb_true_iff|].
  destruct (find (sextetChar n) base64Chars) as [pos|]; [|discriminate].
  apply Nat.eqb_eq in Hfind. now subst.
Qed.

Lemma sextets_char (n : Z) (rest : String.string) :
  0 <= n < 64 ->
  sextets (String.String (sextetChar n) rest) = n :: sextets rest.
Proof.
  intros Hn. destruct (sextetChar_found n Hn) as [Hpad Hfind].
  cbn [sextets]. rewrite Hpad, Hfind. now rewrite Z2Nat.id by lia.
Qed.

Lemma sextets_pad (rest : String.string) :
  sextets (String.String padChar rest) = [].
Proof. reflexivity. Qed.

Lemma decode_encode :
  forall n bytes, (length bytes <= n)%nat ->
                  Forall (fun b => 0 <= b < 256) bytes ->
                  groups (sextets (base64Encode bytes)) = bytes.
Proof.
  induction n as [|n IH]; intros bytes Hlen Hall.
  - destruct bytes; [reflexivity|cbn in Hlen; lia].
  - destruct bytes as [|a [|b [|c rest]]]; [reflexivity|..];
      bounds Hall; cbn [base64Encode];
      rewrite ?sextets_char, ?sextets_pad
        by (Z.div_mod_to_equations; lia);
      cbn [groups].
    + f_equal. Z.div_mod_to_equations. lia.
    + f_equal; [|f_equal]; Z.div_mod_to_equations; lia.
    + rewrite (IH rest); [|cbn in Hlen; lia|exact Hall].
      f_equal; [|f_equal; [|f_equal]]; Z.div_mod_to_equations; lia.
Qed.

(** *** Sample data *)

(** "Hello" and its encoding, with a line break in the middle. *)
Definition sampleBytes : list Z := [72; 101; 108; 108; 111].

Definition sampleEncoded : String.string :=
  String.append "SGVs"
    (String.String (Ascii.ascii_of_nat 10) "bG8=").

End ServerFacts.

(** * The claims *)

Import Profile ProfileFacts XYCut XYCutFacts.

(** C1 (the code drops boxes): on a page with two columns and a third box
    between them whose center falls inside no X-segment, [xycutPlusSort]
    returns two indices for three boxes, whatever [std::sort] does.  The
    third box is a sliver about one pixel wide in the first page and a box of
    zero width in the second. *)
Theorem C1_sort_drops_box_between_columns :
  forall sort : (nat -> nat -> bool) -> list nat -> list nat,
    length columns_and_sliver = 3%nat /\
    xycutPlusSort sort columns_and_sliver 1000 1000 defaultConfig
    = Done [0; 1]%nat /\
    length columns_and_line = 3%nat /\
    xycutPlusSort sort columns_and_line 1000 1000 defaultConfig
    = Done [0; 1]%nat.
Proof.
  intros sort. repeat split; vm_compute; reflexivity.
Qed.

Lemma staircase_is_leaf (cfg : XYCutConfig) :
  minGapRatio cfg = 1 # 16 -> minValueRatio cfg = 0%Q ->
  is_leaf staircase [0; 1; 2]%nat 32 32 cfg.
Proof.
  intros Hgap Hval. split; [cbn; lia|].
  eexists _, _, _. split; [reflexivity|].
  split; [vm_compute; reflexivity|]. split; [vm_compute; reflexivity|].
  unfold minValOf, minGapOf, gapProduct. rewrite Hgap, Hval.
  split; vm_compute; lia.
Qed.

Lemma twins_is_leaf :
  is_leaf twins [0; 1; 2]%nat 128 128 horizontalConfig.
Proof.
  split; [cbn; lia|].
  eexists _, _, _. split; [reflexivity|].
  split; [vm_compute; reflexivity|]. split; [vm_compute; reflexivity|].
  split; vm_compute; lia.
Qed.




(** C3: how [splitProjectionProfile] closes and flushes segments.  A pixel is
    occupied when its value is strictly greater than [minValue].
    - Every returned segment starts at an occupied pixel; if it ends before
      the end of the histogram it was closed: its end is just past an
      occupied pixel and the next [max 1 minGap] pixels all exist and are
      unoccupied; otherwise it ends at the end of the histogram (flushed).
    - A run of [max 1 minGap] unoccupied pixels closes the segment: whenever
      an occupied pixel is followed by that many unoccupied pixels of the
      histogram, a returned segment ends just past the occupied pixel.
    - No returned segment holds such a run: each of its windows of
      [max 1 minGap] pixels has an occupied pixel.
    - No returned segment holds a pixel of the run of [max 1 minGap]
      unoccupied pixels that closed a segment.
    - Every occupied pixel lies in a returned segment.
    - Two occupied pixels with fewer than [minGap] pixels between them lie in
      the same segment.
    - When fewer than [max 1 minGap] unoccupied pixels follow the last
      occupied pixel, the segment holding it runs to the end of the histogram.
    - A histogram of zeros with [minValue = 0] has no segment. *)
Theorem C3_split_closes_on_wide_gaps_only :
  forall (values : list Z) (minValue minGap : Z),
    let n := Z.of_nat (length values) in
    let segs := splitProjectionProfile values minValue minGap in
    let full := occupied values minValue in
    (forall s e, In (s, e) segs ->
       0 <= s < e /\ e <= n /\ full s /\
       (e = n \/
        (full (e - 1) /\
         forall k, e <= k < e + Z.max 1 minGap -> k < n /\ ~ full k))) /\
    (forall p, 0 <= p -> full p ->
       (forall k, p < k <= p + Z.max 1 minGap -> k < n /\ ~ full k) ->
       exists s, In (s, p + 1) segs /\ s <= p) /\
    (forall s e, In (s, e) segs ->
       forall k, s <= k -> k + Z.max 1 minGap <= e ->
         exists j, k <= j < k + Z.max 1 minGap /\ full j) /\
    (forall s e s' e', In (s, e) segs -> In (s', e') segs -> e < n ->
       forall k, e <= k < e + Z.max 1 minGap -> ~ s' <= k < e') /\
    (forall k, 0 <= k < n -> full k ->
       exists s e, In (s, e) segs /\ s <= k < e) /\
    (forall i j, 0 <= i < j -> j < n -> full i -> full j ->
       j - i <= minGap ->
       exists s e, In (s, e) segs /\ s <= i /\ j < e) /\
    (forall p, 0 <= p < n -> full p ->
       (forall k, p < k < n -> ~ full k) ->
       n - 1 - p < Z.max 1 minGap ->
       exists s, In (s, n) segs /\ s <= p) /\
    ((forall v, In v values -> v = 0) ->
     splitProjectionProfile values 0 minGap = []).
Proof.
  intros values minValue minGap n segs full.
  pose proof (split_good values minValue minGap) as Hgood.
  pose proof (split_sorted values minValue minGap) as Hsort.
  pose proof (split_dense values minValue minGap) as Hdense.
  fold segs in Hgood, Hsort, Hdense.
  rewrite Forall_forall in Hgood, Hdense.
  assert (Hcover : forall k, 0 <= k < n -> full k ->
            exists s e, In (s, e) segs /\ s <= k < e).
  { intros k Hk Hocc.
    destruct (split_cover values minValue minGap k Hk Hocc)
      as ([s e] & Hin & Hseg).
    exists s, e. split; assumption. }
  assert (Hwin : forall s e, In (s, e) segs ->
            forall k, s <= k -> k + Z.max 1 minGap <= e ->
              exists j, k <= j < k + Z.max 1 minGap /\ full j).
  { intros s e Hin. exact (Hdense _ Hin). }
  split; [|split; [|split; [exact Hwin|
    split; [|split; [exact Hcover|split; [|split]]]]]].
  - intros s e Hin. exact (Hgood _ Hin).
  - intros p Hp Hocc Hrun.
    assert (Hpn : p < n) by (destruct (Hrun (p + 1)); lia).
    destruct (Hcover p ltac:(lia) Hocc) as (s & e & Hin & Hse).
    assert (He : e = p + 1).
    { destruct (Z_le_gt_dec (p + 1 + Z.max 1 minGap) e) as [Hle|Hgt].
      - exfalso.
        destruct (Hwin s e Hin (p + 1) ltac:(lia) Hle) as (j & Hj & Hfull).
        destruct (Hrun j ltac:(lia)) as [_ Hno]. exact (Hno Hfull).
      - destruct (Z.eq_dec e (p + 1)) as [|Hne]; [assumption|exfalso].
        destruct (Hgood _ Hin) as (_ & _ & _ & [Hend|[Hprev _]]); cbn in *.
        + destruct (Hrun (p + Z.max 1 minGap) ltac:(lia)). lia.
        + destruct (Hrun (e - 1) ltac:(lia)) as [_ Hno]. exact (Hno Hprev). }
    subst e. exists s. split; [assumption|lia].
  - intros s e s' e' Hin Hin' He k Hk Hk'.
    destruct (Hgood _ Hin) as (Hr & _ & _ & [Hend|[_ Hrun]]); cbn in *;
      [lia|].
    destruct (Hgood _ Hin') as (Hr' & _ & Hocc' & _); cbn in *.
    unfold gapWidth in Hrun.
    destruct (sorted_pairwise segs Hsort _ _ Hin Hin')
      as [E|[E|E]]; unfold before in E; cbn in E.
    + inversion E; subst. lia.
    + destruct (Hrun s' ltac:(lia)) as [_ Hfree]. exact (Hfree Hocc').
    + lia.
  - intros i j Hij Hj Hi_occ Hj_occ Hgap.
    destruct (Hcover i ltac:(lia) Hi_occ) as (s1 & e1 & Hin1 & Hi1).
    destruct (Hcover j ltac:(lia) Hj_occ) as (s2 & e2 & Hin2 & Hj2).
    destruct (sorted_pairwise segs Hsort _ _ Hin1 Hin2)
      as [E|[E|E]]; unfold before in E; cbn in E.
    + inversion E; subst. exists s2, e2. repeat split; [assumption|lia..].
    + exfalso. destruct (Hgood _ Hin1) as (_ & He1 & _ & [Hend|[_ Hrun]]);
        cbn in *; [lia|].
      unfold gapWidth in Hrun.
      destruct (Z_lt_le_dec j (e1 + Z.max 1 minGap)) as [Hlt|Hge]; [|lia].
      destruct (Hrun j ltac:(lia)) as [_ Hno]. exact (Hno Hj_occ).
    + lia.
  - intros p Hp Hocc Hlast Hshort.
    destruct (Hcover p Hp Hocc) as (s & e & Hin & Hse).
    destruct (Hgood _ Hin) as (_ & He & _ & [Hend|[Hprev Hrun]]); cbn in *.
    + subst e. exists s. split; [assumption|lia].
    + exfalso. unfold gapWidth in Hrun.
      destruct (Z.eq_dec (e - 1) p) as [Heq|Hne].
      * destruct (Hrun e ltac:(lia)) as [Hlt _].
        destruct (Hrun (e + Z.max 1 minGap - 1) ltac:(lia)) as [Hlt' _]. lia.
      * destruct (Hrun e ltac:(lia)) as [Hlt _].
        apply (Hlast (e - 1)); [lia|exact Hprev].
  - intros Hzero.
    pose proof (split_good values 0 minGap) as Hg0.
    destruct (splitProjectionProfile values 0 minGap) as [|seg l];
      [reflexivity|exfalso].
    inversion Hg0 as [|? ? (Hr & Hn & Hocc & _) _]; subst.
    unfold occ, pixel in Hocc.
    rewrite (Hzero (nth (Z.to_nat (fst seg)) values 0)) in Hocc; [lia|].
    apply nth_In. lia.
Qed.

(** On [1; 0; 1; 0; 0; 1] with a closing width of 2 the run of two
    unoccupied pixels after pixel 2 closes a segment at 3. *)
Lemma C3_split_witness :
  exists s,
    In (s, 2 + 1) (splitProjectionProfile [1; 0; 1; 0; 0; 1] 0 2) /\
    s <= 2.
Proof.
  apply (proj1 (proj2 (C3_split_closes_on_wide_gaps_only
                         [1; 0; 1; 0; 0; 1] 0 2)) 2).
  - lia.
  - reflexivity.
  - intros k Hk. change (Z.max 1 2) with 2 in Hk.
    assert (Hcases : k = 3 \/ k = 4) by lia.
    destruct Hcases as [->| ->]; (split; [reflexivity|]);
      vm_compute; discriminate.
Defined.

(** C4 as the specification words it fails for a ratio so large that the
    product with the page extent leaves the range of [int]: on a page of
    1000 pixels the ratio [0.05] gives the gap 50, and the ratio
    [3 * 10^6] gives the product [3 * 10^9], whose conversion is
    [INT_MIN], and so the gap [max 1 INT_MIN = 1]; the histogram
    [1; 0; 1; 0; 1] has one segment with the first ratio and three with
    the second. *)
Lemma C4_ratio_counterexample :
  (minGapRatio defaultConfig <= minGapRatio hugeGapConfig)%Q /\
  minGapOf 1000 defaultConfig = 50 /\
  (gapProduct 1000 hugeGapConfig == 3000000000)%Q /\
  minGapOf 1000 hugeGapConfig = 1 /\
  length (splitProjectionProfile
            [1; 0; 1; 0; 1] 0 (minGapOf 1000 defaultConfig)) = 1%nat /\
  length (splitProjectionProfile
            [1; 0; 1; 0; 1] 0 (minGapOf 1000 hugeGapConfig)) = 3%nat.
Proof.
  split; [discriminate|]. repeat split; vm_compute; reflexivity.
Qed.

(** C4, as the code has it: for a fixed histogram and [minValue], the number
    of segments of [splitProjectionProfile] never grows when [minGap]
    grows.  On a page of non-negative extent, and as long as the binary32
    product of the page extent and the larger ratio is below [2^31] (so
    that its conversion to [int] is defined), the gap width the recursive
    cut derives from [minGapRatio] grows with the ratio, and so a larger
    [minGapRatio] never yields more segments. *)
Theorem C4_segment_count_antitone_in_gap :
  forall (values : list Z) (minValue : Z),
    (forall minGap minGap',
       minGap <= minGap' ->
       (length (splitProjectionProfile values minValue minGap') <=
        length (splitProjectionProfile values minValue minGap))%nat) /\
    (forall (page : Z) (cfg cfg' : XYCutConfig),
       0 <= page -> (minGapRatio cfg <= minGapRatio cfg')%Q ->
       (gapProduct page cfg' < inject_Z (2 ^ 31))%Q ->
       minGapOf page cfg <= minGapOf page cfg' /\
       (length (splitProjectionProfile
                  values minValue (minGapOf page cfg')) <=
        length (splitProjectionProfile
                  values minValue (minGapOf page cfg)))%nat).
Proof.
  intros values minValue. split.
  - intros g g' Hg. now apply split_count_mono.
  - intros page cfg cfg' Hp Hr Hrange.
    pose proof (minGapOf_mono page cfg cfg' Hp Hr Hrange) as Hm.
    split; [exact Hm|]. now apply split_count_mono.
Qed.

Lemma C4_segment_count_witness :
  minGapOf 20 defaultConfig <= minGapOf 20 (mkXYCutConfig AUTO (1 # 10) 0) /\
  (length (splitProjectionProfile
             [1; 0; 1]%Z 0%Z (minGapOf 20 (mkXYCutConfig AUTO (1 # 10) 0))) <=
   length (splitProjectionProfile
             [1; 0; 1]%Z 0%Z (minGapOf 20 defaultConfig)))%nat.
Proof.
  apply (proj2 (C4_segment_count_antitone_in_gap [1; 0; 1] 0)
               20 defaultConfig (mkXYCutConfig AUTO (1 # 10) 0)).
  - lia.
  - discriminate.
  - vm_compute. reflexivity.
Defined.

(** C5 as the specification words it fails on a single box 200 high whose
    width is less than 300 by [2^-17]: the width is less than 1.5 times
    the height, so no box of positive width and height satisfies the
    worded test and the worded rule gives [VERTICAL]; the code holds the
    width in a binary32 variable, where it is 300, and returns
    [HORIZONTAL]. *)
Lemma C5_rounding_counterexample :
  detectTextDirection [nearly_wide] = HORIZONTAL /\
  Qltb 0 (width nearly_wide) && Qltb 0 (height nearly_wide) = true /\
  Qle_bool (height nearly_wide * (3 # 2)) (width nearly_wide) = false /\
  (width32 nearly_wide == 300)%Q.
Proof.
  repeat split; vm_compute; reflexivity.
Qed.

(** C5, as the code has it: [detectTextDirection] is a vote on the box
    dimensions, which it holds in binary32 variables.  It returns
    [HORIZONTAL] exactly when the list is empty, or no box has strictly
    positive width and height, or the rounded ratio of the boxes that vote
    "wide" to the boxes of strictly positive width and height is at least
    one half; otherwise it returns [VERTICAL].  A box votes "wide" when
    its width is at least the rounded product of its height and 1.5.  With
    fewer than [2^24] boxes of positive width and height the ratio test is
    the exact one: at least half of them vote "wide".  For boxes whose
    width and height are integers below [2^24] (the height below a third
    of it) the dimensions and the product are exact, and the vote is the
    worded one.  Two lists with the same multiset of (width, height) pairs
    get the same answer, whatever their order, categories, confidences and
    positions. *)
Theorem C5_detect_direction_is_a_dimension_vote :
  forall boxes : list LayoutBox,
    let total := consideredCount boxes in
    let wides := wideCount boxes in
    let majority :=
      (1 # 2 <=
       Float32Facts.ratio32 (Z.of_nat wides) (Z.of_nat total))%Q in
    let no_positive_box :=
      forall b, In b boxes -> ~ (0 < width32 b /\ 0 < height32 b)%Q in
    (detectTextDirection boxes = HORIZONTAL <->
     boxes = [] \/ no_positive_box \/ majority) /\
    (detectTextDirection boxes = VERTICAL <->
     ~ (boxes = [] \/ no_positive_box \/ majority)) /\
    (forall b, considered b = true <-> (0 < width32 b /\ 0 < height32 b)%Q) /\
    (forall b, wide b = true <->
               (Float32.round (height32 b * (3 # 2)) <= width32 b)%Q) /\
    ((0 < total)%nat -> Z.of_nat total < 2 ^ 24 ->
     (majority <-> (total <= 2 * wides)%nat)) /\
    (forall (b : LayoutBox) (w h : Z),
       (width b == inject_Z w)%Q -> (height b == inject_Z h)%Q ->
       Z.abs w < 2 ^ 24 -> 3 * Z.abs h < 2 ^ 24 ->
       (considered b = true <-> 0 < w /\ 0 < h) /\
       (wide b = true <-> 3 * h <= 2 * w)) /\
    (forall boxes' : list LayoutBox,
       Permutation (map dims boxes) (map dims boxes') ->
       detectTextDirection boxes = detectTextDirection boxes').
Proof.
  intros boxes total wides majority no_positive_box.
  assert (Hzero : total = 0%nat <-> no_positive_box)
    by apply consideredCount_zero.
  assert (Hcases :
    (detectTextDirection boxes = HORIZONTAL /\
     (boxes = [] \/ no_positive_box \/ majority)) \/
    (detectTextDirection boxes = VERTICAL /\
     ~ (boxes = [] \/ no_positive_box \/ majority))).
  { rewrite detect_unfold. destruct boxes as [|b0 boxes0] eqn:Eb.
    - left. split; [reflexivity|now left].
    - fold total wides. destruct (Z.of_nat total =? 0) eqn:E0.
      + left. split; [reflexivity|]. right; left. apply Hzero.
        zbool. lia.
      + destruct (Qle_bool (1 # 2)
                    (Float32Facts.ratio32 (Z.of_nat wides) (Z.of_nat total)))
          eqn:Er.
        * left. split; [reflexivity|]. right; right.
          now apply Qle_bool_iff.
        * right. split; [reflexivity|]. intros [H|[H|H]].
          -- discriminate.
          -- apply Hzero in H. zbool. lia.
          -- apply Qle_bool_iff in H. unfold majority in H. congruence. }
  split; [|split; [|split; [|split; [|split; [|split]]]]].
  - destruct Hcases as [[H1 H2]|[H1 H2]]; split; intros H;
      try assumption; try congruence; contradiction.
  - destruct Hcases as [[H1 H2]|[H1 H2]]; split; intros H;
      try assumption; try congruence; contradiction.
  - apply considered_iff.
  - apply wide_iff.
  - intros Hpos Hsmall. unfold majority.
    pose proof (wideCount_le boxes) as Hle. fold total wides in Hle.
    rewrite Float32Facts.ratio32_majority by lia. lia.
  - apply vote_exact.
  - intros boxes' Hperm.
    destruct (counts_by_dims boxes boxes' Hperm) as [Hc Hw].
    rewrite !detect_unfold. fold total wides in Hc, Hw.
    assert (Hlen : length boxes = length boxes').
    { rewrite <- (length_map dims boxes),
              <- (length_map dims boxes').
      now apply Permutation_length. }
    destruct boxes as [|b0 boxes0], boxes' as [|b0' boxes0'];
      try discriminate; [reflexivity|].
    fold total wides. now rewrite <- Hc, <- Hw.
Qed.

Lemma C5_detect_direction_witness :
  detectTextDirection [box 0 0 30 10; box 0 20 10 90] =
  detectTextDirection [box 0 20 10 90; box 0 0 30 10].
Proof.
  apply (proj2 (proj2 (proj2 (proj2 (proj2 (proj2
           (C5_detect_direction_is_a_dimension_vote
              [box 0 0 30 10; box 0 20 10 90]))))))
           [box 0 20 10 90; box 0 0 30 10]).
  apply perm_swap.
Defined.

(** C6 as the specification words it fails on a single box whose extent on
    the X axis is [300.5, 301.75): the histogram has 1 at pixel 300, which
    the extent does not cover, and 0 at pixel 301, which it covers; the
    code counts the pixels from the truncated lower bound to the truncated
    upper bound.  And a bound of [3 * 10^9] is outside the range on which
    [static_cast<int>] is defined: the conversion of the x86-64 build
    gives [INT_MIN], so the box is clipped to nothing although its extent
    covers the page. *)
Lemma C6_extent_counterexample :
  exists proj,
    projectionByBboxes [sliver] 0 400 = Done proj /\
    nth 300 proj 0 = 1 /\ extent_covers 0 sliver 300 = false /\
    nth 301 proj 0 = 0 /\ extent_covers 0 sliver 301 = true /\
    Z.min 400 (cvttss2si (x1 far_box)) = INT_MIN /\
    extent_covers 0 far_box 200 = true.
Proof.
  eexists. split; [vm_compute; reflexivity|].
  repeat split; vm_compute; reflexivity.
Qed.

(** C6, as the code has it: on a page of positive length and for boxes whose
    bounds on the axis convert within the range of [int],
    [projectionByBboxes] returns (without fault) a histogram of exactly
    [size] entries.  Entry [i] is the number of boxes that are counted at
    [i]: those whose extent begins below the upper end [i + 1] of the pixel
    and reaches it, [lo < i + 1 <= hi]; each such box contributes 1, and
    what lies outside [0, size) contributes nothing.  For boxes whose
    bounds on the axis are integers this is the number of boxes whose
    extent [[lo, hi)] covers [i].  On the stated range the conversions of
    the build are the truncations that the pixel span is made of. *)
Theorem C6_projection_counts_covering_boxes :
  forall (boxes : list LayoutBox) (axis size : Z),
    0 < size ->
    Forall (fun b => converts (axis_lo axis b) /\ converts (axis_hi axis b))
           boxes ->
    exists proj,
      projectionByBboxes boxes axis size = Done proj /\
      length proj = Z.to_nat size /\
      (forall i, 0 <= i < size ->
         nth (Z.to_nat i) proj 0 =
         Z.of_nat (length (filter (fun b => counted axis b i) boxes))) /\
      (forall b i,
         counted axis b i = true <->
         (axis_lo axis b < inject_Z (i + 1) /\
          inject_Z (i + 1) <= axis_hi axis b)%Q) /\
      (Forall (integral axis) boxes ->
       forall i, 0 <= i < size ->
         nth (Z.to_nat i) proj 0 =
         Z.of_nat (length (filter (fun b => extent_covers axis b i) boxes))) /\
      Forall (fun b =>
                span axis size b =
                (Z.max 0 (cvttss2si (axis_lo axis b)),
                 Z.min size (cvttss2si (axis_hi axis b))))
             boxes.
Proof.
  intros boxes axis size Hsize Hrange.
  destruct (projection_spec boxes axis size) as (proj & Hrun & Hlen & Hn);
    [lia|].
  assert (Hcount : forall i, 0 <= i < size ->
            nth (Z.to_nat i) proj 0 =
            Z.of_nat (length (filter (fun b => counted axis b i) boxes))).
  { intros i Hi. rewrite (Hn i Hi). unfold coverage. f_equal.
    apply count_ext. apply Forall_forall. intros b _.
    now apply covers_counted. }
  exists proj. split; [exact Hrun|]. split; [exact Hlen|].
  split; [exact Hcount|]. split; [apply counted_iff|]. split.
  - intros Hint i Hi. rewrite (Hcount i Hi). f_equal.
    apply count_ext. eapply Forall_impl; [|exact Hint].
    intros b Hb. now apply counted_integral.
  - eapply Forall_impl; [|exact Hrange].
    intros b [Hlo Hhi]. rewrite span_eq.
    now rewrite (converts_cvttss2si _ Hlo), (converts_cvttss2si _ Hhi).
Qed.

Lemma C6_projection_witness :
  exists proj,
    projectionByBboxes [box 1 0 3 2; box 2 0 9 2] 0 4 = Done proj /\
    length proj = Z.to_nat 4 /\
    (forall i, 0 <= i < 4 ->
       nth (Z.to_nat i) proj 0 =
       Z.of_nat
         (length (filter (fun b => counted 0 b i)
                         [box 1 0 3 2; box 2 0 9 2]))) /\
    (forall b i,
       counted 0 b i = true <->
       (axis_lo 0 b < inject_Z (i + 1) /\
        inject_Z (i + 1) <= axis_hi 0 b)%Q) /\
    (Forall (integral 0) [box 1 0 3 2; box 2 0 9 2] ->
     forall i, 0 <= i < 4 ->
       nth (Z.to_nat i) proj 0 =
       Z.of_nat
         (length (filter (fun b => extent_covers 0 b i)
                         [box 1 0 3 2; box 2 0 9 2]))) /\
    Forall (fun b =>
              span 0 4 b =
              (Z.max 0 (cvttss2si (axis_lo 0 b)),
               Z.min 4 (cvttss2si (axis_hi 0 b))))
           [box 1 0 3 2; box 2 0 9 2].
Proof.
  apply (C6_projection_counts_covering_boxes
           [box 1 0 3 2; box 2 0 9 2] 0 4).
  - lia.
  - repeat constructor.
Defined.

Lemma ladder_is_leaf :
  is_leaf ladder [0; 1; 2]%nat 64 64 verticalConfig.
Proof.
  split; [cbn; lia|].
  eexists _, _, _. split; [reflexivity|].
  split; [vm_compute; reflexivity|]. split; [vm_compute; reflexivity|].
  split; vm_compute; lia.
Qed.




(** C8: the recursive cuts terminate.  With a recursion budget of at least
    the number of indices, [recursiveXYCut] and [recursiveYXCut] come back
    without exhausting it, and every such budget gives the same outcome: the
    recursion depth is bounded by the number of boxes.  The reason is that
    whenever a projection splits into two or more segments, each group handed
    to a recursive call is strictly smaller than the caller's index list. *)
Theorem C8_recursive_cuts_terminate :
  forall (sort : (nat -> nat -> bool) -> list nat -> list nat)
         (boxes : list LayoutBox) (indices : list nat)
         (pageWidth pageHeight : Z) (config : XYCutConfig)
         (result : list nat) (fuel : nat),
    (length indices <= fuel)%nat ->
    terminates (recursiveXYCut sort fuel boxes indices
                  pageWidth pageHeight config result) /\
    terminates (recursiveYXCut sort fuel boxes indices
                  pageWidth pageHeight config result) /\
    recursiveXYCut sort fuel boxes indices
      pageWidth pageHeight config result =
    recursiveXYCut sort (length indices) boxes indices
      pageWidth pageHeight config result /\
    recursiveYXCut sort fuel boxes indices
      pageWidth pageHeight config result =
    recursiveYXCut sort (length indices) boxes indices
      pageWidth pageHeight config result /\
    (forall subBoxes xProj,
       gather boxes indices = Done subBoxes ->
       projectionByBboxes subBoxes 0 pageWidth = Done xProj ->
       let xSegments :=
         splitProjectionProfile
           xProj (minValOf config) (minGapOf pageWidth config) in
       (1 < length xSegments)%nat ->
       forall seg, In seg xSegments ->
         (length (group center_x seg indices subBoxes) <
          length indices)%nat) /\
    (forall subBoxes yProj,
       gather boxes indices = Done subBoxes ->
       projectionByBboxes subBoxes 1 pageHeight = Done yProj ->
       let ySegments :=
         splitProjectionProfile
           yProj (minValOf config) (minGapOf pageHeight config) in
       (1 < length ySegments)%nat ->
       forall seg, In seg ySegments ->
         (length (group center_y seg indices subBoxes) <
          length indices)%nat).
Proof.
  intros sort boxes indices W H cfg result fuel Hfuel.
  rewrite !recursiveXYCut_cutWith, !recursiveYXCut_cutWith.
  repeat split.
  - now apply cutWith_terminates.
  - now apply cutWith_terminates.
  - apply cutWith_fuel; [assumption|lia].
  - apply cutWith_fuel; [assumption|lia].
  - intros sub xProj Hg Hp segs Hlen seg Hin.
    apply (group_smaller sub indices 0 W xProj _ _
             (gather_length _ _ _ Hg) Hp Hlen seg Hin).
  - intros sub yProj Hg Hp segs Hlen seg Hin.
    apply (group_smaller sub indices 1 H yProj _ _
             (gather_length _ _ _ Hg) Hp Hlen seg Hin).
Qed.

Lemma C8_terminate_witness :
  (length [0; 1; 2]%nat <= 3)%nat /\
  terminates
    (recursiveXYCut insertion_sort 3
       [mkLayoutBox 0 0 100 500 TEXT 1 0;
        mkLayoutBox 600 0 700 500 TEXT 1 1;
        mkLayoutBox 0 600 700 800 TEXT 1 2]
       [0; 1; 2]%nat 1000 1000 defaultConfig []).
Proof.
  assert (Hfuel : (length [0; 1; 2]%nat <= 3)%nat) by (cbn; lia).
  split; [exact Hfuel|].
  exact (proj1 (C8_recursive_cuts_terminate insertion_sort
                  [mkLayoutBox 0 0 100 500 TEXT 1 0;
                   mkLayoutBox 600 0 700 500 TEXT 1 1;
                   mkLayoutBox 0 600 700 800 TEXT 1 2]
                  [0; 1; 2]%nat 1000 1000 defaultConfig [] 3 Hfuel)).
Defined.



Lemma side_by_side_on_grid :
  Forall (on_grid 1024 1024) side_by_side /\
  Forall (on_grid 1024 1024)
         (map (translate (inject_Z 10) (inject_Z 20)) side_by_side).
Proof.
  split.
  - constructor; [|constructor; [|constructor]].
    + exists 0, 50, 100, 150. cbn. repeat split; try reflexivity; lia.
    + exists 180, 0, 280, 100. cbn. repeat split; try reflexivity; lia.
  - constructor; [|constructor; [|constructor]].
    + exists 10, 70, 110, 170. cbn. repeat split; try reflexivity; lia.
    + exists 190, 20, 290, 120. cbn. repeat split; try reflexivity; lia.
Qed.


(** C10: the segments returned by [splitProjectionProfile] are well formed.
    Every segment is a non-empty half-open interval inside the histogram,
    a segment listed earlier ends strictly before a segment listed later
    starts, and two different segments share no position. *)
Theorem C10_split_segments_well_formed :
  forall (values : list Z) (minValue minGap : Z),
    let segs := splitProjectionProfile values minValue minGap in
    (forall s e, In (s, e) segs ->
       0 <= s /\ s < e /\ e <= Z.of_nat (length values)) /\
    (forall (i j : nat) d, (i < j < length segs)%nat ->
       snd (nth i segs d) < fst (nth j segs d)) /\
    (forall a b, In a segs -> In b segs -> a <> b ->
       forall k, ~ (fst a <= k < snd a /\ fst b <= k < snd b)).
Proof.
  intros values minValue minGap segs.
  pose proof (split_good values minValue minGap) as Hgood.
  pose proof (split_sorted values minValue minGap) as Hsort.
  fold segs in Hgood, Hsort. rewrite Forall_forall in Hgood.
  split; [|split].
  - intros s e Hin. destruct (Hgood _ Hin) as (H1 & H2 & _). cbn in *. lia.
  - intros i j d Hij. exact (sorted_nth segs Hsort i j d Hij).
  - intros a b Ha Hb Hab k [Hka Hkb].
    destruct (sorted_pairwise segs Hsort a b Ha Hb) as [E|[E|E]];
      [contradiction| |]; unfold before in E; lia.
Qed.

Lemma C10_split_witness :
  In (3, 4) (splitProjectionProfile [1; 0; 0; 1] 0 2) /\
  (0 <= 3 /\ 3 < 4 /\ 4 <= Z.of_nat (length [1; 0; 0; 1])).
Proof.
  assert (Hin : In (3, 4) (splitProjectionProfile [1; 0; 0; 1] 0 2))
    by (right; left; reflexivity).
  split; [exact Hin|].
  exact (proj1 (C10_split_segments_well_formed [1; 0; 0; 1] 0 2) 3 4 Hin).
Defined.

(** * Further properties *)

(** ** The cuts *)

(** X1: on a page of non-negative extent [xycutPlusSort] returns, without
    fault, a sequence of indices of the input in which no index occurs
    twice. *)
Theorem X1_output_has_no_repeats :
  forall (sort : (nat -> nat -> bool) -> list nat -> list nat)
         (boxes : list LayoutBox) (pageWidth pageHeight : Z)
         (config : XYCutConfig),
    sort_contract sort -> 0 <= pageWidth -> 0 <= pageHeight ->
    exists out,
      xycutPlusSort sort boxes pageWidth pageHeight config = Done out /\
      NoDup out /\
      forall i, In i out -> (i < length boxes)%nat.
Proof.
  intros sort boxes W H cfg Hsort HW HH.
  destruct boxes as [|b boxes].
  - exists []. repeat split; [constructor|intros i []].
  - destruct (xycutPlusSort_cases sort (b :: boxes) W H cfg)
      as (leaf & axisA & axisB & ->); [discriminate|].
    destruct (cutWith_done sort leaf axisA axisB (length (b :: boxes))
                (b :: boxes) (seq 0 (length (b :: boxes))) W H cfg [])
      as (r & Hr); [now rewrite length_seq|apply seq_in_range|
                    assumption..|].
    destruct (cutWith_output sort (sort_perm _ Hsort) leaf
                axisA axisB _ _ _ _ _ _ _ r (seq_NoDup _ 0) Hr)
      as (out & -> & Hnd & Hincl).
    exists out. split; [exact Hr|]. split; [exact Hnd|].
    intros i Hi. apply Hincl, in_seq in Hi. lia.
Qed.

Lemma X1_no_repeats_witness :
  exists out,
    xycutPlusSort insertion_sort columns_and_sliver 1000 1000 defaultConfig
    = Done out /\
    NoDup out /\
    forall i, In i out -> (i < length columns_and_sliver)%nat.
Proof.
  apply (X1_output_has_no_repeats insertion_sort
           columns_and_sliver 1000 1000 defaultConfig
           insertion_sort_contract); lia.
Defined.



(** X3: no box gives the empty sequence and a single box of any geometry
    gives [[0]], on any page and with any configuration. *)
Theorem X3_empty_and_single_box :
  forall (sort : (nat -> nat -> bool) -> list nat -> list nat)
         (pageWidth pageHeight : Z) (config : XYCutConfig),
    xycutPlusSort sort [] pageWidth pageHeight config = Done [] /\
    forall b : LayoutBox,
      xycutPlusSort sort [b] pageWidth pageHeight config
      = Done [0%nat].
Proof.
  intros sort W H cfg. split; [reflexivity|].
  intros b. unfold xycutPlusSort.
  destruct (match direction cfg with
            | AUTO => detectTextDirection [b]
            | d => d
            end); reflexivity.
Qed.

(** X4: the two pages of the specification.  Two columns on a 1000 x 1000
    page are read left column first in horizontal mode, and two stacked rows
    are read top row first with the default configuration. *)
Theorem X4_two_columns_and_stacked_rows :
  forall sort : (nat -> nat -> bool) -> list nat -> list nat,
    xycutPlusSort sort
      [box 0 0 100 500; box 600 0 700 500] 1000 1000
      (mkXYCutConfig HORIZONTAL (1 # 20) 0) = Done [0; 1]%nat /\
    xycutPlusSort sort
      [box 0 0 1000 100; box 0 200 1000 300] 1000 1000
      defaultConfig = Done [0; 1]%nat.
Proof.
  intros sort. split; vm_compute; reflexivity.
Qed.

Import CutOrderFacts.

Lemma two_columns_on_grid : Forall (on_grid 1000 1000) two_columns.
Proof.
  constructor; [|constructor; [|constructor]].
  - exists 600, 0, 700, 500. cbn. repeat split; try reflexivity; lia.
  - exists 0, 0, 100, 500. cbn. repeat split; try reflexivity; lia.
Qed.









(** ** Layout types *)

Import Types TypesFacts.

(** X9: [layoutCategoryToString] gives the 21 categories 21 different
    names: two categories have the same name only when they are the same
    category. *)
Theorem X9_category_names_are_distinct :
  forall a b : LayoutCategory,
    layoutCategoryToString a = layoutCategoryToString b <-> a = b.
Proof.
  intros a b. split; [|now intros ->].
  destruct a, b; intros E; try reflexivity; discriminate E.
Qed.

(** X10: [getSupportedBoxes] and [getUnsupportedBoxes] split the detected
    boxes in two: together they hold every box exactly as often as the
    layout result does, the unsupported ones are exactly the boxes of the
    two equation categories and the supported ones are all the others. *)
Theorem X10_supported_and_unsupported_split_the_boxes :
  forall r : LayoutResult,
    Permutation (getSupportedBoxes r ++ getUnsupportedBoxes r) (boxes r) /\
    (forall b, In b (getUnsupportedBoxes r) <->
               In b (boxes r) /\
               (category b = EQUATION \/ category b = INTERLINE_EQUATION)) /\
    (forall b, In b (getSupportedBoxes r) <->
               In b (boxes r) /\
               category b <> EQUATION /\ category b <> INTERLINE_EQUATION).
Proof.
  intros r. split; [apply filter_split_perm|].
  unfold getUnsupportedBoxes, getSupportedBoxes.
  split; intros b; rewrite filter_In;
    (split; intros [Hin Hc]; split; [exact Hin| |exact Hin|]);
    destruct (category b); cbn in *;
    try discriminate; try reflexivity; try tauto;
    try (split; discriminate);
    try (destruct Hc as [Hc|Hc]; discriminate Hc);
    try (destruct Hc as [Hc Hc']; congruence).
Qed.

(** X11: the four selections that [processPage] hands to its stages (text
    boxes to OCR, table boxes to table recognition, figure boxes to image
    extraction, unsupported boxes to the placeholders) never share a box,
    and the boxes that none of them selects are exactly those of the
    categories figure caption, table caption, table footnote, stamp, table
    of contents, separator and unknown. *)
Theorem X11_stage_selections_partition_the_boxes :
  forall r : LayoutResult,
    Permutation
      (getTextBoxes r ++ getTableBoxes r ++ getBoxesByCategory r FIGURE ++
       getUnsupportedBoxes r ++
       filter (fun b => unclaimed (category b)) (boxes r))
      (boxes r).
Proof.
  intros [l]. unfold getTextBoxes, getTableBoxes, getBoxesByCategory,
    getUnsupportedBoxes. cbn [boxes].
  induction l as [|b l IH]; [constructor|].
  cbn [filter].
  destruct (category b); cbn [categoryEq categoryValue Z.eqb orb negb
    isCategorySupported unclaimed Pos.eqb];
    first
      [ exact (Permutation_cons eq_refl IH)
      | apply (Permutation_into b l (filter _ l)); exact IH
      | rewrite (app_assoc (filter _ l) (filter _ l));
        apply (Permutation_into b l); rewrite <- app_assoc; exact IH
      | rewrite (app_assoc (filter _ l) (filter _ l)),
          (app_assoc (filter _ l ++ filter _ l) (filter _ l));
        apply (Permutation_into b l); rewrite <- !app_assoc; exact IH
      | rewrite (app_assoc (filter _ l) (filter _ l)),
          (app_assoc (filter _ l ++ filter _ l) (filter _ l)),
          (app_assoc ((filter _ l ++ filter _ l) ++ filter _ l) (filter _ l));
        apply (Permutation_into b l); rewrite <- !app_assoc; exact IH ].
Qed.

(** X12: for an element whose box lies inside a page of positive width and
    height (0 <= x0 <= x1 <= width, 0 <= y0 <= y1 <= height),
    [getNormalizedBBox] returns coordinates on the 0..1000 scale that keep
    the order of the corners: 0 <= x0' <= x1' <= 1000 and
    0 <= y0' <= y1' <= 1000. *)
Theorem X12_normalized_bbox_stays_on_the_scale :
  forall (e : ContentElement.t) (pageWidth pageHeight : Z),
    0 < pageWidth -> 0 < pageHeight ->
    (0 <= x0 (ContentElement.layoutBox e))%Q ->
    (x0 (ContentElement.layoutBox e) <= x1 (ContentElement.layoutBox e))%Q ->
    (x1 (ContentElement.layoutBox e) <= inject_Z pageWidth)%Q ->
    (0 <= y0 (ContentElement.layoutBox e))%Q ->
    (y0 (ContentElement.layoutBox e) <= y1 (ContentElement.layoutBox e))%Q ->
    (y1 (ContentElement.layoutBox e) <= inject_Z pageHeight)%Q ->
    exists nb,
      getNormalizedBBox e pageWidth pageHeight = Done nb /\
      0 <= ContentElement.NormalizedBBox.x0 nb
        <= ContentElement.NormalizedBBox.x1 nb /\
      ContentElement.NormalizedBBox.x1 nb <= 1000 /\
      0 <= ContentElement.NormalizedBBox.y0 nb
        <= ContentElement.NormalizedBBox.y1 nb /\
      ContentElement.NormalizedBBox.y1 nb <= 1000.
Proof.
  intros e W H HW HH X0 X01 X1 Y0 Y01 Y1.
  unfold getNormalizedBBox.
  destruct (W =? 0) eqn:EW; [zbool; lia|].
  destruct (H =? 0) eqn:EH; [zbool; lia|].
  cbn [orb]. eexists. split; [reflexivity|].
  cbn [ContentElement.NormalizedBBox.x0 ContentElement.NormalizedBBox.x1
       ContentElement.NormalizedBBox.y0 ContentElement.NormalizedBBox.y1].
  set (b := ContentElement.layoutBox e) in *.
  assert (T0 : truncQ 0 = 0) by reflexivity.
  assert (T1 : truncQ 1000 = 1000) by reflexivity.
  repeat split.
  - rewrite <- T0. apply truncQ_mono, scaled_bounds; [assumption|lra|lra].
  - apply truncQ_mono, scaled_mono; assumption.
  - rewrite <- T1. apply truncQ_mono, scaled_bounds; [assumption|lra|lra].
  - rewrite <- T0. apply truncQ_mono, scaled_bounds; [assumption|lra|lra].
  - apply truncQ_mono, scaled_mono; assumption.
  - rewrite <- T1. apply truncQ_mono, scaled_bounds; [assumption|lra|lra].
Qed.

Lemma X12_normalized_bbox_witness :
  exists nb,
    getNormalizedBBox (ContentElement.make (box 50 100 300 150)) 400 800
    = Done nb /\
    0 <= ContentElement.NormalizedBBox.x0 nb
      <= ContentElement.NormalizedBBox.x1 nb /\
    ContentElement.NormalizedBBox.x1 nb <= 1000 /\
    0 <= ContentElement.NormalizedBBox.y0 nb
      <= ContentElement.NormalizedBBox.y1 nb /\
    ContentElement.NormalizedBBox.y1 nb <= 1000.
Proof.
  apply (X12_normalized_bbox_stays_on_the_scale
           (ContentElement.make (box 50 100 300 150)) 400 800);
    cbn; try lia; unfold Qle; cbn; lia.
Defined.



(** ** Configuration *)

Import Config.

(** X14: [validate] returns the empty string exactly when every file that
    an enabled stage needs exists: both layout models when layout is
    enabled, the table model when wired tables are enabled, the OCR model
    directory and dictionary when OCR is enabled.  Otherwise it returns a
    non-empty message that ends with a path of the configuration that
    does not exist. *)
Theorem X14_validate_is_empty_iff_enabled_models_exist :
  forall (fs_exists : String.string -> bool) (cfg : PipelineConfig),
    (validate fs_exists cfg = String.EmptyString <->
     (enableLayout (stages cfg) = true ->
      fs_exists (layoutDxnnModel (models cfg)) = true /\
      fs_exists (layoutOnnxSubModel (models cfg)) = true) /\
     (enableWiredTable (stages cfg) = true ->
      fs_exists (tableUnetDxnnModel (models cfg)) = true) /\
     (enableOcr (stages cfg) = true ->
      fs_exists (ocrModelDir (models cfg)) = true /\
      fs_exists (ocrDictPath (models cfg)) = true)) /\
    (validate fs_exists cfg = String.EmptyString \/
     exists label path,
       validate fs_exists cfg = String.append label path /\
       label <> String.EmptyString /\
       fs_exists path = false /\
       In path [layoutDxnnModel (models cfg);
                layoutOnnxSubModel (models cfg);
                tableUnetDxnnModel (models cfg);
                ocrModelDir (models cfg);
                ocrDictPath (models cfg)]).
Proof.
  intros ex cfg. unfold validate.
  destruct (enableLayout (stages cfg)), (enableWiredTable (stages cfg)),
    (enableOcr (stages cfg));
    destruct (ex (layoutDxnnModel (models cfg))) eqn:E1;
    destruct (ex (layoutOnnxSubModel (models cfg))) eqn:E2;
    destruct (ex (tableUnetDxnnModel (models cfg))) eqn:E3;
    destruct (ex (ocrModelDir (models cfg))) eqn:E4;
    destruct (ex (ocrDictPath (models cfg))) eqn:E5;
    cbn [andb negb];
    (split;
     [ split;
       [ intros E; try discriminate E;
         repeat split; intros; try reflexivity; discriminate
       | intros (H1 & H2 & H3);
         try reflexivity;
         try (destruct (H1 eq_refl); discriminate);
         try (pose proof (H2 eq_refl); discriminate);
         try (destruct (H3 eq_refl); discriminate) ]
     | first
         [ left; reflexivity
         | right; do 2 eexists;
           (split; [reflexivity|]);
           (split; [discriminate|]);
           (split; [eassumption|]);
           cbn [In]; tauto ] ]).
Qed.

(** ** The page pipeline *)

Import Types TypesFacts Config Pipeline PipelineFacts.

(** X15: the reading-order step of [processPage] returns for every list
    of elements on an image of non-negative extent.  What it returns has no
    more elements than it was given, and every one of them is an element
    it was given, up to its reading order.  When the reading order is
    enabled the element at position k carries the reading order k; when
    it is disabled the elements come back unchanged. *)
Theorem X15_reading_order_numbers_the_elements :
  forall (Mat : Type) (cols rows : Mat -> Z)
         (sort : (nat -> nat -> bool) -> list nat -> list nat)
         (p : DocPipeline.t) (image : Mat)
         (elements : list ContentElement.t),
    sort_contract sort -> 0 <= cols image -> 0 <= rows image ->
    exists sorted,
      readingOrderSort Mat cols rows sort p image elements = Done sorted /\
      (length sorted <= length elements)%nat /\
      (forall e', In e' sorted ->
                  exists e, In e elements /\ same_content e' e) /\
      (enableReadingOrder (stages (DocPipeline.config_ p)) = true ->
       forall k e, nth_error sorted k = Some e ->
                   ContentElement.readingOrder e = Z.of_nat k) /\
      (enableReadingOrder (stages (DocPipeline.config_ p)) = false ->
       sorted = elements).
Proof.
  intros Mat cols rows sort p image elements Hsort HW HH.
  destruct (readingOrderSort_cases
              Mat cols rows sort (sort_perm _ Hsort) p image elements HW HH)
    as [[E Hwhy]|(Hon & idxs & sorted & Hrun & Hnd & E & Hp)].
  - exists elements. split; [exact E|]. split; [lia|]. split.
    { intros e' He'. exists e'. split; [exact He'|reflexivity]. }
    split; [|reflexivity].
    intros Hon. destruct Hwhy as [Hoff| ->]; [congruence|].
    intros [|k] e Hk; discriminate Hk.
  - exists sorted. split; [exact E|]. split.
    { exact (readingOrderSort_length
               Mat cols rows sort (sort_perm _ Hsort) p image elements
               sorted HW HH E). }
    split; [exact (picked_in _ _ _ _ Hp)|]. split.
    + intros _ k e Hk. apply (picked_numbering _ _ _ _ Hp k e Hk).
    + congruence.
Qed.

Lemma X15_reading_order_witness :
  exists sorted,
    readingOrderSort (Z * Z) fst snd insertion_sort samplePipeline
                     (1000, 1000) sampleElements = Done sorted /\
    (length sorted <= length sampleElements)%nat /\
    (forall e', In e' sorted ->
                exists e, In e sampleElements /\ same_content e' e) /\
    (enableReadingOrder (stages (DocPipeline.config_ samplePipeline)) = true ->
     forall k e, nth_error sorted k = Some e ->
                 ContentElement.readingOrder e = Z.of_nat k) /\
    (enableReadingOrder (stages (DocPipeline.config_ samplePipeline)) = false ->
     sorted = sampleElements).
Proof.
  apply (X15_reading_order_numbers_the_elements
           (Z * Z)%type fst snd insertion_sort samplePipeline (1000, 1000)
           sampleElements insertion_sort_contract); cbn; lia.
Defined.


Lemma sampleElements_on_grid :
  Forall (fun e => on_grid 1000 1000 (ContentElement.layoutBox e))
         sampleElements.
Proof.
  constructor; [|constructor; [|constructor]].
  - exists 600, 0, 700, 500. cbn. repeat split; try reflexivity; lia.
  - exists 0, 0, 100, 500. cbn. repeat split; try reflexivity; lia.
Qed.


(** Case analysis on the category of a selected box. *)
Ltac by_category b H :=
  let E := fresh "Ecat" in
  destruct (category b) eqn:E; cbn in H |- *; rewrite ?E;
  try discriminate H; try reflexivity.

(** X17: [processPage] returns for every image of non-negative extent.
    The page result carries the page index of the image and the layout
    result of the detector, and its table results are empty.  Every
    element holds a box of the layout result, and its type is fixed by
    the category of that box: title for a title, text for the other nine
    text categories, table for a table, image for a figure, equation for
    the two equation categories.  No element is made of a box of any
    other category, and no element has the type code, list, header,
    footer, reference or unknown. *)
Theorem X17_page_elements_are_typed_by_category :
  forall (Mat : Type) (cols rows : Mat -> Z)
         (rectAnd : cv.Rect -> cv.Rect -> cv.Rect)
         (crop : Mat -> cv.Rect -> Mat) (detect : Mat -> LayoutResult)
         (estimateTableType : Mat -> TableType.t)
         (sort : (nat -> nat -> bool) -> list nat -> list nat)
         (p : DocPipeline.t) (pageImage : PageImage.t Mat),
    sort_contract sort ->
    0 <= cols (PageImage.image pageImage) ->
    0 <= rows (PageImage.image pageImage) ->
    exists res written,
      processPage Mat cols rows rectAnd crop detect estimateTableType sort
                  p pageImage = Done (res, written) /\
      PageResult.pageIndex res = PageImage.pageIndex pageImage /\
      PageResult.layoutResult res
      = detectLayout Mat detect p (PageImage.image pageImage) /\
      PageResult.tableResults res = [] /\
      Forall (fun e =>
                In (ContentElement.layoutBox e)
                   (boxes (PageResult.layoutResult res)) /\
                elementType (category (ContentElement.layoutBox e))
                = Some (ContentElement.type e))
             (PageResult.elements res).
Proof.
  intros Mat cols rows rectAnd crop detect estimateTableType sort p
         pageImage Hsort HW HH.
  set (layout := detectLayout Mat detect p (PageImage.image pageImage)).
  destruct (processPage_forall
              Mat cols rows rectAnd crop detect estimateTableType sort
              (sort_perm _ Hsort)
              (fun e =>
                 In (ContentElement.layoutBox e) (boxes layout) /\
                 elementType (category (ContentElement.layoutBox e))
                 = Some (ContentElement.type e))
              p pageImage) as (elements & E & _ & Hall);
    try assumption.
  - intros e e' Hs [Hin Hty].
    destruct (same_content_fields _ _ Hs) as (Et & _ & _ & _ & Eb & _).
    rewrite Et, Eb. now split.
  - fold layout. apply processCategories_forall.
    + apply Forall_map, Forall_forall. intros b Hb.
      apply filter_In in Hb. destruct Hb as [Hin Hc].
      split; [exact Hin|]. cbn [ContentElement.layoutBox ContentElement.type].
      by_category b Hc.
    + apply Forall_map, Forall_forall. intros b Hb.
      apply filter_In in Hb. destruct Hb as [Hin Hc].
      apply categoryEq_iff in Hc. cbn beta zeta.
      destruct (estimateTableType _);
        [destruct (DocPipeline.tableRecognizer_ p)|
         |destruct (DocPipeline.tableRecognizer_ p)];
        (split; [exact Hin|]);
        cbn [ContentElement.layoutBox ContentElement.type];
        rewrite Hc; reflexivity.
    + apply Forall_map, Forall_forall. intros ib Hib.
      apply keptFigures_spec in Hib. destruct Hib as (_ & Hn & _).
      apply nth_error_In, filter_In in Hn. destruct Hn as [Hin Hc].
      apply categoryEq_iff in Hc.
      split; [exact Hin|].
      cbn [imageElement ContentElement.layoutBox ContentElement.type].
      rewrite Hc. reflexivity.
    + apply Forall_map, Forall_forall. intros b Hb.
      apply filter_In in Hb. destruct Hb as [Hin Hc].
      by_category b Hc; split; (exact Hin || reflexivity).
  - eexists. eexists. split; [exact E|].
    cbn [PageResult.pageIndex PageResult.layoutResult
         PageResult.tableResults PageResult.elements].
    repeat split; try reflexivity. exact Hall.
Qed.

Lemma X17_page_elements_witness :
  exists res written,
    processPage (nat * nat) sampleCols sampleRows sampleRectAnd sampleCrop
                sampleDetect sampleEstimate insertion_sort samplePipeline
                (PageImage.mk (1000%nat, 1000%nat) 3 200 1 500 500)
    = Done (res, written) /\
    PageResult.pageIndex res = 3 /\
    PageResult.layoutResult res
    = detectLayout (nat * nat) sampleDetect samplePipeline
                   (1000%nat, 1000%nat) /\
    PageResult.tableResults res = [] /\
    Forall (fun e =>
              In (ContentElement.layoutBox e)
                 (boxes (PageResult.layoutResult res)) /\
              elementType (category (ContentElement.layoutBox e))
              = Some (ContentElement.type e))
           (PageResult.elements res).
Proof.
  apply (X17_page_elements_are_typed_by_category
           (nat * nat)%type sampleCols sampleRows sampleRectAnd sampleCrop
           sampleDetect sampleEstimate insertion_sort samplePipeline
           (PageImage.mk (1000%nat, 1000%nat) 3 200 1 500 500)
           insertion_sort_contract); cbn; lia.
Defined.

(** X18: in the result of [processPage] on an image of non-negative
    extent, an image element carries the page index of the page and every
    other element carries the page index 0, whatever the page is. *)
Theorem X18_only_image_elements_carry_the_page_index :
  forall (Mat : Type) (cols rows : Mat -> Z)
         (rectAnd : cv.Rect -> cv.Rect -> cv.Rect)
         (crop : Mat -> cv.Rect -> Mat) (detect : Mat -> LayoutResult)
         (estimateTableType : Mat -> TableType.t)
         (sort : (nat -> nat -> bool) -> list nat -> list nat)
         (p : DocPipeline.t) (pageImage : PageImage.t Mat),
    sort_contract sort ->
    0 <= cols (PageImage.image pageImage) ->
    0 <= rows (PageImage.image pageImage) ->
    exists res written,
      processPage Mat cols rows rectAnd crop detect estimateTableType sort
                  p pageImage = Done (res, written) /\
      Forall (fun e =>
                ContentElement.pageIndex e =
                match ContentElement.type e with
                | ContentElement.IMAGE => PageImage.pageIndex pageImage
                | _ => 0
                end)
             (PageResult.elements res).
Proof.
  intros Mat cols rows rectAnd crop detect estimateTableType sort p
         pageImage Hsort HW HH.
  destruct (processPage_forall
              Mat cols rows rectAnd crop detect estimateTableType sort
              (sort_perm _ Hsort)
              (fun e =>
                 ContentElement.pageIndex e =
                 match ContentElement.type e with
                 | ContentElement.IMAGE => PageImage.pageIndex pageImage
                 | _ => 0
                 end)
              p pageImage) as (elements & E & _ & Hall);
    try assumption.
  - intros e e' Hs He.
    destruct (same_content_fields _ _ Hs)
      as (Et & _ & _ & _ & _ & Ep & _).
    now rewrite Et, Ep.
  - apply processCategories_forall; apply Forall_map, Forall_forall.
    + intros b _. cbn. now destruct (categoryEq _ _).
    + intros b _. cbn beta zeta.
      destruct (estimateTableType _);
        try destruct (DocPipeline.tableRecognizer_ p); reflexivity.
    + intros ib _. reflexivity.
    + intros b _. cbn. now destruct (_ || _).
  - eexists. eexists. split; [exact E|exact Hall].
Qed.

Lemma X18_page_index_witness :
  exists res written,
    processPage (nat * nat) sampleCols sampleRows sampleRectAnd sampleCrop
                sampleDetect sampleEstimate insertion_sort samplePipeline
                (PageImage.mk (1000%nat, 1000%nat) 3 200 1 500 500)
    = Done (res, written) /\
    Forall (fun e =>
              ContentElement.pageIndex e =
              match ContentElement.type e with
              | ContentElement.IMAGE => 3
              | _ => 0
              end)
           (PageResult.elements res).
Proof.
  apply (X18_only_image_elements_carry_the_page_index
           (nat * nat)%type sampleCols sampleRows sampleRectAnd sampleCrop
           sampleDetect sampleEstimate insertion_sort samplePipeline
           (PageImage.mk (1000%nat, 1000%nat) 3 200 1 500 500)
           insertion_sort_contract); cbn; lia.
Defined.




(** X21: [processPdf] returns whenever the images have non-negative
    extents.  On a pipeline that is not initialized it returns the empty
    result and writes nothing.  Otherwise the result has one page result
    per rendered page, in order, each the result of [processPage] on that
    page; the total and the processed page counts are both the number of
    rendered pages; and the count of skipped elements is the number of
    elements of all pages that are marked as skipped. *)
Theorem X21_processPdf_accounts_for_every_page :
  forall (Mat : Type) (cols rows : Mat -> Z)
         (rectAnd : cv.Rect -> cv.Rect -> cv.Rect)
         (crop : Mat -> cv.Rect -> Mat) (detect : Mat -> LayoutResult)
         (estimateTableType : Mat -> TableType.t)
         (renderFile : String.string -> list (PageImage.t Mat))
         (markdownGenerate contentListGenerate
            : DocumentResult.t -> String.string)
         (sort : (nat -> nat -> bool) -> list nat -> list nat)
         (p : DocPipeline.t) (pdfPath : String.string),
    sort_contract sort ->
    (forall m, 0 <= cols m /\ 0 <= rows m) ->
    exists res written,
      processPdf Mat cols rows rectAnd crop detect estimateTableType
                 renderFile markdownGenerate contentListGenerate sort
                 p pdfPath = Done (res, written) /\
      (DocPipeline.initialized_ p = false ->
       res = DocumentResult.default /\ written = []) /\
      (DocPipeline.initialized_ p = true ->
       Forall2
         (fun pageImage pageResult =>
            exists w,
              processPage Mat cols rows rectAnd crop detect
                          estimateTableType sort p pageImage
              = Done (pageResult, w))
         (if DocPipeline.pdfRenderer_ p then renderFile pdfPath else [])
         (DocumentResult.pages res) /\
       DocumentResult.totalPages res
       = Z.of_nat (length (DocumentResult.pages res)) /\
       DocumentResult.processedPages res
       = Z.of_nat (length (DocumentResult.pages res)) /\
       DocumentResult.skippedElements res
       = Z.of_nat
           (length (filter ContentElement.skipped
                      (concat (map PageResult.elements
                                   (DocumentResult.pages res)))))).
Proof.
  intros Mat cols rows rectAnd crop detect estimateTableType renderFile
         markdownGenerate contentListGenerate sort p pdfPath Hsort Hext.
  unfold processPdf.
  destruct (DocPipeline.initialized_ p); cbn [negb].
  2:{ eexists. eexists. split; [reflexivity|].
      split; [now split|discriminate]. }
  set (rendered := if DocPipeline.pdfRenderer_ p then renderFile pdfPath
                   else []).
  destruct rendered as [|img rest] eqn:Er.
  { eexists. eexists. split; [reflexivity|]. split; [discriminate|].
    intros _. cbn. repeat split. constructor. }
  rewrite <- Er.
  destruct (processPages_spec
              Mat cols rows rectAnd crop detect estimateTableType sort
              (sort_perm _ Hsort) Hext p rendered
              (withTotalPages (Z.of_nat (length rendered))
                              DocumentResult.default) [])
    as (prs & ws & Hrun & Hall).
  rewrite Hrun. cbn [bind fst snd].
  eexists. eexists. split; [reflexivity|]. split; [discriminate|].
  intros _.
  assert (Hlen : length prs = length rendered)
    by (symmetry; eapply Forall2_length; eassumption).
  unfold generateOutput.
  destruct (enableMarkdownOutput (stages (DocPipeline.config_ p)));
    cbn [DocumentResult.pages DocumentResult.markdown
         DocumentResult.contentListJson DocumentResult.totalPages
         DocumentResult.processedPages DocumentResult.skippedElements
         withTotalPages DocumentResult.default app];
    rewrite countSkipped_spec, Hlen;
    (split; [exact Hall|]); repeat split; lia.
Qed.

Lemma X21_processPdf_witness :
  exists res written,
    processPdf (nat * nat) sampleCols sampleRows sampleRectAnd sampleCrop
               sampleDetect sampleEstimate sampleRender sampleWriter
               sampleWriter insertion_sort samplePipeline samplePath
    = Done (res, written) /\
    (DocPipeline.initialized_ samplePipeline = false ->
     res = DocumentResult.default /\ written = []) /\
    (DocPipeline.initialized_ samplePipeline = true ->
     Forall2
       (fun pageImage pageResult =>
          exists w,
            processPage (nat * nat) sampleCols sampleRows sampleRectAnd
                        sampleCrop sampleDetect sampleEstimate
                        insertion_sort samplePipeline pageImage
            = Done (pageResult, w))
       (if DocPipeline.pdfRenderer_ samplePipeline
        then sampleRender samplePath else [])
       (DocumentResult.pages res) /\
     DocumentResult.totalPages res
     = Z.of_nat (length (DocumentResult.pages res)) /\
     DocumentResult.processedPages res
     = Z.of_nat (length (DocumentResult.pages res)) /\
     DocumentResult.skippedElements res
     = Z.of_nat
         (length (filter ContentElement.skipped
                    (concat (map PageResult.elements
                                 (DocumentResult.pages res)))))).
Proof.
  apply (X21_processPdf_accounts_for_every_page
           (nat * nat)%type sampleCols sampleRows sampleRectAnd sampleCrop
           sampleDetect sampleEstimate sampleRender sampleWriter
           sampleWriter insertion_sort samplePipeline samplePath
           insertion_sort_contract).
  intros m. unfold sampleCols, sampleRows. lia.
Defined.

(** X22: when the renderer gives [processPdfFromMemory] the pages that it
    gives [processPdf], and there is at least one page, the two calls
    return the same pages, the same output and the same page counts and
    write the same files; but [processPdfFromMemory] does not count the
    skipped elements: its result always reports 0 of them. *)
Theorem X22_processPdfFromMemory_reports_no_skipped_element :
  forall (Mat : Type) (cols rows : Mat -> Z)
         (rectAnd : cv.Rect -> cv.Rect -> cv.Rect)
         (crop : Mat -> cv.Rect -> Mat) (detect : Mat -> LayoutResult)
         (estimateTableType : Mat -> TableType.t)
         (renderFile : String.string -> list (PageImage.t Mat))
         (renderFromMemory : list Z -> list (PageImage.t Mat))
         (markdownGenerate contentListGenerate
            : DocumentResult.t -> String.string)
         (sort : (nat -> nat -> bool) -> list nat -> list nat)
         (p : DocPipeline.t) (pdfPath : String.string) (data : list Z),
    DocPipeline.pdfRenderer_ p = true ->
    renderFromMemory data = renderFile pdfPath ->
    renderFile pdfPath <> [] ->
    processPdfFromMemory Mat cols rows rectAnd crop detect
                         estimateTableType renderFromMemory
                         markdownGenerate contentListGenerate sort p data
    = (rw <- processPdf Mat cols rows rectAnd crop detect
                        estimateTableType renderFile markdownGenerate
                        contentListGenerate sort p pdfPath ;;
       Done (withSkipped 0 (fst rw), snd rw)).
Proof.
  intros Mat cols rows rectAnd crop detect estimateTableType renderFile
         renderFromMemory markdownGenerate contentListGenerate sort p
         pdfPath data Hpdf Hsame Hne.
  unfold processPdfFromMemory, processPdf.
  destruct (DocPipeline.initialized_ p); cbn [negb]; [|reflexivity].
  rewrite Hpdf, Hsame.
  destruct (renderFile pdfPath) as [|img rest] eqn:Er; [contradiction|].
  destruct (processPages _ _ _ _ _ _ _ _ p (img :: rest) _ [])
    as [[r w]| |] eqn:Hrun; cbn [bind fst snd]; try reflexivity.
  apply processPages_skipped in Hrun.
  cbn [withTotalPages DocumentResult.skippedElements
       DocumentResult.default] in Hrun.
  unfold generateOutput, withSkipped.
  destruct (enableMarkdownOutput (stages (DocPipeline.config_ p)));
    cbn [DocumentResult.pages DocumentResult.markdown
         DocumentResult.contentListJson DocumentResult.totalPages
         DocumentResult.processedPages DocumentResult.skippedElements];
    rewrite Hrun; reflexivity.
Qed.

Lemma X22_from_memory_witness :
  processPdfFromMemory (nat * nat) sampleCols sampleRows sampleRectAnd
                       sampleCrop sampleDetect sampleEstimate
                       sampleRenderFromMemory sampleWriter sampleWriter
                       insertion_sort samplePipeline [37; 80; 68; 70]
  = (rw <- processPdf (nat * nat) sampleCols sampleRows sampleRectAnd
                      sampleCrop sampleDetect sampleEstimate sampleRender
                      sampleWriter sampleWriter insertion_sort
                      samplePipeline samplePath ;;
     Done (withSkipped 0 (fst rw), snd rw)).
Proof.
  apply (X22_processPdfFromMemory_reports_no_skipped_element
           (nat * nat)%type sampleCols sampleRows sampleRectAnd sampleCrop
           sampleDetect sampleEstimate sampleRender sampleRenderFromMemory
           sampleWriter sampleWriter insertion_sort samplePipeline
           samplePath [37; 80; 68; 70]);
    [reflexivity|reflexivity|discriminate].
Defined.

(** X23: [initialize] on a newly constructed pipeline returns [true]
    exactly when [validate] finds nothing missing and, if OCR is enabled,
    the OCR pipeline initializes.  The pipeline is marked as initialized
    exactly in that case, and then it holds a PDF renderer, a layout
    detector, an initialized table recognizer and an OCR pipeline exactly
    for the stages that are enabled. *)
Theorem X23_initialize_follows_validate_and_the_stages :
  forall (ocrInitialize : bool) (fs_exists : String.string -> bool)
         (config : PipelineConfig),
    (snd (initialize ocrInitialize fs_exists (construct config)) = true <->
     validate fs_exists config = String.EmptyString /\
     (enableOcr (stages config) = true -> ocrInitialize = true)) /\
    DocPipeline.config_
      (fst (initialize ocrInitialize fs_exists (construct config)))
    = config /\
    DocPipeline.initialized_
      (fst (initialize ocrInitialize fs_exists (construct config)))
    = snd (initialize ocrInitialize fs_exists (construct config)) /\
    (snd (initialize ocrInitialize fs_exists (construct config)) = true ->
     DocPipeline.pdfRenderer_
       (fst (initialize ocrInitialize fs_exists (construct config)))
     = enablePdfRender (stages config) /\
     DocPipeline.layoutDetector_
       (fst (initialize ocrInitialize fs_exists (construct config)))
     = enableLayout (stages config) /\
     DocPipeline.tableRecognizer_
       (fst (initialize ocrInitialize fs_exists (construct config)))
     = (if enableWiredTable (stages config)
        then Some (TableRecognizer.mk true) else None) /\
     DocPipeline.ocrPipeline_
       (fst (initialize ocrInitialize fs_exists (construct config)))
     = enableOcr (stages config)).
Proof.
  intros ocrInitialize fs_exists config.
  exact (initialize_spec fs_exists ocrInitialize config).
Qed.

(** X24: [processPage] never returns more elements than the layout result
    has boxes: every stage makes at most one element of a box, no box is
    handed to two stages, and the reading-order step adds none. *)
Theorem X24_page_has_no_more_elements_than_boxes :
  forall (Mat : Type) (cols rows : Mat -> Z)
         (rectAnd : cv.Rect -> cv.Rect -> cv.Rect)
         (crop : Mat -> cv.Rect -> Mat) (detect : Mat -> LayoutResult)
         (estimateTableType : Mat -> TableType.t)
         (sort : (nat -> nat -> bool) -> list nat -> list nat)
         (p : DocPipeline.t) (pageImage : PageImage.t Mat),
    sort_contract sort ->
    0 <= cols (PageImage.image pageImage) ->
    0 <= rows (PageImage.image pageImage) ->
    exists res written,
      processPage Mat cols rows rectAnd crop detect estimateTableType sort
                  p pageImage = Done (res, written) /\
      (length (PageResult.elements res)
       <= length (boxes (PageResult.layoutResult res)))%nat /\
      (length written
       <= length (getBoxesByCategory (PageResult.layoutResult res)
                                     FIGURE))%nat.
Proof.
  intros Mat cols rows rectAnd crop detect estimateTableType sort p
         pageImage Hsort HW HH.
  destruct (processPage_forall
              Mat cols rows rectAnd crop detect estimateTableType sort
              (sort_perm _ Hsort) (fun _ => True) p pageImage)
    as (elements & E & Hrun & _); try assumption.
  - auto.
  - apply Forall_forall. auto.
  - eexists. eexists. split; [exact E|].
    cbn [PageResult.elements PageResult.layoutResult]. split.
    + apply (readingOrderSort_length
               Mat cols rows sort (sort_perm _ Hsort)) in Hrun;
        try assumption.
      eapply Nat.le_trans; [exact Hrun|].
      apply processCategories_length.
    + rewrite processCategories_closed. cbn [snd].
      destruct (saveImages _); [|cbn; lia].
      rewrite length_map. apply keptFigures_le.
Qed.

Lemma X24_page_elements_witness :
  exists res written,
    processPage (nat * nat) sampleCols sampleRows sampleRectAnd sampleCrop
                sampleDetect sampleEstimate insertion_sort samplePipeline
                (PageImage.mk (1000%nat, 1000%nat) 3 200 1 500 500)
    = Done (res, written) /\
    (length (PageResult.elements res)
     <= length (boxes (PageResult.layoutResult res)))%nat /\
    (length written
     <= length (getBoxesByCategory (PageResult.layoutResult res)
                                   FIGURE))%nat.
Proof.
  apply (X24_page_has_no_more_elements_than_boxes
           (nat * nat)%type sampleCols sampleRows sampleRectAnd sampleCrop
           sampleDetect sampleEstimate insertion_sort samplePipeline
           (PageImage.mk (1000%nat, 1000%nat) 3 200 1 500 500)
           insertion_sort_contract); cbn; lia.
Defined.

(** ** Base64 decoding *)

Import Server ServerFacts.

(** X25: [base64Decode] reads the characters of the alphabet that come
    before the first ['='] and skips every other character.  Their 6-bit
    values are decoded four at a time into three bytes, the first of a
    group being the high bits; a rest of three values gives two bytes, a
    rest of two gives one byte and a rest of one gives none.  The
    wrap-around of the 32-bit accumulator never changes a byte. *)
Theorem X25_base64Decode_decodes_groups_of_four :
  forall encoded : String.string,
    base64Decode encoded = groups (sextets encoded) /\
    Forall (fun s => 0 <= s < 64) (sextets encoded).
Proof.
  intros encoded. split; [apply decode_groups|apply sextets_range].
Qed.

(** X26: [base64Decode] returns three bytes for every four characters
    that it reads, rounded down, each byte between 0 and 255.  It returns
    no byte, which the base64 route answers with the error "Invalid
    base64 data", exactly when fewer than two characters of the alphabet
    come before the first ['=']. *)
Theorem X26_base64Decode_length :
  forall encoded : String.string,
    length (base64Decode encoded)
    = (length (sextets encoded) * 3 / 4)%nat /\
    Forall (fun b => 0 <= b < 256) (base64Decode encoded) /\
    (base64Decode encoded = [] <-> (length (sextets encoded) < 2)%nat).
Proof.
  intros encoded. rewrite decode_groups.
  split; [apply (groups_length (length (sextets encoded))); lia|].
  split;
    [apply (groups_range (length (sextets encoded)));
     [lia|apply sextets_range]|].
  destruct (sextets encoded) as [|a [|b [|c [|d rest]]]]; cbn;
    split; intros H; try reflexivity; try discriminate H; lia.
Qed.

(** X27: [base64Decode] inverts the standard base64 encoding (RFC 4648):
    for every sequence of bytes, decoding its encoding, padding included,
    gives the sequence back. *)
Theorem X27_base64Decode_inverts_the_standard_encoding :
  forall bytes : list Z,
    Forall (fun b => 0 <= b < 256) bytes ->
    base64Decode (base64Encode bytes) = bytes.
Proof.
  intros bytes Hall. rewrite decode_groups.
  now apply (decode_encode (length bytes)).
Qed.

Lemma X27_base64Decode_witness :
  base64Decode (base64Encode sampleBytes) = sampleBytes.
Proof.
  apply (X27_base64Decode_inverts_the_standard_encoding sampleBytes).
  repeat constructor; lia.
Defined.
